(** * PDF split tool: page-range parsing, fixed-size partitioning, output assembly

    A shallow embedding of the [PDFSplitTool] component: the handlers
    [togglePageSelection], [selectAll], [applyRange] and [processPDF] are
    functions on an explicit component state, and the JavaScript built-ins
    they call ([String.prototype.trim], [String.prototype.split], [Number],
    [isNaN], [Math.min], [Math.max], [Set]) are modelled in module [JS]. *)

From Stdlib Require Import ZArith NArith String Ascii Bool Lia List.
From Stdlib Require Import DecimalString DecimalNat Sorted.
Import ListNotations.

Local Open Scope Z_scope.

(* ================================================================== *)
(** * JavaScript built-ins used by the component *)
(* ================================================================== *)

Module JS.

(** ** Strings

    A JavaScript string is a sequence of UTF-16 code units. *)

Definition jsstring := list N.

(** Literals: an ASCII text as a sequence of code units. *)
Definition js (s : string) : jsstring :=
  List.map N_of_ascii (list_ascii_of_string s).

(** [WhiteSpace] and [LineTerminator] code points: the characters removed by
    [trim] and skipped by [Number] around a numeric literal. *)
Definition isWhiteSpace (c : N) : bool :=
  ((9 <=? c) && (c <=? 13) || (c =? 32) || (c =? 160) || (c =? 5760)
   || (8192 <=? c) && (c <=? 8202) || (c =? 8232) || (c =? 8233)
   || (c =? 8239) || (c =? 8287) || (c =? 12288) || (c =? 65279))%N.

Fixpoint trimStart (s : jsstring) : jsstring :=
  match s with
  | c :: r => if isWhiteSpace c then trimStart r else s
  | [] => []
  end.

Definition trimEnd (s : jsstring) : jsstring := rev (trimStart (rev s)).

Definition trim (s : jsstring) : jsstring := trimEnd (trimStart s).

(** [s.split(sep)] for a separator of one code unit: the pieces between the
    occurrences of [sep]; a string without [sep] (the empty string too) gives
    one piece. *)
Fixpoint split (sep : N) (s : jsstring) : list jsstring :=
  match s with
  | [] => [[]]
  | c :: r =>
      if (c =? sep)%N then [] :: split sep r
      else match split sep r with
           | piece :: pieces => (c :: piece) :: pieces
           | [] => [[c]]
           end
  end.

Definition comma : N := 44.
Definition dash : N := 45.

(** ** Numbers

    A Number is an IEEE 754 binary64 value.  Every finite binary64 value is an
    integer multiple of 2^-1074 (the smallest subnormal), so a finite value is
    represented by that integer: [Fin k] is [k * 2^-1074].  The sign of zero
    is not represented: no operation of the component observes it. *)

Inductive number : Type :=
| NaN
| Inf (negative : bool)
| Fin (k : Z).

Definition unit_scale : Z := 2 ^ 1074.

(** The Number of an integer; exact when [|z| <= 2^53]. *)
Definition of_Z (z : Z) : number := Fin (z * unit_scale).
Definition of_nat (n : nat) : number := of_Z (Z.of_nat n).

Definition zero : number := of_Z 0.
Definition one : number := of_Z 1.

(** Nearest integer to [a / d], ties to even ([0 <= a], [0 < d]). *)
Definition round_half_even (a d : Z) : Z :=
  let q := a / d in
  match (2 * (a mod d)) ?= d with
  | Lt => q
  | Gt => q + 1
  | Eq => if Z.even q then q else q + 1
  end.

(** Round-to-nearest, ties-to-even, of the magnitude [a / d] (in units of
    2^-1074) to 53 significant bits; magnitudes that round to 2^1024 or more
    become infinite. *)
Definition round (negative : bool) (a d : Z) : number :=
  let s := Z.max 0 (Z.log2 (a / d) - 52) in
  let k := round_half_even a (d * 2 ^ s) * 2 ^ s in
  if 2 ^ 2098 <=? k then Inf negative
  else Fin (if negative then - k else k).

Definition round_Z (k : Z) : number := round (k <? 0) (Z.abs k) 1.

Definition neg (x : number) : number :=
  match x with
  | NaN => NaN
  | Inf s => Inf (negb s)
  | Fin k => Fin (- k)
  end.

Definition add (x y : number) : number :=
  match x, y with
  | NaN, _ | _, NaN => NaN
  | Inf a, Inf b => if Bool.eqb a b then Inf a else NaN
  | Inf a, Fin _ | Fin _, Inf a => Inf a
  | Fin a, Fin b => round_Z (a + b)
  end.

Definition sub (x y : number) : number := add x (neg y).

(** [x / y]. A zero divisor counts as +0. *)
Definition div (x y : number) : number :=
  match x, y with
  | NaN, _ | _, NaN => NaN
  | Inf _, Inf _ => NaN
  | Inf a, Fin b => Inf (xorb a (b <? 0))
  | Fin _, Inf _ => Fin 0
  | Fin a, Fin b =>
      if b =? 0 then (if a =? 0 then NaN else Inf (a <? 0))
      else round (xorb (a <? 0) (b <? 0)) (Z.abs a * unit_scale) (Z.abs b)
  end.

(** [Math.ceil(x)]: the least integer not below [x]. *)
Definition ceil (x : number) : number :=
  match x with
  | Fin k => Fin (- ((- k) / unit_scale) * unit_scale)
  | _ => x
  end.

(** [x < y] and [x <= y]; false when an operand is NaN. *)
Definition lt (x y : number) : bool :=
  match x, y with
  | NaN, _ | _, NaN => false
  | Inf a, Inf b => a && negb b
  | Inf a, Fin _ => a
  | Fin _, Inf b => negb b
  | Fin a, Fin b => a <? b
  end.

Definition le (x y : number) : bool :=
  match x, y with
  | NaN, _ | _, NaN => false
  | Inf a, Inf b => a || negb b
  | Inf a, Fin _ => a
  | Fin _, Inf b => negb b
  | Fin a, Fin b => a <=? b
  end.

Definition isNaN (x : number) : bool :=
  match x with NaN => true | _ => false end.

(** [Math.min(x, y)] and [Math.max(x, y)]. *)
Definition min (x y : number) : number :=
  match x, y with
  | NaN, _ | _, NaN => NaN
  | _, _ => if le x y then x else y
  end.

Definition max (x y : number) : number :=
  match x, y with
  | NaN, _ | _, NaN => NaN
  | _, _ => if le x y then y else x
  end.

(** SameValueZero, the equality of [Set]: NaN equals NaN, and equal values are
    the same representation. *)
Definition sameValueZero (x y : number) : bool :=
  match x, y with
  | NaN, NaN => true
  | Inf a, Inf b => Bool.eqb a b
  | Fin a, Fin b => a =? b
  | _, _ => false
  end.

(** ** [Number(string)]: the StringNumericLiteral grammar

    Code units named below: 43 [+], 45 [-], 46 [.], 48 [0], 69 and 101 [E e],
    66 and 98 [B b], 79 and 111 [O o], 88 and 120 [X x].  A decimal literal
    denotes the Number nearest to its mathematical value (for more than 20
    significant digits the standard also allows an approximation; engines
    round correctly, and so does this model). *)

Definition isDigit (c : N) : bool := ((48 <=? c) && (c <=? 57))%N.

Fixpoint span (p : N -> bool) (s : jsstring) : jsstring * jsstring :=
  match s with
  | c :: r => if p c then let (a, b) := span p r in (c :: a, b) else ([], s)
  | [] => ([], [])
  end.

(** Value of a digit in a base up to 16, if it is one. *)
Definition digitValue (base : Z) (c : N) : option Z :=
  let v := if ((48 <=? c) && (c <=? 57))%N then Z.of_N c - 48
           else if ((97 <=? c) && (c <=? 102))%N then Z.of_N c - 87
           else if ((65 <=? c) && (c <=? 70))%N then Z.of_N c - 55
           else 16 in
  if v <? base then Some v else None.

Fixpoint digitsValue (base : Z) (acc : Z) (s : jsstring) : option Z :=
  match s with
  | [] => Some acc
  | c :: r =>
      match digitValue base c with
      | Some v => digitsValue base (acc * base + v) r
      | None => None
      end
  end.

(** The Number nearest to [n * 10^e]. *)
Definition decimalValue (n e : Z) : number :=
  if 0 <=? e then round false (n * 10 ^ e * unit_scale) 1
  else round false (n * unit_scale) (10 ^ (- e)).

Definition isExponentIndicator (c : N) : bool := ((c =? 101) || (c =? 69))%N.

(** SignedInteger: the sign and the digits that follow it. *)
Definition signedPart (r : jsstring) : bool * jsstring :=
  match r with
  | c :: ds =>
      if (c =? 43)%N then (false, ds)
      else if (c =? 45)%N then (true, ds)
      else (false, r)
  | [] => (false, [])
  end.

(** The rest of a decimal literal after its digits: nothing, or an
    ExponentPart. [mantissa] holds the digits read, [fracLen] of them after
    the point. *)
Definition exponentPart (mantissa : jsstring) (fracLen : Z) (r : jsstring)
  : number :=
  match digitsValue 10 0 mantissa with
  | None => NaN
  | Some n =>
      match r with
      | [] => decimalValue n (- fracLen)
      | c :: r' =>
          if isExponentIndicator c then
            let (negative, ds) := signedPart r' in
            match ds, digitsValue 10 0 ds with
            | _ :: _, Some x =>
                decimalValue n ((if negative then - x else x) - fracLen)
            | _, _ => NaN
            end
          else NaN
      end
  end.

(** StrUnsignedDecimalLiteral. *)
Definition unsignedDecimal (s : jsstring) : number :=
  if list_eq_dec N.eq_dec s (js "Infinity"%string) then Inf false
  else
    let (ip, r1) := span isDigit s in
    match r1 with
    | c :: r2 =>
        if (c =? 46)%N then
          let (fp, r3) := span isDigit r2 in
          match ip, fp with
          | [], [] => NaN
          | _, _ => exponentPart (ip ++ fp)%list (Z.of_nat (List.length fp)) r3
          end
        else
          match ip with
          | [] => NaN
          | _ => exponentPart ip 0 r1
          end
    | [] =>
        match ip with
        | [] => NaN
        | _ => exponentPart ip 0 []
        end
    end.

(** Binary, octal and hexadecimal integer literals: the base and the digits
    after a [0b], [0o] or [0x] prefix. *)
Definition radixPrefix (t : jsstring) : option (Z * jsstring) :=
  match t with
  | c0 :: c1 :: ds =>
      if (c0 =? 48)%N then
        if ((c1 =? 120) || (c1 =? 88))%N then Some (16, ds)
        else if ((c1 =? 111) || (c1 =? 79))%N then Some (8, ds)
        else if ((c1 =? 98) || (c1 =? 66))%N then Some (2, ds)
        else None
      else None
  | _ => None
  end.

Definition nonDecimal (base : Z) (ds : jsstring) : number :=
  match ds, digitsValue base 0 ds with
  | _ :: _, Some n => round false (n * unit_scale) 1
  | _, _ => NaN
  end.

(** [Number(s)] for a string [s]: white space around the literal is skipped,
    the empty literal is 0, anything outside the grammar is NaN. *)
Definition Number (s : jsstring) : number :=
  match trim s with
  | [] => zero
  | c :: r =>
      match radixPrefix (c :: r) with
      | Some (base, ds) => nonDecimal base ds
      | None =>
          if (c =? 43)%N then unsignedDecimal r
          else if (c =? 45)%N then neg (unsignedDecimal r)
          else unsignedDecimal (c :: r)
      end
  end.

(** ** [Set<number>]: elements in insertion order, without repetition *)

Definition NumberSet := list number.

Definition has (x : number) (s : NumberSet) : bool :=
  existsb (sameValueZero x) s.

Definition add_elem (x : number) (s : NumberSet) : NumberSet :=
  if has x s then s else (s ++ [x])%list.

End JS.

(* ================================================================== *)
(** * The component state *)
(* ================================================================== *)

Import JS.

(** [interface PagePreview]: [index] is the zero-based page index. *)
Record PagePreview : Type := mkPage {
  index : nat;
  imageUrl : string;
  selected : bool
}.

Inductive Mode : Type := custom | fixed.
Inductive OutputMode : Type := single | separate.

(** A PDF document, as far as the component decides it: which pages of the
    source document it holds, in order. *)
Definition PDFDoc := list nat.

(** The blob behind a result URL: one document, or an archive of named
    documents (the entries in insertion order). *)
Inductive Blob : Type :=
| PdfBlob (doc : PDFDoc)
| ZipBlob (entries : list (string * PDFDoc)).

(** The chosen file, as far as the component decides it: the number of pages
    [PDFDocument.load] finds in it, or [None] when loading it throws (a
    corrupt or encrypted source). *)
Record File : Type := mkFile {
  pageCount : option nat
}.

(** What the cell [fixedRange] holds. It starts at 1 and is written by the
    input of the fixed mode only, which stores
    [Math.max(1, parseInt(text) || 1)]: an integer of at least 1, or
    +Infinity when the text has more digits than a finite Number can take
    ([changeFixedRange] and [nextFixedRange_cell] below). *)
Inductive ChunkSize : Type :=
| Pages (k : positive)
| Unbounded.

(** The Number in the cell. *)
Definition numberOf (c : ChunkSize) : number :=
  match c with
  | Pages k => of_Z (Z.pos k)
  | Unbounded => Inf false
  end.

(** The Number in the cell is a Number: a finite one is below 2^1024. *)
Definition isNumber (c : ChunkSize) : Prop :=
  match c with
  | Pages k => Z.pos k < 2 ^ 1024
  | Unbounded => True
  end.

(** The [useState] cells of [PDFSplitTool]. [resultUrl] is modelled by the blob
    the URL names. *)
Record State : Type := mkState {
  file : option File;
  pages : list PagePreview;
  mode : Mode;
  outputMode : OutputMode;
  fixedRange : ChunkSize;
  isLoading : bool;
  isProcessing : bool;
  rangeInput : jsstring;
  loadingProgress : nat;
  resultUrl : option Blob;
  resultFilename : string
}.

Definition setPages (f : list PagePreview -> list PagePreview) (st : State)
  : State :=
  mkState (file st) (f (pages st)) (mode st) (outputMode st) (fixedRange st)
          (isLoading st) (isProcessing st) (rangeInput st)
          (loadingProgress st) (resultUrl st) (resultFilename st).

Definition setIsProcessing (b : bool) (st : State) : State :=
  mkState (file st) (pages st) (mode st) (outputMode st) (fixedRange st)
          (isLoading st) b (rangeInput st)
          (loadingProgress st) (resultUrl st) (resultFilename st).

Definition setResult (url : Blob) (name : string) (st : State) : State :=
  mkState (file st) (pages st) (mode st) (outputMode st) (fixedRange st)
          (isLoading st) (isProcessing st) (rangeInput st)
          (loadingProgress st) (Some url) name.

Definition Mode_eqb (a b : Mode) : bool :=
  match a, b with
  | custom, custom | fixed, fixed => true
  | _, _ => false
  end.

(* ================================================================== *)
(** * Selection handlers *)
(* ================================================================== *)

Definition setSelected (b : bool) (p : PagePreview) : PagePreview :=
  mkPage (index p) (imageUrl p) b.

Definition togglePageSelection (i : nat) (st : State) : State :=
  if Mode_eqb (mode st) fixed then st
  else setPages (map (fun p =>
         if Nat.eqb (index p) i then setSelected (negb (selected p)) p else p))
       st.

Definition selectAll (select : bool) (st : State) : State :=
  setPages (map (setSelected select)) st.

(** ** The range parser of [applyRange]

    The loop [for (let i = start; i <= end; i++)] runs on Numbers and need not
    end ([i++] stops growing at 2^53), so it takes fuel: [None] is a loop that
    is still running when the fuel is spent. *)

Fixpoint rangeLoop (fuel : nat) (len : number) (i e : number)
  (selectedIndices : NumberSet) : option NumberSet :=
  match fuel with
  | O => None
  | S fuel' =>
      if le i e then
        rangeLoop fuel' len (add i one) e
          (if lt zero i && le i len
           then add_elem (sub i one) selectedIndices
           else selectedIndices)
      else Some selectedIndices
  end.

(** The body of [parts.forEach]: one comma-separated token. *)
Definition applyPart (fuel : nat) (len : number) (part : jsstring)
  (selectedIndices : NumberSet) : option NumberSet :=
  match map Number (split dash (trim part)) with
  | [v] =>
      if negb (isNaN v) then
        if lt zero v && le v len
        then Some (add_elem (sub v one) selectedIndices)
        else Some selectedIndices
      else Some selectedIndices
  | [a; b] =>
      if negb (isNaN a) && negb (isNaN b) then
        rangeLoop fuel len (min a b) (max a b) selectedIndices
      else Some selectedIndices
  | _ => Some selectedIndices
  end.

Fixpoint forEachPart (fuel : nat) (len : number) (parts : list jsstring)
  (selectedIndices : NumberSet) : option NumberSet :=
  match parts with
  | [] => Some selectedIndices
  | part :: rest =>
      match applyPart fuel len part selectedIndices with
      | Some s => forEachPart fuel len rest s
      | None => None
      end
  end.

(** The set [selectedIndices] that [applyRange] builds from the input for a
    list of [n] pages. *)
Definition parseRange (fuel : nat) (n : nat) (input : jsstring)
  : option NumberSet :=
  forEachPart fuel (of_nat n) (split comma input) [].

(** [applyRange]: nothing on an empty input or in fixed mode; otherwise the
    flag of every page becomes membership of its index in the parsed set.
    (The effect that clears [resultUrl] when the page list changes runs after
    the handler, on the next render, and is not part of it.) *)
Definition applyRange (fuel : nat) (st : State) : option State :=
  match rangeInput st with
  | [] => Some st
  | _ :: _ =>
      if Mode_eqb (mode st) fixed then Some st
      else
        match parseRange fuel (List.length (pages st)) (rangeInput st) with
        | None => None
        | Some selectedIndices =>
            Some (setPages (map (fun p =>
                    setSelected (has (of_nat (index p)) selectedIndices) p))
                  st)
        end
  end.

(* ================================================================== *)
(** * Output assembly: [processPDF] *)
(* ================================================================== *)

(** What the user sees besides the state. *)
Inductive Effect : Type :=
| ConsoleError (msg : string)
| Alert (msg : string).

(** A template literal's rendering of a non-negative integer. *)
Definition toString (n : nat) : string :=
  NilEmpty.string_of_uint (Nat.to_uint n).

(** [newDoc.copyPages(srcDoc, indices)] followed by [addPage] of each copy:
    the new document holds those pages; an index that is not a page of the
    source throws. *)
Definition copyPages (srcPages : nat) (indices : list nat) : option PDFDoc :=
  if forallb (fun i => Nat.ltb i srcPages) indices then Some indices else None.

(** [zip.file(name, data)]: a new entry, or the replacement of the entry of
    that name. *)
Fixpoint zipFile (name : string) (doc : PDFDoc) (zip : list (string * PDFDoc))
  : list (string * PDFDoc) :=
  match zip with
  | [] => [(name, doc)]
  | (name', doc') :: rest =>
      if String.eqb name' name then (name, doc) :: rest
      else (name', doc') :: zipFile name doc rest
  end.

(** ** Fixed-size partition

    The loop of the fixed mode for a finite chunk size [k], an integer of at
    least 1: the case [Pages] of the cell.

    [Math.ceil(pages.length / fixedRange)]: the ceiling of the quotient. On
    Numbers, for a page count below 2^53, the rounded quotient has the same
    ceiling, whatever the cell holds ([chunkCountOf_as_Number] below), and
    the bounds [i * fixedRange] and [Math.min(start + fixedRange,
    pages.length)] of every chunk are those written here on the natural
    numbers ([chunk_bounds_as_Number] below). *)
Definition chunkCount (n k : nat) : nat :=
  if Nat.eqb (n mod k) 0 then n / k else S (n / k).

Definition chunkStart (k i : nat) : nat := i * k.
Definition chunkEnd (n k i : nat) : nat := Nat.min (chunkStart k i + k) n.

(** [Array.from({length: end - start}, (_, j) => j + start)]. *)
Definition chunkIndices (n k i : nat) : list nat :=
  seq (chunkStart k i) (chunkEnd n k i - chunkStart k i).

(** The groups the loop of the fixed mode walks through, for [n] pages and
    chunk size [k]. *)
Definition fixedGroups (n k : nat) : list (list nat) :=
  map (chunkIndices n k) (seq 0 (chunkCount n k)).

Definition partName (n k i : nat) : string :=
  ("part_" ++ toString (i + 1) ++ "_pages_" ++ toString (chunkStart k i + 1)
   ++ "-" ++ toString (chunkEnd n k i) ++ ".pdf")%string.

(** The body of the loop over the chunks, for the chunk numbers [todo] in
    turn; [None] when a call throws. *)
Fixpoint fixedLoop (srcPages n k : nat) (todo : list nat)
  (zip : list (string * PDFDoc)) : option (list (string * PDFDoc)) :=
  match todo with
  | [] => Some zip
  | i :: rest =>
      match copyPages srcPages (chunkIndices n k i) with
      | None => None
      | Some newDoc =>
          fixedLoop srcPages n k rest (zipFile (partName n k i) newDoc zip)
      end
  end.

(** [Math.ceil(pages.length / fixedRange)] for what the cell holds: a quotient
    by +Infinity is 0. *)
Definition chunkCountOf (n : nat) (c : ChunkSize) : nat :=
  match c with
  | Pages k => chunkCount n (Pos.to_nat k)
  | Unbounded => 0%nat
  end.

(** The archive the loop [for (let i = 0; i < chunkCount; i++)] fills: with
    +Infinity in the cell the count is 0, the body is never run and the
    archive stays without an entry. *)
Definition fixedArchive (srcPages n : nat) (c : ChunkSize)
  : option (list (string * PDFDoc)) :=
  let count := chunkCountOf n c in
  match c with
  | Pages k => fixedLoop srcPages n (Pos.to_nat k) (seq 0 count) []
  | Unbounded => Some []
  end.

(** ** Custom selection *)

Definition pageName (p : PagePreview) : string :=
  ("page_" ++ toString (index p + 1) ++ ".pdf")%string.

Fixpoint separateLoop (srcPages : nat) (selectedPages : list PagePreview)
  (zip : list (string * PDFDoc)) : option (list (string * PDFDoc)) :=
  match selectedPages with
  | [] => Some zip
  | page :: rest =>
      match copyPages srcPages [index page] with
      | None => None
      | Some newDoc =>
          separateLoop srcPages rest (zipFile (pageName page) newDoc zip)
      end
  end.

(** The [try] block of [processPDF] once the file is known: [None] is a
    thrown exception, [Some st'] the state when the block ends (by falling
    through or by [return]). [timestamp] is [Date.now()]. *)
Definition processBody (timestamp : nat) (f : File) (st : State)
  : option State :=
  match pageCount f with
  | None => None
  | Some srcPages =>
      match mode st with
      | fixed =>
          let n := List.length (pages st) in
          match fixedArchive srcPages n (fixedRange st) with
          | None => None
          | Some zip =>
              Some (setResult (ZipBlob zip)
                      ("split_fixed_" ++ toString timestamp ++ ".zip") st)
          end
      | custom =>
          let selectedPages := filter selected (pages st) in
          match selectedPages with
          | [] => Some st
          | _ :: _ =>
              match outputMode st with
              | single =>
                  match copyPages srcPages (map index selectedPages) with
                  | None => None
                  | Some newDoc =>
                      Some (setResult (PdfBlob newDoc)
                              ("extracted_" ++ toString timestamp ++ ".pdf")
                              st)
                  end
              | separate =>
                  match separateLoop srcPages selectedPages [] with
                  | None => None
                  | Some zip =>
                      Some (setResult (ZipBlob zip)
                              ("extracted_pages_" ++ toString timestamp
                               ++ ".zip") st)
                  end
              end
          end
      end
  end.

(** [processPDF]: the final state and what was shown to the user. *)
Definition processPDF (timestamp : nat) (st : State) : State * list Effect :=
  match file st with
  | None => (st, [])
  | Some f =>
      let st1 := setIsProcessing true st in
      match processBody timestamp f st1 with
      | Some st2 => (setIsProcessing false st2, [])
      | None =>
          (setIsProcessing false st1,
           [ConsoleError "Error splitting PDF";
            Alert "Failed to process pages."])
      end
  end.

(** The [disabled] attribute of the button that calls [processPDF]. *)
Definition processDisabled (st : State) : bool :=
  isProcessing st
  || (Mode_eqb (mode st) custom
      && Nat.eqb (List.length (filter selected (pages st))) 0).

(** ** [loadPDF]: the page list it builds

    The loop over the pages [1 .. totalPages] pushes a preview for each page
    whose thumbnail could be rendered: [render i] is the thumbnail URL of page
    [i], or [None] when no canvas context or no blob was obtained. *)
Definition loadedPages (totalPages : nat) (render : nat -> option string)
  : list PagePreview :=
  flat_map (fun i => match render i with
                     | Some url => [mkPage (i - 1) url false]
                     | None => []
                     end)
           (seq 1 totalPages).

(** ** Decimal renderings *)

Definition isDigitAscii (c : ascii) : bool :=
  (Nat.leb 48 (nat_of_ascii c) && Nat.leb (nat_of_ascii c) 57)%bool.

Fixpoint digitString (s : string) : bool :=
  match s with
  | EmptyString => true
  | String c r => isDigitAscii c && digitString r
  end.

(** ** Range tokens written from numbers *)

(** The decimal digits of a natural number, as a JavaScript string. *)
Definition decimal (n : nat) : jsstring := js (toString n).

(** The token [a-b]. *)
Definition rangeToken (a b : nat) : jsstring := decimal a ++ dash :: decimal b.

(** The zero-based indices of the pages [lo .. hi] that exist among [n] pages
    (pages are numbered from 1), in ascending order. *)
Definition indexRange (lo hi n : nat) : NumberSet :=
  map of_nat (seq (Nat.max 1 lo - 1) (Nat.min n hi - (Nat.max 1 lo - 1))).

(** Where an element [x] of the parsed set comes from: a Number [v] that
    passed the guard [v > 0 && v <= pages.length], of which it is [v - 1]. *)
Definition pageOrigin (n : nat) (x v : number) : Prop :=
  lt zero v = true /\ le v (of_nat n) = true /\ x = sub v one.

(** A set without repeated elements, all of whose elements satisfy [P]. *)
Definition goodSet (P : number -> Prop) (s : NumberSet) : Prop :=
  NoDup s /\ forall x, In x s -> P x.

(** ** States used as examples

    A state with the finite chunk size [k] (at least 1). *)

Definition exampleState (f : option File) (ps : list PagePreview) (m : Mode)
  (o : OutputMode) (k : nat) (input : jsstring) : State :=
  mkState f ps m o (Pages (Pos.of_nat k)) false false input 100 None "".

(** ** Valid range strings

    The characters of a range specification: page numbers in decimal digits,
    commas between tokens, a dash inside a range, and white space. *)
Definition rangeChar (c : N) : bool :=
  isDigit c || isWhiteSpace c || (c =? comma)%N || (c =? dash)%N.

Definition validRangeString (s : jsstring) : bool := forallb rangeChar s.

(** A Number that is NaN, plus infinity, or a non-negative integer. *)
Definition integral (x : number) : Prop :=
  x = NaN \/ x = Inf false \/ exists z, 0 <= z /\ x = of_Z z.


(* ================================================================== *)
(** * The rest of the component *)
(* ================================================================== *)

(** ** More Number operations *)

(** [x * y]. *)
Definition mul (x y : number) : number :=
  match x, y with
  | NaN, _ | _, NaN => NaN
  | Inf a, Inf b => Inf (xorb a b)
  | Inf a, Fin k | Fin k, Inf a =>
      if k =? 0 then NaN else Inf (xorb a (k <? 0))
  | Fin a, Fin b =>
      round (xorb (a <? 0) (b <? 0)) (Z.abs a * Z.abs b) unit_scale
  end.

(** [Math.floor(x)]: the greatest integer not above [x]. *)
Definition Math_floor (x : number) : number :=
  match x with
  | Fin k => Fin (k / unit_scale * unit_scale)
  | _ => x
  end.

(** [Math.round(x)]: the nearest integer, a tie going up. *)
Definition Math_round (x : number) : number :=
  match x with
  | Fin k => Fin ((2 * k + unit_scale) / (2 * unit_scale) * unit_scale)
  | _ => x
  end.

(** A Number that is a non-negative integer, as a natural number. *)
Definition toNat (x : number) : nat :=
  match x with
  | Fin k => Z.to_nat (k / unit_scale)
  | _ => 0%nat
  end.

(** [x || d] on Numbers: [x] unless it is falsy (NaN or zero). *)
Definition orElse (x d : number) : number :=
  match x with
  | NaN => d
  | Inf _ => x
  | Fin k => if k =? 0 then d else x
  end.

(** ** [parseInt(string)] (no radix argument)

    Leading white space is skipped, then a sign, then a [0x] or [0X] prefix
    (which makes the radix 16); the digits that follow are read up to the
    first character that is not one, and no digit at all gives NaN. *)

Definition isRadixDigit (radix : Z) (c : N) : bool :=
  match digitValue radix c with
  | Some _ => true
  | None => false
  end.

Definition hexPrefix (t : jsstring) : Z * jsstring :=
  match t with
  | c0 :: c1 :: r =>
      if ((c0 =? 48) && ((c1 =? 120) || (c1 =? 88)))%N then (16, r)
      else (10, t)
  | _ => (10, t)
  end.

Definition parseInt (s : jsstring) : number :=
  let (negative, t) := signedPart (trimStart s) in
  let (radix, digits) := hexPrefix t in
  match fst (span (isRadixDigit radix) digits) with
  | [] => NaN
  | c :: z =>
      match digitsValue radix 0 (c :: z) with
      | Some v => round negative (v * unit_scale) 1
      | None => NaN
      end
  end.

(** The chunk size the input of the fixed mode stores for a typed text:
    [Math.max(1, parseInt(e.target.value) || 1)]. *)
Definition nextFixedRange (value : jsstring) : number :=
  max one (orElse (parseInt value) one).

(** The cell for a Number the handler stores. [nextFixedRange] gives integers
    of at least 1 and +Infinity only, and for those the cell holds the same
    Number ([nextFixedRange_cell] below); the other cases are never met. *)
Definition chunkSizeOf (x : number) : ChunkSize :=
  match x with
  | Fin z => Pages (Z.to_pos (z / unit_scale))
  | _ => Unbounded
  end.

(** The [onChange] handler of the chunk size input:
    [setFixedRange(Math.max(1, parseInt(e.target.value) || 1))]. *)
Definition changeFixedRange (value : jsstring) (st : State) : State :=
  mkState (file st) (pages st) (mode st) (outputMode st)
          (chunkSizeOf (nextFixedRange value))
          (isLoading st) (isProcessing st) (rangeInput st)
          (loadingProgress st) (resultUrl st) (resultFilename st).

(** A text the input can be given: 1 followed by 309 zeros, more than the
    greatest finite Number. *)
Definition hugeText : jsstring := (49 :: repeat 48 309)%N.

(** The badge of a page in fixed mode:
    [Math.floor(page.index / fixedRange) + 1]; a quotient by +Infinity is 0.
    For an index below 2^53 the quotient on Numbers has the floor of the
    exact one, whatever the cell holds ([groupLabel_as_Number] below). *)
Definition groupLabel (c : ChunkSize) (p : PagePreview) : nat :=
  match c with
  | Pages k => (index p / Pos.to_nat k + 1)%nat
  | Unbounded => 1%nat
  end.

(** ** The effect that discards the result

    [useEffect(() => { setResultUrl(null); }, [mode, outputMode, fixedRange,
    pages])] runs after every render in which one of the four is a new
    value. *)
Definition resetResult (st : State) : State :=
  mkState (file st) (pages st) (mode st) (outputMode st) (fixedRange st)
          (isLoading st) (isProcessing st) (rangeInput st)
          (loadingProgress st) None (resultFilename st).

(** A click on a thumbnail, with the render that follows. In custom mode
    [togglePageSelection] gives [setPages] the array [prev.map(..)], a new
    value of [pages] whatever the flags, so the effect runs; in fixed mode the
    handler returns at once, no cell is written and nothing is rendered. *)
Definition clickPage (i : nat) (st : State) : State :=
  if Mode_eqb (mode st) fixed then st
  else resetResult (togglePageSelection i st).

(** ** [loadPDF]

    What pdf.js makes of the chosen file: [None] when [getDocument] (or
    reading the file) throws, otherwise the page count and, for each page
    number, what becomes of its thumbnail. *)
Inductive Thumbnail : Type :=
| Rendered (url : string)
| Skipped
| RenderFails.

Record PdfJs : Type := mkPdfJs {
  numPages : nat;
  thumbnailOf : nat -> Thumbnail
}.

(** [Math.round((i / totalPages) * 100)]. *)
Definition progressAt (i totalPages : nat) : nat :=
  toNat (Math_round (mul (div (of_nat i) (of_nat totalPages)) (of_Z 100))).

(** The loop over the page numbers [todo]: the progress last set, and the
    previews pushed, or [None] when a page throws. [Rendered] is a page drawn
    on a canvas whose blob got the object URL [url]; [Skipped] a page without
    a 2d context or without a blob. *)
Fixpoint loadLoop (pdf : PdfJs) (todo : list nat)
  (newPages : list PagePreview) (progress : nat)
  : nat * option (list PagePreview) :=
  match todo with
  | [] => (progress, Some newPages)
  | i :: rest =>
      match thumbnailOf pdf i with
      | RenderFails => (progress, None)
      | Rendered url =>
          loadLoop pdf rest (newPages ++ [mkPage (i - 1) url false])
                   (progressAt i (numPages pdf))
      | Skipped =>
          loadLoop pdf rest newPages (progressAt i (numPages pdf))
      end
  end.

Definition loadPDF (f : File) (doc : option PdfJs) (st : State)
  : State * list Effect :=
  let loading progress ps :=
    mkState (Some f) ps (mode st) (outputMode st) (fixedRange st)
            false (isProcessing st) [] progress None (resultFilename st) in
  let failed progress :=
    (loading progress [],
     [ConsoleError "Error loading PDF"; Alert "Failed to load PDF pages."]) in
  match doc with
  | None => failed 0%nat
  | Some pdf =>
      match loadLoop pdf (seq 1 (numPages pdf)) [] 0 with
      | (progress, Some newPages) => (loading progress newPages, [])
      | (progress, None) => failed progress
      end
  end.

(** The thumbnails of [loadedPages], from what pdf.js made of each page. *)
Definition renderedUrl (pdf : PdfJs) (i : nat) : option string :=
  match thumbnailOf pdf i with
  | Rendered url => Some url
  | _ => None
  end.

(** ** The caller: navigation in [App] *)

Inductive View : Type :=
| DASHBOARD | QR_CODE | PDF_COMPRESS | PDF_MERGE | PDF_SPLIT
| PDF_WATERMARK | IMAGE_COMPRESS | URL_SHORTENER.

Definition View_eqb (a b : View) : bool :=
  match a, b with
  | DASHBOARD, DASHBOARD | QR_CODE, QR_CODE | PDF_COMPRESS, PDF_COMPRESS
  | PDF_MERGE, PDF_MERGE | PDF_SPLIT, PDF_SPLIT
  | PDF_WATERMARK, PDF_WATERMARK | IMAGE_COMPRESS, IMAGE_COMPRESS
  | URL_SHORTENER, URL_SHORTENER => true
  | _, _ => false
  end.

(** The cells of [App] that navigation touches, and the [recent_tools] item
    of the local storage ([None] while nothing was stored). *)
Record AppState : Type := mkApp {
  currentView : View;
  recentTools : list View;
  storedRecent : option (list View)
}.

(** [navigateTo]: the view is shown and, unless it is the dashboard, moved to
    the front of the recent tools, of which five are kept. *)
Definition navigateTo (view : View) (st : AppState) : AppState :=
  if View_eqb view DASHBOARD then
    mkApp view (recentTools st) (storedRecent st)
  else
    let newRecent :=
      firstn 5 (view :: filter (fun v => negb (View_eqb v view))
                               (recentTools st)) in
    mkApp view newRecent (Some newRecent).

(** [navigateTo] of each of [views] in turn. *)
Definition navigateAll (views : list View) (st : AppState) : AppState :=
  fold_left (fun s v => navigateTo v s) views st.

(** [App] once its first effect has run: on the dashboard, with the recent
    tools that were stored, if any. *)
Definition initApp (saved : option (list View)) : AppState :=
  mkApp DASHBOARD (match saved with Some l => l | None => [] end) saved.

(** What holds of the recent tools: no tool twice, at most five, never the
    dashboard, and the storage holds the same list once one was written. *)
Definition recentsOk (st : AppState) : Prop :=
  NoDup (recentTools st)
  /\ (length (recentTools st) <= 5)%nat
  /\ ~ In DASHBOARD (recentTools st)
  /\ (storedRecent st = Some (recentTools st)
      \/ storedRecent st = None /\ recentTools st = []).

(** ** Inputs on which the parser ends

    NaN or an integer from 0 below 2^53: between two such Numbers the loop
    [for (let i = start; i <= end; i++)] ends. *)
Definition smallIntegerOrNaN (v : number) : bool :=
  match v with
  | NaN => true
  | Inf _ => false
  | Fin k =>
      (0 <=? k) && (k <? 2 ^ 53 * unit_scale) && (k mod unit_scale =? 0)
  end.

(** A range input whose pieces all read as such Numbers. *)
Definition boundedInput (input : jsstring) : bool :=
  forallb (fun part =>
             forallb smallIntegerOrNaN (map Number (split dash (trim part))))
          (split comma input).

(** ** Helpers for statements *)

(** [selectedIndices.add] of each of [ys] in turn. *)
Definition addAll (ys : list number) (s : NumberSet) : NumberSet :=
  fold_left (fun acc y => add_elem y acc) ys s.

(** The flag [togglePageSelection i] gives a page. *)
Definition toggled (i : nat) (p : PagePreview) : PagePreview :=
  if Nat.eqb (index p) i then setSelected (negb (selected p)) p else p.

(** [pages.filter(p => p.selected).length], the number of selected pages. *)
Definition selectedCount (st : State) : nat :=
  length (filter selected (pages st)).

(** A document of [n] pages of which page [skip] gets no thumbnail and page
    [fail] throws (0 for none). *)
Definition examplePdf (n skip fail : nat) : PdfJs :=
  mkPdfJs n (fun i => if Nat.eqb i fail then RenderFails
                      else if Nat.eqb i skip then Skipped
                      else Rendered "u").
(* ================================================================== *)
(** * Properties of the fixed-size partition *)
(* ================================================================== *)

Lemma nth_fixedGroups (n k i : nat) :
  (i < chunkCount n k)%nat ->
  nth i (fixedGroups n k) [] = chunkIndices n k i.
Proof.
  intros Hi. unfold fixedGroups.
  rewrite (nth_indep _ [] (chunkIndices n k 0)) by now rewrite length_map, length_seq.
  rewrite (map_nth (chunkIndices n k)), seq_nth by exact Hi. reflexivity.
Qed.

Lemma In_chunkIndices (n k i j : nat) :
  In j (chunkIndices n k i) <-> (i * k <= j < Nat.min (i * k + k) n)%nat.
Proof.
  unfold chunkIndices, chunkEnd, chunkStart. rewrite in_seq. lia.
Qed.

Section FixedPartition.

Local Open Scope nat_scope.

Variables n k : nat.
Hypothesis k_pos : 1 <= k.

(** [chunkCount] is the ceiling of [n / k]: the least [c] with [n <= c * k]. *)
Lemma chunkCount_ceiling :
  n <= chunkCount n k * k /\ chunkCount n k * k < n + k.
Proof.
  unfold chunkCount.
  pose proof (Nat.div_mod_eq n k) as E.
  pose proof (Nat.mod_upper_bound n k ltac:(lia)) as B.
  destruct (Nat.eqb_spec (n mod k) 0) as [Z | NZ]; nia.
Qed.

Lemma chunk_nonempty i :
  i < chunkCount n k -> chunkStart k i < chunkEnd n k i.
Proof.
  intros Hi. destruct chunkCount_ceiling as [_ Hc].
  unfold chunkEnd, chunkStart. apply Nat.min_glb_lt; nia.
Qed.

(** The first [c] groups, laid end to end, are the first pages. *)
Lemma concat_chunks c :
  concat (map (chunkIndices n k) (seq 0 c)) = seq 0 (Nat.min (c * k) n).
Proof.
  induction c as [| c IH]; [reflexivity |].
  rewrite seq_S, map_app, concat_app, IH. cbn [map concat Nat.add].
  rewrite app_nil_r. unfold chunkIndices, chunkEnd, chunkStart.
  destruct (Nat.le_gt_cases (c * k) n) as [Hle | Hgt].
  - rewrite (Nat.min_l (c * k) n) by exact Hle.
    rewrite <- seq_app. f_equal. lia.
  - replace (Nat.min (c * k + k) n - c * k) with 0 by lia.
    rewrite app_nil_r. f_equal. lia.
Qed.

Lemma concat_fixedGroups : concat (fixedGroups n k) = seq 0 n.
Proof.
  unfold fixedGroups. rewrite concat_chunks.
  destruct chunkCount_ceiling as [Hc _]. f_equal. lia.
Qed.

End FixedPartition.

(** C2. The fixed-size partitioner does what the claim says for every finite
    chunk size ([process_fixed_chunk_sizes] and [process_fixed_archive]
    below), but not for every chunk size of at least 1 that the cell can
    hold: for the text 1 followed by 309 zeros the input of the fixed mode
    stores +Infinity, which is at least 1; [Math.ceil(3 / Infinity)] is 0, so
    for three pages the loop makes no group at all and the archive is empty,
    where the claim has one group of all pages. *)
Theorem unbounded_chunk_size_no_group :
  nextFixedRange hugeText = Inf false
  /\ le one (nextFixedRange hugeText) = true
  /\ fixedRange
       (changeFixedRange hugeText
          (exampleState (Some (mkFile (Some 3%nat)))
             [mkPage 0 "a" false; mkPage 1 "b" false; mkPage 2 "c" false]
             fixed single 1 []))
     = Unbounded
  /\ ceil (div (of_nat 3) (nextFixedRange hugeText)) = of_nat 0
  /\ processPDF 0
       (changeFixedRange hugeText
          (exampleState (Some (mkFile (Some 3%nat)))
             [mkPage 0 "a" false; mkPage 1 "b" false; mkPage 2 "c" false]
             fixed single 1 []))
     = (mkState (Some (mkFile (Some 3%nat)))
          [mkPage 0 "a" false; mkPage 1 "b" false; mkPage 2 "c" false]
          fixed single Unbounded false false [] 100
          (Some (ZipBlob [])) "split_fixed_0.zip", []).
Proof.
  assert (E : nextFixedRange hugeText = Inf false)
    by (vm_compute; reflexivity).
  split; [exact E |].
  split; [rewrite E; reflexivity |].
  split; [unfold changeFixedRange; cbn [fixedRange]; rewrite E; reflexivity |].
  split; [rewrite E; reflexivity |].
  unfold changeFixedRange. rewrite E. reflexivity.
Qed.

(* ================================================================== *)
(** * The range parser: fuel, determinism *)
(* ================================================================== *)

(** More fuel never changes a result already reached. *)
Lemma rangeLoop_mono fuel :
  forall len i e s r,
    rangeLoop fuel len i e s = Some r ->
    forall fuel', (fuel <= fuel')%nat -> rangeLoop fuel' len i e s = Some r.
Proof.
  induction fuel as [| fuel IH]; intros len i e s r H fuel' Hle;
    [discriminate |].
  destruct fuel' as [| fuel']; [lia |].
  cbn [rangeLoop] in *. destruct (le i e); [| exact H].
  apply IH with (fuel' := fuel') in H; [exact H | lia].
Qed.

Lemma applyPart_mono fuel fuel' len part s r :
  applyPart fuel len part s = Some r -> (fuel <= fuel')%nat ->
  applyPart fuel' len part s = Some r.
Proof.
  unfold applyPart. intros H Hle.
  destruct (map Number (split dash (trim part))) as [| a [| b [| c l]]];
    try exact H.
  destruct (negb (isNaN a) && negb (isNaN b)); [| exact H].
  eapply rangeLoop_mono; eassumption.
Qed.

Lemma forEachPart_mono fuel fuel' len parts :
  (fuel <= fuel')%nat ->
  forall s r, forEachPart fuel len parts s = Some r ->
              forEachPart fuel' len parts s = Some r.
Proof.
  intros Hle. induction parts as [| part rest IH]; intros s r H;
    [exact H |].
  cbn [forEachPart] in *.
  destruct (applyPart fuel len part s) as [s' |] eqn:E; [| discriminate].
  rewrite (applyPart_mono _ _ _ _ _ _ E Hle). apply IH. exact H.
Qed.

Lemma parseRange_mono fuel fuel' n input r :
  parseRange fuel n input = Some r -> (fuel <= fuel')%nat ->
  parseRange fuel' n input = Some r.
Proof. intros H Hle. eapply forEachPart_mono; eassumption. Qed.

(** The parse has at most one result. *)
Lemma parseRange_deterministic fuel fuel' n input r r' :
  parseRange fuel n input = Some r -> parseRange fuel' n input = Some r' ->
  r = r'.
Proof.
  intros H H'.
  apply parseRange_mono with (fuel' := Nat.max fuel fuel') in H; [| lia].
  apply parseRange_mono with (fuel' := Nat.max fuel fuel') in H'; [| lia].
  congruence.
Qed.

(** ** Worked inputs *)

(** C3 (as amended). Parsing "1-3, 5, 8" against a 10-page document yields
    exactly the zero-based index set {0, 1, 2, 4, 7}: page 5 is index 4. *)
Theorem parse_example_1_3_5_8 :
  forall fuel, (4 <= fuel)%nat ->
    parseRange fuel 10 (js "1-3, 5, 8")
    = Some [of_Z 0; of_Z 1; of_Z 2; of_Z 4; of_Z 7].
Proof.
  intros fuel Hfuel. apply parseRange_mono with (fuel := 4%nat); [| exact Hfuel].
  vm_compute. reflexivity.
Qed.

Lemma parse_example_1_3_5_8_witness :
  (4 <= 4)%nat /\
  parseRange 4 10 (js "1-3, 5, 8")
  = Some [of_Z 0; of_Z 1; of_Z 2; of_Z 4; of_Z 7].
Proof.
  split; [lia | apply (parse_example_1_3_5_8 4); lia].
Defined.

(** C3 as stated fails: no run of the parser on "1-3, 5, 8" over ten pages
    returns a set with the members of {0, 1, 2, 5, 7}. *)
Lemma parse_example_1_3_5_8_not_index_5 :
  ~ (exists fuel sel,
       parseRange fuel 10 (js "1-3, 5, 8") = Some sel
       /\ forall x, has x sel
                    = has x [of_Z 0; of_Z 1; of_Z 2; of_Z 5; of_Z 7]).
Proof.
  intros [fuel [sel [HS Hsame]]].
  assert (H4 : parseRange 4 10 (js "1-3, 5, 8")
               = Some [of_Z 0; of_Z 1; of_Z 2; of_Z 4; of_Z 7])
    by (vm_compute; reflexivity).
  rewrite (parseRange_deterministic _ _ _ _ _ _ HS H4) in Hsame.
  assert (Hno : has (of_Z 5) [of_Z 0; of_Z 1; of_Z 2; of_Z 4; of_Z 7] = false)
    by (vm_compute; reflexivity).
  assert (Hyes : has (of_Z 5) [of_Z 0; of_Z 1; of_Z 2; of_Z 5; of_Z 7] = true)
    by (vm_compute; reflexivity).
  pose proof (Hsame (of_Z 5)) as H5. rewrite Hno, Hyes in H5.
  discriminate H5.
Qed.

(* ================================================================== *)
(** * [Number] on sample literals *)
(* ================================================================== *)

(** Integers, radix prefixes, exponents, the empty string, and strings outside
    the grammar. *)
Example Number_samples :
  Number (js "12") = of_Z 12
  /\ Number (js " 0x1F ") = of_Z 31
  /\ Number (js "1e3") = of_Z 1000
  /\ Number (js "") = of_Z 0
  /\ Number (js "   ") = of_Z 0
  /\ Number (js "5.") = of_Z 5
  /\ Number (js "abc") = NaN
  /\ Number (js ".") = NaN
  /\ Number (js "1_000") = NaN
  /\ Number (js "Infinity") = Inf false.
Proof.
  repeat (split; [vm_compute; reflexivity |]). vm_compute; reflexivity.
Qed.

(** Rounding: 0.1 is 0x1.999999999999ap-4; 2^53 + 1 rounds to 2^53 and
    2^53 + 3 to 2^53 + 4 (ties to even); the largest finite Number and the
    overflow to infinity just above it; the smallest subnormal and the
    underflow to zero below its half. *)
Example Number_rounding :
  Number (js "0.1") = Fin (7205759403792794 * 2 ^ 1018)
  /\ Number (js "9007199254740993") = of_Z 9007199254740992
  /\ Number (js "9007199254740995") = of_Z 9007199254740996
  /\ Number (js "1.7976931348623157e308") = Fin ((2 ^ 53 - 1) * 2 ^ 2045)
  /\ Number (js "1.7976931348623159e308") = Inf false
  /\ Number (js "5e-324") = Fin 1
  /\ Number (js "2e-324") = Fin 0.
Proof.
  repeat (split; [vm_compute; reflexivity |]). vm_compute; reflexivity.
Qed.

(* ================================================================== *)
(** * Arithmetic of Numbers on integers *)
(* ================================================================== *)

Lemma unit_scale_eq : unit_scale = 2 ^ 1074.
Proof. reflexivity. Qed.

Lemma unit_scale_pos : 0 < unit_scale.
Proof. rewrite unit_scale_eq. apply Z.pow_pos_nonneg; lia. Qed.

#[local] Opaque unit_scale.

Lemma sameValueZero_eq x y : sameValueZero x y = true <-> x = y.
Proof.
  destruct x as [| a | a], y as [| b | b]; cbn;
    try (split; [discriminate | discriminate]);
    try (split; [reflexivity | reflexivity]).
  - rewrite Bool.eqb_true_iff. split; congruence.
  - rewrite Z.eqb_eq. split; congruence.
Qed.

Lemma has_In x s : has x s = true <-> In x s.
Proof.
  unfold has. rewrite existsb_exists. split.
  - intros [y [Hy E]]. apply sameValueZero_eq in E. now subst.
  - intros H. exists x. split; [exact H | now apply sameValueZero_eq].
Qed.

Lemma has_false_notin x s : has x s = false <-> ~ In x s.
Proof.
  rewrite <- has_In. destruct (has x s); split; congruence.
Qed.

Lemma In_add_elem y x s : In y (add_elem x s) <-> In y s \/ y = x.
Proof.
  unfold add_elem. destruct (has x s) eqn:E.
  - apply has_In in E. split; [tauto | intros [H | ->]; assumption].
  - rewrite in_app_iff. cbn. intuition congruence.
Qed.

Lemma NoDup_add_elem x s : NoDup s -> NoDup (add_elem x s).
Proof.
  intros H. unfold add_elem. destruct (has x s) eqn:E; [exact H |].
  apply has_false_notin in E.
  apply NoDup_app; [exact H | repeat constructor; intros [] |].
  intros y Hy [<- | []]. exact (E Hy).
Qed.

(** ** Rounding *)

Lemma round_half_even_exact a d :
  0 < d -> a mod d = 0 -> round_half_even a d * d = a.
Proof.
  intros Hd Hmod. unfold round_half_even. rewrite Hmod.
  replace (2 * 0 ?= d) with Lt by (symmetry; apply Z.compare_lt_iff; lia).
  pose proof (Z.div_mod a d ltac:(lia)). lia.
Qed.

Lemma round_half_even_range a d :
  0 < d -> a / d <= round_half_even a d <= a / d + 1.
Proof.
  intros Hd. unfold round_half_even.
  destruct (2 * (a mod d) ?= d); [destruct (Z.even (a / d)) | |]; lia.
Qed.

(** Rounding to the nearest integer never crosses an integer. *)
Lemma round_half_even_le a d b :
  0 < d -> a <= b * d -> round_half_even a d <= b.
Proof.
  intros Hd Hab.
  pose proof (round_half_even_range a d Hd) as [_ Hup].
  pose proof (Z.div_mod a d ltac:(lia)) as Hdm.
  pose proof (Z.mod_pos_bound a d Hd) as Hm.
  destruct (Z.lt_ge_cases (a / d) b) as [Hlt | Hge]; [lia |].
  assert (Hq : a / d = b) by nia.
  assert (Hzero : a mod d = 0) by nia.
  unfold round_half_even. rewrite Hzero.
  replace (2 * 0 ?= d) with Lt by (symmetry; apply Z.compare_lt_iff; lia).
  lia.
Qed.

Lemma round_half_even_nonneg a d :
  0 <= a -> 0 < d -> 0 <= round_half_even a d.
Proof.
  intros Ha Hd. pose proof (round_half_even_range a d Hd) as [Hlo _].
  pose proof (Z.div_pos a d Ha Hd). lia.
Qed.

(** The exponent of the last place of a magnitude below 2^53 (in units of
    2^-1074 below [2^53 * unit_scale]) is at most 1074: integers in that range
    are multiples of the last place. *)
Lemma last_place_bound a :
  0 <= a < 2 ^ 53 * unit_scale ->
  0 <= Z.max 0 (Z.log2 a - 52) <= 1074.
Proof.
  intros [Ha Hlt]. split; [lia |].
  apply Z.max_lub; [lia |].
  destruct (Z.eq_dec a 0) as [-> | Hne]; [cbn; lia |].
  assert (Hlog : Z.log2 a < 1127).
  { apply Z.log2_lt_pow2; [lia |].
    rewrite unit_scale_eq, <- Z.pow_add_r in Hlt by lia. exact Hlt. }
  lia.
Qed.

Lemma unit_scale_split s :
  0 <= s <= 1074 -> unit_scale = 2 ^ (1074 - s) * 2 ^ s.
Proof.
  intros Hs. rewrite unit_scale_eq, <- Z.pow_add_r by lia. f_equal. lia.
Qed.

Lemma below_overflow c :
  0 <= c <= 2 ^ 53 -> c * unit_scale < 2 ^ 2098.
Proof.
  intros Hc. pose proof unit_scale_pos.
  apply Z.le_lt_trans with (2 ^ 53 * unit_scale); [nia |].
  rewrite unit_scale_eq, <- Z.pow_add_r by lia.
  apply Z.pow_lt_mono_r; lia.
Qed.

(** Rounding a magnitude of at most [c] (an integer below 2^53) gives a
    finite Number of magnitude at most [c]. *)
Lemma round_le negative a c :
  0 <= a <= c * unit_scale -> 0 <= c < 2 ^ 53 ->
  exists r, round negative a 1 = Fin (if negative then - r else r)
            /\ 0 <= r <= c * unit_scale.
Proof.
  intros [Ha Hac] Hc. pose proof unit_scale_pos as HU.
  unfold round. rewrite Z.div_1_r, Z.mul_1_l.
  set (s := Z.max 0 (Z.log2 a - 52)).
  assert (Hs : 0 <= s <= 1074) by (apply last_place_bound; nia).
  assert (Hp : 0 < 2 ^ s) by (apply Z.pow_pos_nonneg; lia).
  set (k := round_half_even a (2 ^ s) * 2 ^ s).
  assert (Hk : 0 <= k <= c * unit_scale).
  { unfold k. split.
    - pose proof (round_half_even_nonneg a (2 ^ s) Ha Hp). nia.
    - rewrite (unit_scale_split s Hs), Z.mul_assoc.
      apply Z.mul_le_mono_nonneg_r; [lia |].
      apply round_half_even_le; [exact Hp |].
      rewrite <- Z.mul_assoc, <- (unit_scale_split s Hs). exact Hac. }
  pose proof (below_overflow c ltac:(lia)) as Hov.
  replace (2 ^ 2098 <=? k) with false by (symmetry; apply Z.leb_gt; lia).
  exists k. split; [reflexivity | exact Hk].
Qed.

(** Integers up to 2^53 are Numbers: rounding leaves them as they are. *)
Lemma round_exact negative m :
  0 <= m <= 2 ^ 53 ->
  round negative (m * unit_scale) 1
  = Fin (if negative then - (m * unit_scale) else m * unit_scale).
Proof.
  intros Hm. pose proof unit_scale_pos as HU.
  destruct (Z.eq_dec m (2 ^ 53)) as [-> | Hne].
  { rewrite unit_scale_eq. destruct negative; vm_compute; reflexivity. }
  unfold round. rewrite Z.div_1_r, Z.mul_1_l.
  set (s := Z.max 0 (Z.log2 (m * unit_scale) - 52)).
  assert (Hs : 0 <= s <= 1074) by (apply last_place_bound; nia).
  assert (Hp : 0 < 2 ^ s) by (apply Z.pow_pos_nonneg; lia).
  assert (Hmod : (m * unit_scale) mod 2 ^ s = 0).
  { rewrite (unit_scale_split s Hs), Z.mul_assoc. apply Z.mod_mul. lia. }
  rewrite (round_half_even_exact _ _ Hp Hmod).
  pose proof (below_overflow m ltac:(lia)) as Hov.
  replace (2 ^ 2098 <=? m * unit_scale) with false
    by (symmetry; apply Z.leb_gt; lia).
  reflexivity.
Qed.

Lemma round_Z_exact z :
  - 2 ^ 53 <= z <= 2 ^ 53 -> round_Z (z * unit_scale) = of_Z z.
Proof.
  intros Hz. pose proof unit_scale_pos as HU. unfold round_Z, of_Z.
  destruct (Z.ltb_spec (z * unit_scale) 0) as [Hneg | Hpos].
  - replace (Z.abs (z * unit_scale)) with ((- z) * unit_scale) by nia.
    rewrite round_exact by nia. f_equal. lia.
  - rewrite Z.abs_eq by lia. rewrite round_exact by nia. reflexivity.
Qed.

(** ** [x - 1], [x + 1] and comparisons on integers *)

Lemma of_Z_injective z z' : of_Z z = of_Z z' -> z = z'.
Proof.
  unfold of_Z. intros E. injection E as E.
  pose proof unit_scale_pos. nia.
Qed.

Lemma of_nat_injective n m : of_nat n = of_nat m -> n = m.
Proof. unfold of_nat. intros E. apply of_Z_injective in E. lia. Qed.

Lemma lt_of_Z z z' : lt (of_Z z) (of_Z z') = (z <? z').
Proof.
  cbn. pose proof unit_scale_pos.
  destruct (Z.ltb_spec z z'), (Z.ltb_spec (z * unit_scale) (z' * unit_scale));
    try reflexivity; nia.
Qed.

Lemma le_of_Z z z' : le (of_Z z) (of_Z z') = (z <=? z').
Proof.
  cbn. pose proof unit_scale_pos.
  destruct (Z.leb_spec z z'), (Z.leb_spec (z * unit_scale) (z' * unit_scale));
    try reflexivity; nia.
Qed.

Lemma sub_one_of_Z z :
  - 2 ^ 53 < z <= 2 ^ 53 -> sub (of_Z z) one = of_Z (z - 1).
Proof.
  intros Hz. unfold sub, one, of_Z. cbn [neg add].
  replace (z * unit_scale + - (1 * unit_scale)) with ((z - 1) * unit_scale)
    by lia.
  apply round_Z_exact. lia.
Qed.

Lemma add_one_of_Z z :
  - 2 ^ 53 <= z < 2 ^ 53 -> add (of_Z z) one = of_Z (z + 1).
Proof.
  intros Hz. unfold one, of_Z. cbn [add].
  replace (z * unit_scale + 1 * unit_scale) with ((z + 1) * unit_scale)
    by lia.
  apply round_Z_exact. lia.
Qed.

Lemma le_of_nat n m : le (of_nat n) (of_nat m) = (n <=? m)%nat.
Proof.
  unfold of_nat. rewrite le_of_Z.
  destruct (Z.leb_spec (Z.of_nat n) (Z.of_nat m)), (Nat.leb_spec n m);
    try reflexivity; lia.
Qed.

Lemma lt_zero_of_nat n : lt zero (of_nat n) = (0 <? n)%nat.
Proof.
  unfold zero, of_nat. rewrite lt_of_Z.
  destruct (Z.ltb_spec 0 (Z.of_nat n)), (Nat.ltb_spec 0 n);
    try reflexivity; lia.
Qed.

Lemma add_one_of_nat n :
  Z.of_nat n < 2 ^ 53 -> add (of_nat n) one = of_nat (S n).
Proof.
  intros Hn. unfold of_nat. rewrite add_one_of_Z by lia. f_equal. lia.
Qed.

Lemma sub_one_of_nat n :
  (1 <= n)%nat -> Z.of_nat n <= 2 ^ 53 ->
  sub (of_nat n) one = of_nat (n - 1).
Proof.
  intros Hpos Hn. unfold of_nat. rewrite sub_one_of_Z by lia. f_equal. lia.
Qed.

(* ================================================================== *)
(** * [Math.ceil(pages.length / fixedRange)] on Numbers *)
(* ================================================================== *)

(** Scaling numerator and denominator does not change the rounding. *)
Lemma round_half_even_scale a d c :
  0 < d -> 0 < c -> round_half_even (a * c) (d * c) = round_half_even a d.
Proof.
  intros Hd Hc. unfold round_half_even.
  rewrite Z.div_mul_cancel_r by lia.
  rewrite Z.mul_mod_distr_r by lia.
  replace (2 * (a mod d * c) ?= d * c) with (2 * (a mod d) ?= d);
    [reflexivity |].
  destruct (Z.compare_spec (2 * (a mod d)) d) as [E | L | G]; symmetry.
  - apply Z.compare_eq_iff. nia.
  - apply Z.compare_lt_iff. nia.
  - apply Z.compare_gt_iff. nia.
Qed.

Lemma round_scale negative a c :
  0 < c -> round negative (a * c) c = round negative a 1.
Proof.
  intros Hc. unfold round. rewrite Z.div_mul by lia.
  rewrite Z.div_1_r, Z.mul_1_l.
  rewrite (Z.mul_comm c (2 ^ _)), round_half_even_scale;
    [reflexivity | apply Z.pow_pos_nonneg; lia | exact Hc].
Qed.

Lemma pow_53_lt_unit_scale : 2 ^ 53 < unit_scale.
Proof. rewrite unit_scale_eq. apply Z.pow_lt_mono_r; lia. Qed.

(** The quotient of two integers below 2^53, when it is not an integer, is
    rounded to a Number strictly between its floor and the next integer. *)
Lemma round_quotient_between n k :
  0 < k < 2 ^ 53 -> 0 <= n < 2 ^ 53 -> n mod k <> 0 ->
  exists r, round false (n * unit_scale * unit_scale) (k * unit_scale) = Fin r
            /\ n / k * unit_scale < r <= (n / k + 1) * unit_scale.
Proof.
  intros Hk Hn Hrem. pose proof unit_scale_pos as HU.
  pose proof (Z.div_mod n k ltac:(lia)) as Hdm.
  pose proof (Z.mod_pos_bound n k ltac:(lia)) as Hmod.
  set (m := n / k) in *. set (rem := n mod k) in *.
  assert (Hm : 0 <= m) by (apply Z.div_pos; lia).
  assert (Hmn : m <= n) by nia.
  unfold round.
  replace (n * unit_scale * unit_scale / (k * unit_scale))
    with (n * unit_scale / k)
    by (symmetry; apply Z.div_mul_cancel_r; lia).
  set (q := n * unit_scale / k).
  assert (Hq : 0 <= q) by (apply Z.div_pos; nia).
  assert (Hqk : q * k <= n * unit_scale).
  { pose proof (Z.mul_div_le (n * unit_scale) k ltac:(lia)). unfold q. lia. }
  assert (Hqlt : q < 2 ^ 53 * unit_scale).
  { apply Z.le_lt_trans with (n * unit_scale); nia. }
  pose proof (last_place_bound q ltac:(lia)) as Hs.
  remember (Z.max 0 (Z.log2 q - 52)) as s eqn:Es.
  assert (Hp : 0 < 2 ^ s) by (apply Z.pow_pos_nonneg; lia).
  pose proof (unit_scale_split s Hs) as Hsplit.
  remember (2 ^ (1074 - s)) as t eqn:Et.
  assert (Ht : 0 < t) by (subst t; apply Z.pow_pos_nonneg; lia).
  (* the last place is small against the divisor *)
  assert (Hsmall : k * 2 ^ s < 2 * unit_scale).
  { destruct (Z.eq_dec s 0) as [Hs0 | Hs0].
    - rewrite Hs0, Z.pow_0_r. pose proof pow_53_lt_unit_scale. lia.
    - assert (Hlarge : 52 < Z.log2 q) by lia.
      assert (Hqpos : 0 < q).
      { destruct (Z.lt_ge_cases 0 q) as [Hpos | Hnonpos]; [exact Hpos |].
        rewrite (Z.log2_nonpos q) in Hlarge by lia. lia. }
      pose proof (Z.log2_spec q Hqpos) as [Hlog _].
      assert (H52 : 2 ^ Z.log2 q = 2 ^ 52 * 2 ^ s).
      { rewrite <- Z.pow_add_r by lia. f_equal. lia. }
      assert (Hpow : 2 ^ 53 = 2 * 2 ^ 52) by reflexivity.
      assert (H52pos : 0 < 2 ^ 52) by (apply Z.pow_pos_nonneg; lia).
      nia. }
  set (d := k * unit_scale * 2 ^ s).
  assert (Hd : 0 < d) by (unfold d; nia).
  set (a := n * unit_scale * unit_scale).
  (* upper bound: the rounding does not pass (m + 1) *)
  assert (Hup : round_half_even a d <= (m + 1) * t).
  { apply round_half_even_le; [exact Hd |]. unfold a, d.
    rewrite Hsplit at 1. nia. }
  (* lower bound: it passes m *)
  assert (Hlow : m * t + 1 <= round_half_even a d).
  { assert (Ha : a = m * t * d + rem * unit_scale * unit_scale).
    { unfold a, d. rewrite Hsplit at 1. nia. }
    pose proof (round_half_even_range a d Hd) as [Hfloor _].
    assert (Hdiv : m * t <= a / d).
    { apply Z.div_le_lower_bound; [exact Hd |]. nia. }
    destruct (Z.le_gt_cases (m * t + 1) (a / d)) as [Hbig | Heq]; [lia |].
    assert (Had : a / d = m * t) by lia.
    assert (Hamod : a mod d = rem * unit_scale * unit_scale).
    { pose proof (Z.div_mod a d ltac:(lia)). nia. }
    unfold round_half_even. rewrite Had, Hamod.
    assert (Hhalf : d < 2 * (rem * unit_scale * unit_scale)).
    { assert (H1 : k * 2 ^ s * unit_scale < 2 * unit_scale * unit_scale)
        by (apply Z.mul_lt_mono_pos_r; lia).
      assert (H2 : 1 * (unit_scale * unit_scale)
                   <= rem * (unit_scale * unit_scale))
        by (apply Z.mul_le_mono_nonneg_r; nia).
      unfold d. lia. }
    replace (2 * (rem * unit_scale * unit_scale) ?= d) with Gt
      by (symmetry; apply Z.compare_gt_iff; lia).
    lia. }
  set (r := round_half_even a d * 2 ^ s).
  assert (Hr : m * unit_scale < r <= (m + 1) * unit_scale).
  { unfold r. rewrite Hsplit. nia. }
  pose proof (below_overflow (m + 1) ltac:(lia)) as Hov.
  replace (2 ^ 2098 <=? r) with false by (symmetry; apply Z.leb_gt; lia).
  exists r. split; [reflexivity | exact Hr].
Qed.

(** On Numbers, [Math.ceil(n / k)] for a page count [n] and a chunk size [k]
    below 2^53 is [chunkCount n k]. *)
Lemma chunkCount_as_Number n k :
  (1 <= k)%nat -> Z.of_nat n < 2 ^ 53 -> Z.of_nat k < 2 ^ 53 ->
  ceil (div (of_nat n) (of_nat k)) = of_nat (chunkCount n k).
Proof.
  intros Hk Hn Hk53. pose proof unit_scale_pos as HU.
  unfold of_nat at 1 2. unfold of_Z. cbn [div].
  replace (Z.of_nat k * unit_scale =? 0) with false
    by (symmetry; apply Z.eqb_neq; nia).
  replace (Z.of_nat n * unit_scale <? 0) with false
    by (symmetry; apply Z.ltb_ge; nia).
  replace (Z.of_nat k * unit_scale <? 0) with false
    by (symmetry; apply Z.ltb_ge; nia).
  cbn [xorb]. rewrite !Z.abs_eq by nia.
  unfold chunkCount.
  pose proof (Nat.div_mod_eq n k) as Hdm.
  pose proof (Nat.mod_upper_bound n k ltac:(lia)) as Hmod.
  destruct (Nat.eqb_spec (n mod k) 0) as [Hzero | Hrem].
  - replace (Z.of_nat n * unit_scale * unit_scale)
      with (Z.of_nat (n / k) * unit_scale * (Z.of_nat k * unit_scale))
      by nia.
    rewrite round_scale by nia. rewrite round_exact by nia.
    unfold ceil, of_nat, of_Z. f_equal.
    rewrite <- Z.mul_opp_l, Z.div_mul by lia. lia.
  - destruct (round_quotient_between (Z.of_nat n) (Z.of_nat k))
      as [r [-> Hr]]; [lia | lia | |].
    + rewrite <- Nat2Z.inj_mod. lia.
    + rewrite <- Nat2Z.inj_div in Hr.
      unfold ceil, of_nat, of_Z. f_equal.
      assert (Hq : - r / unit_scale = - (Z.of_nat (n / k) + 1)).
      { symmetry. apply Z.div_unique with
          (r := (Z.of_nat (n / k) + 1) * unit_scale - r); lia. }
      rewrite Hq. lia.
Qed.

(** The quotient of an integer below 2^53 by a greater finite Number is
    rounded to a Number below 1, which is 0 for the integer 0 only. *)
Lemma round_quotient_small n k :
  0 <= n < 2 ^ 53 -> 2 ^ 53 <= k < 2 ^ 1024 ->
  exists r, round false (n * unit_scale * unit_scale) (k * unit_scale) = Fin r
            /\ 0 <= r < unit_scale /\ (1 <= n -> 0 < r) /\ (n = 0 -> r = 0).
Proof.
  intros Hn Hk. pose proof unit_scale_pos as HU.
  assert (H53 : 0 < 2 ^ 53) by (apply Z.pow_pos_nonneg; lia).
  set (P := 2 ^ 1021).
  assert (HP : 0 < P) by (apply Z.pow_pos_nonneg; lia).
  assert (HUP : unit_scale = 2 ^ 53 * P)
    by (unfold P; rewrite unit_scale_eq, <- Z.pow_add_r by lia; reflexivity).
  assert (HkU : k < unit_scale).
  { apply Z.lt_trans with (2 ^ 1024); [lia |].
    rewrite unit_scale_eq. apply Z.pow_lt_mono_r; lia. }
  unfold round.
  replace (n * unit_scale * unit_scale / (k * unit_scale))
    with (n * unit_scale / k)
    by (symmetry; apply Z.div_mul_cancel_r; lia).
  set (q := n * unit_scale / k).
  assert (Hq : 0 <= q) by (apply Z.div_pos; nia).
  assert (Hqk : q * k <= n * unit_scale).
  { pose proof (Z.mul_div_le (n * unit_scale) k ltac:(lia)). unfold q. lia. }
  assert (HqU : q < unit_scale).
  { apply Z.div_lt_upper_bound; [lia |]. nia. }
  remember (Z.max 0 (Z.log2 q - 52)) as s eqn:Es.
  assert (Hs : 0 <= s <= 1021).
  { split; [lia |]. destruct (Z.eq_dec q 0) as [E0 | Hne].
    - rewrite E0 in Es. cbn in Es. lia.
    - assert (Hlog : Z.log2 q < 1074).
      { apply Z.log2_lt_pow2; [lia |]. now rewrite <- unit_scale_eq. }
      lia. }
  assert (Hp : 0 < 2 ^ s) by (apply Z.pow_pos_nonneg; lia).
  assert (HPs : P = 2 ^ (1021 - s) * 2 ^ s)
    by (unfold P; rewrite <- Z.pow_add_r by lia; f_equal; lia).
  remember (2 ^ (1021 - s)) as t eqn:Et.
  assert (Ht : 0 < t) by (subst t; apply Z.pow_pos_nonneg; lia).
  set (d := k * unit_scale * 2 ^ s).
  assert (Hd : 0 < d) by (unfold d; nia).
  set (a := n * unit_scale * unit_scale).
  assert (Ha : 0 <= a) by (unfold a; nia).
  (* the rounding stays at or below the Number before 1 *)
  assert (Hup : round_half_even a d <= (2 ^ 53 - 1) * t).
  { apply round_half_even_le; [exact Hd |]. unfold a, d.
    assert (H1 : n * 2 ^ 53 <= (2 ^ 53 - 1) * k) by nia.
    assert (H2 : n * unit_scale <= (2 ^ 53 - 1) * P * k).
    { rewrite HUP.
      replace (n * (2 ^ 53 * P)) with (n * 2 ^ 53 * P) by lia.
      replace ((2 ^ 53 - 1) * P * k) with ((2 ^ 53 - 1) * k * P) by lia.
      apply Z.mul_le_mono_nonneg_r; lia. }
    replace ((2 ^ 53 - 1) * t * (k * unit_scale * 2 ^ s))
      with ((2 ^ 53 - 1) * (t * 2 ^ s) * k * unit_scale) by lia.
    rewrite <- HPs.
    apply Z.mul_le_mono_nonneg_r; [lia | exact H2]. }
  pose proof (round_half_even_nonneg a d Ha Hd) as Hlow.
  set (r := round_half_even a d * 2 ^ s).
  assert (Hr : 0 <= r <= (2 ^ 53 - 1) * P).
  { unfold r. split; [nia |].
    replace ((2 ^ 53 - 1) * P) with ((2 ^ 53 - 1) * t * 2 ^ s)
      by (rewrite HPs; lia).
    apply Z.mul_le_mono_nonneg_r; lia. }
  assert (HrU : r < unit_scale) by (rewrite HUP; lia).
  assert (Hov : unit_scale < 2 ^ 2098)
    by (rewrite unit_scale_eq; apply Z.pow_lt_mono_r; lia).
  replace (2 ^ 2098 <=? r) with false by (symmetry; apply Z.leb_gt; lia).
  exists r. split; [reflexivity |]. split; [lia |]. split.
  - intros Hn1.
    assert (Hone : 1 <= round_half_even a d).
    { pose proof (round_half_even_range a d Hd) as [Hfloor _].
      assert (Hdiv : 1 <= a / d).
      { apply Z.div_le_lower_bound; [exact Hd |]. unfold a, d.
        assert (Hks : k * 2 ^ s <= n * unit_scale).
        { destruct (Z.eq_dec s 0) as [Hs0 | Hs0].
          - rewrite Hs0, Z.pow_0_r. nia.
          - assert (Hlarge : 52 < Z.log2 q) by lia.
            assert (Hqpos : 0 < q).
            { destruct (Z.lt_ge_cases 0 q) as [Hpos | Hnonpos];
                [exact Hpos |].
              rewrite (Z.log2_nonpos q) in Hlarge by lia. lia. }
            pose proof (Z.log2_spec q Hqpos) as [Hlog _].
            assert (Hsq : 2 ^ s <= 2 ^ Z.log2 q)
              by (apply Z.pow_le_mono_r; lia).
            nia. }
        replace (k * unit_scale * 2 ^ s * 1)
          with (k * 2 ^ s * unit_scale) by lia.
        apply Z.mul_le_mono_nonneg_r; lia. }
      lia. }
    unfold r. nia.
  - intros Hn0. unfold r.
    assert (Hzero : round_half_even a d <= 0).
    { apply round_half_even_le; [exact Hd |]. unfold a. rewrite Hn0. lia. }
    nia.
Qed.

(** On Numbers, [Math.ceil(n / fixedRange)] for a page count below 2^53 is
    [chunkCountOf n c], whatever Number the cell holds. *)
Lemma chunkCountOf_as_Number n c :
  Z.of_nat n < 2 ^ 53 -> isNumber c ->
  ceil (div (of_nat n) (numberOf c)) = of_nat (chunkCountOf n c).
Proof.
  intros Hn Hc. pose proof unit_scale_pos as HU.
  destruct c as [k |]; cbn [numberOf chunkCountOf isNumber] in *.
  - destruct (Z.lt_ge_cases (Z.pos k) (2 ^ 53)) as [Hsmall | Hbig].
    + rewrite <- (positive_nat_Z k) in *.
      apply chunkCount_as_Number; [| exact Hn | exact Hsmall].
      pose proof (Pos2Nat.is_pos k). lia.
    + unfold of_nat at 1. unfold of_Z. cbn [div].
      replace (Z.pos k * unit_scale =? 0) with false
        by (symmetry; apply Z.eqb_neq; nia).
      replace (Z.of_nat n * unit_scale <? 0) with false
        by (symmetry; apply Z.ltb_ge; nia).
      replace (Z.pos k * unit_scale <? 0) with false
        by (symmetry; apply Z.ltb_ge; nia).
      cbn [xorb]. rewrite !Z.abs_eq by nia.
      destruct (round_quotient_small (Z.of_nat n) (Z.pos k))
        as [r [-> [Hr [Hpos Hzero]]]]; [lia | lia |].
      assert (Hlt : (n < Pos.to_nat k)%nat) by lia.
      unfold chunkCount. rewrite (Nat.mod_small n _ Hlt).
      rewrite (Nat.div_small n _ Hlt).
      unfold ceil, of_nat, of_Z. f_equal.
      destruct (Nat.eqb_spec n 0) as [E0 | Hne].
      * rewrite Hzero by lia. cbn [Z.opp]. rewrite Z.div_0_l by lia.
        reflexivity.
      * assert (Hq : - r / unit_scale = - 1).
        { symmetry. apply Z.div_unique with (r := unit_scale - r); lia. }
        rewrite Hq. reflexivity.
  - unfold of_nat, of_Z. cbn [div ceil]. cbn [Z.opp].
    rewrite Z.div_0_l by lia. reflexivity.
Qed.

(** A magnitude of at least 2^53 is rounded to a Number of at least 2^53. *)
Lemma round_large m :
  2 ^ 53 <= m ->
  round false (m * unit_scale) 1 = Inf false
  \/ exists r, 2 ^ 53 * unit_scale <= r
               /\ round false (m * unit_scale) 1 = Fin r.
Proof.
  intros Hm. pose proof unit_scale_pos as HU.
  assert (H53 : 0 < 2 ^ 53) by (apply Z.pow_pos_nonneg; lia).
  unfold round. rewrite Z.div_1_r, Z.mul_1_l.
  set (a := m * unit_scale).
  assert (Hpow : 2 ^ 1127 = 2 ^ 53 * unit_scale)
    by (rewrite unit_scale_eq, <- Z.pow_add_r by lia; reflexivity).
  assert (Ha : 2 ^ 1127 <= a) by (rewrite Hpow; unfold a; nia).
  assert (Hapos : 0 < a)
    by (assert (0 < 2 ^ 1127) by (apply Z.pow_pos_nonneg; lia); lia).
  assert (Hlog : 1127 <= Z.log2 a) by (apply Z.log2_le_pow2; lia).
  pose proof (Z.log2_spec a Hapos) as [Hlo _].
  remember (Z.max 0 (Z.log2 a - 52)) as s eqn:Es.
  assert (Hs : s = Z.log2 a - 52) by lia.
  assert (Hp : 0 < 2 ^ s) by (apply Z.pow_pos_nonneg; lia).
  assert (Hsplit : 2 ^ Z.log2 a = 2 ^ 52 * 2 ^ s)
    by (rewrite <- Z.pow_add_r by lia; f_equal; lia).
  assert (H52 : 0 < 2 ^ 52) by (apply Z.pow_pos_nonneg; lia).
  assert (Hq : 2 ^ 52 <= round_half_even a (2 ^ s)).
  { pose proof (round_half_even_range a (2 ^ s) Hp) as [Hfloor _].
    assert (Hdiv : 2 ^ 52 <= a / 2 ^ s)
      by (apply Z.div_le_lower_bound; [exact Hp | lia]).
    lia. }
  destruct (2 ^ 2098 <=? round_half_even a (2 ^ s) * 2 ^ s);
    [now left | right].
  eexists. split; [| reflexivity].
  rewrite <- Hpow.
  apply Z.le_trans with (2 ^ Z.log2 a);
    [apply Z.pow_le_mono_r; lia |].
  rewrite Hsplit. apply Z.mul_le_mono_nonneg_r; lia.
Qed.

Lemma sub_of_nat e s :
  (s <= e)%nat -> Z.of_nat e < 2 ^ 53 ->
  sub (of_nat e) (of_nat s) = of_nat (e - s).
Proof.
  intros Hse He. unfold sub, of_nat, of_Z. cbn [neg add].
  replace (Z.of_nat e * unit_scale + - (Z.of_nat s * unit_scale))
    with (Z.of_nat (e - s) * unit_scale)
    by (rewrite Nat2Z.inj_sub by lia; ring).
  apply round_Z_exact. lia.
Qed.


(* ================================================================== *)
(** * Tokens made of decimal digits *)
(* ================================================================== *)

Lemma js_String c s : js (String c s) = N_of_ascii c :: js s.
Proof. reflexivity. Qed.

Lemma isDigit_spec c : isDigit c = true <-> (48 <= c <= 57)%N.
Proof.
  unfold isDigit. rewrite andb_true_iff, !N.leb_le. tauto.
Qed.

Lemma digits_string_of_uint d :
  Forall (fun c => isDigit c = true) (js (NilEmpty.string_of_uint d)).
Proof.
  induction d; cbn [NilEmpty.string_of_uint]; try rewrite js_String;
    constructor; solve [reflexivity | assumption].
Qed.

Lemma digits_decimal n : Forall (fun c => isDigit c = true) (decimal n).
Proof. apply digits_string_of_uint. Qed.

Lemma digit_not_whitespace c : isDigit c = true -> isWhiteSpace c = false.
Proof.
  intros H. apply isDigit_spec in H. unfold isWhiteSpace.
  repeat (apply orb_false_intro);
    try (apply N.eqb_neq; intros ->; lia);
    apply andb_false_iff; [right | left]; apply N.leb_gt; lia.
Qed.

Lemma digit_not_separator c :
  isDigit c = true -> (c =? comma)%N = false /\ (c =? dash)%N = false.
Proof.
  intros H. unfold comma, dash. apply isDigit_spec in H.
  split; apply N.eqb_neq; intros ->; lia.
Qed.

Lemma trimStart_head c r : isWhiteSpace c = false -> trimStart (c :: r) = c :: r.
Proof. intros H. cbn. now rewrite H. Qed.

(** A string without white space at either end is its own [trim]. *)
Lemma trim_no_whitespace s :
  Forall (fun c => isWhiteSpace c = false) s -> trim s = s.
Proof.
  intros H. unfold trim, trimEnd.
  assert (Hstart : forall t, Forall (fun c => isWhiteSpace c = false) t ->
                             trimStart t = t).
  { intros [| c r] Ht; [reflexivity |]. inversion Ht; subst.
    now apply trimStart_head. }
  rewrite (Hstart s H), Hstart; [apply rev_involutive |].
  apply Forall_rev, H.
Qed.

Lemma split_at_separator sep a b :
  Forall (fun c => (c =? sep)%N = false) a ->
  split sep (a ++ sep :: b) = a :: split sep b.
Proof.
  induction 1 as [| c r Hc _ IH]; cbn [app split].
  - now rewrite N.eqb_refl.
  - now rewrite Hc, IH.
Qed.

Lemma split_without_separator sep s :
  Forall (fun c => (c =? sep)%N = false) s -> split sep s = [s].
Proof.
  induction 1 as [| c r Hc _ IH]; [reflexivity |].
  cbn [split]. now rewrite Hc, IH.
Qed.

Lemma span_digits s :
  Forall (fun c => isDigit c = true) s -> span isDigit s = (s, []).
Proof.
  induction 1 as [| c r Hc _ IH]; [reflexivity |].
  cbn [span]. now rewrite Hc, IH.
Qed.

Lemma digitValue_decimal c :
  isDigit c = true -> digitValue 10 c = Some (Z.of_N c - 48).
Proof.
  intros H. unfold digitValue. fold (isDigit c). rewrite H.
  apply isDigit_spec in H.
  destruct (Z.ltb_spec (Z.of_N c - 48) 10); [reflexivity | lia].
Qed.

(** The digits of a decimal rendering read back as the number. *)
Lemma digitsValue_uint d :
  forall acc,
    digitsValue 10 (Z.of_nat acc) (js (NilEmpty.string_of_uint d))
    = Some (Z.of_nat (Nat.of_uint_acc d acc)).
Proof.
  induction d; intros acc;
    cbn [NilEmpty.string_of_uint Nat.of_uint_acc];
    [reflexivity | ..];
    rewrite js_String; cbn [digitsValue];
    rewrite digitValue_decimal by reflexivity;
    rewrite <- IHd; f_equal;
    rewrite ?Nat2Z.inj_succ, Nat.tail_mul_spec, Nat2Z.inj_mul;
    cbn [N_of_ascii N_of_digits]; lia.
Qed.

Lemma digitsValue_decimal n :
  digitsValue 10 0 (decimal n) = Some (Z.of_nat n).
Proof.
  unfold decimal, toString.
  pose proof (digitsValue_uint (Nat.to_uint n) 0) as H.
  change (Nat.of_uint_acc (Nat.to_uint n) 0)
    with (Nat.of_uint (Nat.to_uint n)) in H.
  rewrite DecimalNat.Unsigned.of_to in H. exact H.
Qed.

(** [Number] of a string of decimal digits: the rounding of their value. *)
Lemma Number_digits s v :
  Forall (fun c => isDigit c = true) s ->
  digitsValue 10 0 s = Some v -> 0 <= v ->
  Number s = round false (v * unit_scale) 1.
Proof.
  intros Hs Hv Hv0. unfold Number.
  rewrite trim_no_whitespace
    by (eapply Forall_impl; [| exact Hs]; apply digit_not_whitespace).
  destruct s as [| c r].
  { cbn in Hv. injection Hv as <-. unfold zero, of_Z.
    rewrite Z.mul_0_l. reflexivity. }
  inversion Hs as [| ? ? Hc Hr]; subst.
  assert (Hradix : radixPrefix (c :: r) = None).
  { unfold radixPrefix. destruct r as [| c1 ds]; [reflexivity |].
    inversion Hr as [| ? ? Hc1 _]; subst. apply isDigit_spec in Hc1.
    destruct (c =? 48)%N; [| reflexivity].
    replace (c1 =? 120)%N with false by (symmetry; apply N.eqb_neq; lia).
    replace (c1 =? 88)%N with false by (symmetry; apply N.eqb_neq; lia).
    replace (c1 =? 111)%N with false by (symmetry; apply N.eqb_neq; lia).
    replace (c1 =? 79)%N with false by (symmetry; apply N.eqb_neq; lia).
    replace (c1 =? 98)%N with false by (symmetry; apply N.eqb_neq; lia).
    replace (c1 =? 66)%N with false by (symmetry; apply N.eqb_neq; lia).
    reflexivity. }
  rewrite Hradix.
  pose proof Hc as Hc'. apply isDigit_spec in Hc'.
  replace (c =? 43)%N with false by (symmetry; apply N.eqb_neq; lia).
  replace (c =? 45)%N with false by (symmetry; apply N.eqb_neq; lia).
  unfold unsignedDecimal.
  destruct (list_eq_dec N.eq_dec (c :: r) (js "Infinity")) as [E | _].
  { cbn in E. injection E as -> _. lia. }
  rewrite (span_digits (c :: r) Hs).
  unfold exponentPart. rewrite Hv. unfold decimalValue.
  cbn [Z.opp Z.leb Z.compare Z.pow Z.pow_pos]. rewrite Z.mul_1_r.
  reflexivity.
Qed.

(** [Number] of the decimal rendering of a natural number up to 2^53 is that
    number. *)
Lemma Number_decimal n :
  Z.of_nat n <= 2 ^ 53 -> Number (decimal n) = of_nat n.
Proof.
  intros Hn.
  rewrite (Number_digits (decimal n) (Z.of_nat n) (digits_decimal n)
             (digitsValue_decimal n) ltac:(lia)).
  rewrite round_exact by lia. reflexivity.
Qed.

(** The token [a-b] is one part, with the two pieces [a] and [b]. *)
Lemma split_rangeToken a b :
  split comma (rangeToken a b) = [rangeToken a b]
  /\ split dash (trim (rangeToken a b)) = [decimal a; decimal b].
Proof.
  unfold rangeToken. split.
  - apply split_without_separator. apply Forall_app. split.
    + eapply Forall_impl; [| apply digits_decimal].
      intros c Hc. apply (digit_not_separator c Hc).
    + constructor; [reflexivity |].
      eapply Forall_impl; [| apply digits_decimal].
      intros c Hc. apply (digit_not_separator c Hc).
  - rewrite trim_no_whitespace.
    + rewrite split_at_separator, split_without_separator; [reflexivity | |];
        (eapply Forall_impl; [| apply digits_decimal]);
        intros c Hc; apply (digit_not_separator c Hc).
    + apply Forall_app. split.
      * eapply Forall_impl; [| apply digits_decimal].
        apply digit_not_whitespace.
      * constructor; [reflexivity |].
        eapply Forall_impl; [| apply digits_decimal].
        apply digit_not_whitespace.
Qed.

(* ================================================================== *)
(** * What the range parser selects *)
(* ================================================================== *)

(** ** Every element comes from a Number that passed the page guard *)

Section ParsedSetInvariant.

(** [Q] holds of the Numbers read from the input and is kept by [i++] and by
    [Math.min]; [P] holds of [v - 1] for every such [v] that passes the page
    guard. *)
Variable len : number.
Variable Q : number -> Prop.
Variable P : number -> Prop.
Hypothesis Q_next : forall v, Q v -> Q (add v one).
Hypothesis Q_min : forall a b, Q a -> Q b -> Q (min a b).
Hypothesis guarded :
  forall v, Q v -> lt zero v && le v len = true -> P (sub v one).

Lemma good_add_elem v s :
  Q v -> lt zero v && le v len = true -> goodSet P s ->
  goodSet P (add_elem (sub v one) s).
Proof.
  intros HQ Hv [Hnd HP]. split; [apply NoDup_add_elem, Hnd |].
  intros x Hx. apply In_add_elem in Hx as [Hx | ->]; auto.
Qed.

Lemma rangeLoop_good fuel :
  forall i e s r,
    Q i -> rangeLoop fuel len i e s = Some r -> goodSet P s -> goodSet P r.
Proof.
  induction fuel as [| fuel IH]; intros i e s r HQ H Hs; [discriminate |].
  cbn [rangeLoop] in H. destruct (le i e).
  - apply IH in H; [exact H | apply Q_next, HQ |].
    destruct (lt zero i && le i len) eqn:G; [| exact Hs].
    now apply good_add_elem.
  - now injection H as <-.
Qed.

Lemma applyPart_good fuel part s r :
  Forall Q (map Number (split dash (trim part))) ->
  applyPart fuel len part s = Some r -> goodSet P s -> goodSet P r.
Proof.
  unfold applyPart. intros HQ H Hs.
  destruct (map Number (split dash (trim part))) as [| a [| b [| c l]]].
  - now injection H as <-.
  - inversion HQ as [| ? ? Ha _]; subst.
    destruct (negb (isNaN a)); [| now injection H as <-].
    destruct (lt zero a && le a len) eqn:G; injection H as <-;
      [now apply good_add_elem | exact Hs].
  - inversion HQ as [| ? ? Ha HQ']; subst.
    inversion HQ' as [| ? ? Hb _]; subst.
    destruct (negb (isNaN a) && negb (isNaN b));
      [| now injection H as <-].
    eapply rangeLoop_good; [| eassumption | assumption].
    now apply Q_min.
  - now injection H as <-.
Qed.

Lemma forEachPart_good fuel parts :
  Forall (fun part => Forall Q (map Number (split dash (trim part)))) parts ->
  forall s r, forEachPart fuel len parts s = Some r -> goodSet P s -> goodSet P r.
Proof.
  induction 1 as [| part rest Hpart _ IH]; intros s r H Hs; cbn in H.
  - now injection H as <-.
  - destruct (applyPart fuel len part s) as [s' |] eqn:E; [| discriminate].
    eapply IH; [exact H |]. eapply applyPart_good; eassumption.
Qed.

End ParsedSetInvariant.

(** A Number [v] with [0 < v <= n] has [v - 1] between -1 and [n - 1]; when it
    is an integer, [v - 1] is an index in [0, n). *)
Lemma pageOrigin_bounds n x v :
  Z.of_nat n <= 2 ^ 53 -> pageOrigin n x v ->
  le (of_Z (-1)) x = true /\ le x (of_Z (Z.of_nat n - 1)) = true
  /\ forall z, v = of_Z z -> x = of_Z (z - 1) /\ 0 <= z - 1 < Z.of_nat n.
Proof.
  intros Hn [Hpos [Hle ->]]. pose proof unit_scale_pos as HU.
  destruct v as [| b | k]; [discriminate | destruct b; discriminate |].
  unfold zero, of_nat, of_Z in Hpos, Hle. cbn [lt le] in Hpos, Hle.
  apply Z.ltb_lt in Hpos. apply Z.leb_le in Hle.
  rewrite Z.mul_0_l in Hpos.
  assert (Hn1 : 1 <= Z.of_nat n) by nia.
  split; [| split].
  - unfold sub, one, of_Z. cbn [neg add]. unfold round_Z.
    destruct (Z.ltb_spec (k + - (1 * unit_scale)) 0) as [Hneg | Hnn].
    + destruct (round_le true (Z.abs (k + - (1 * unit_scale))) 1)
        as [r [-> Hr]]; [lia | lia |].
      cbn [le]. apply Z.leb_le. lia.
    + destruct (round_le false (Z.abs (k + - (1 * unit_scale)))
                  (Z.of_nat n - 1)) as [r [-> Hr]]; [lia | lia |].
      cbn [le]. apply Z.leb_le. lia.
  - unfold sub, one, of_Z. cbn [neg add]. unfold round_Z.
    destruct (Z.ltb_spec (k + - (1 * unit_scale)) 0) as [Hneg | Hnn].
    + destruct (round_le true (Z.abs (k + - (1 * unit_scale))) 1)
        as [r [-> Hr]]; [lia | lia |].
      cbn [le]. apply Z.leb_le. nia.
    + destruct (round_le false (Z.abs (k + - (1 * unit_scale)))
                  (Z.of_nat n - 1)) as [r [-> Hr]]; [lia | lia |].
      cbn [le]. apply Z.leb_le. lia.
  - intros z E. unfold of_Z in E. injection E as ->.
    assert (Hz : 1 <= z <= Z.of_nat n) by nia.
    split; [apply sub_one_of_Z; lia | lia].
Qed.

(** Numbers that are integers stay so under [i++], and under [Math.min]. *)
Lemma round_integral v :
  0 <= v ->
  round false (v * unit_scale) 1 = Inf false
  \/ exists z, 0 <= z /\ round false (v * unit_scale) 1 = of_Z z.
Proof.
  intros Hv. pose proof unit_scale_pos as HU.
  destruct (Z.le_gt_cases v (2 ^ 53)) as [Hsmall | Hbig].
  { right. exists v. split; [exact Hv |]. now rewrite round_exact by lia. }
  unfold round. rewrite Z.div_1_r, Z.mul_1_l.
  set (a := v * unit_scale).
  set (s := Z.max 0 (Z.log2 a - 52)).
  assert (Hlog : 1127 <= Z.log2 a).
  { apply Z.log2_le_pow2; [nia |]. unfold a.
    replace (2 ^ 1127) with (2 ^ 53 * unit_scale)
      by (rewrite unit_scale_eq, <- Z.pow_add_r by lia; reflexivity).
    nia. }
  assert (Hs : 1074 <= s) by lia.
  set (k := round_half_even a (2 ^ s)).
  assert (Hk : 0 <= k).
  { apply round_half_even_nonneg; [unfold a; nia |].
    apply Z.pow_pos_nonneg; lia. }
  destruct (2 ^ 2098 <=? k * 2 ^ s); [now left | right].
  exists (k * 2 ^ (s - 1074)). split.
  - apply Z.mul_nonneg_nonneg; [exact Hk | apply Z.pow_nonneg; lia].
  - unfold of_Z. f_equal. rewrite <- Z.mul_assoc. f_equal.
    rewrite unit_scale_eq, <- Z.pow_add_r by lia. f_equal. lia.
Qed.

Lemma integral_next v : integral v -> integral (add v one).
Proof.
  intros [-> | [-> | [z [Hz ->]]]]; [now left | right; now left |].
  pose proof unit_scale_pos as HU.
  unfold one, of_Z. cbn [add]. unfold round_Z.
  replace (z * unit_scale + 1 * unit_scale) with ((z + 1) * unit_scale)
    by lia.
  replace ((z + 1) * unit_scale <? 0) with false
    by (symmetry; apply Z.ltb_ge; nia).
  rewrite Z.abs_eq by nia.
  destruct (round_integral (z + 1) ltac:(lia)) as [-> | [z' [Hz' ->]]];
    right; [now left | right; now exists z'].
Qed.

Lemma integral_min a b : integral a -> integral b -> integral (min a b).
Proof.
  intros Ha Hb. unfold min.
  destruct a as [| sa | ka]; [now left | |];
    (destruct b as [| sb | kb]; [now left | |]);
    match goal with |- integral (if ?c then _ else _) => destruct c end;
    assumption.
Qed.

(** An integer that passes the page guard is a page number. *)
Lemma integral_guarded n v :
  Z.of_nat n <= 2 ^ 53 -> integral v ->
  lt zero v && le v (of_nat n) = true ->
  exists z, sub v one = of_Z z /\ 0 <= z < Z.of_nat n.
Proof.
  intros Hn Hv Hguard. apply andb_prop in Hguard as [Hpos Hle].
  destruct Hv as [-> | [-> | [z [Hz ->]]]]; try discriminate.
  unfold zero in Hpos. unfold of_nat in Hle.
  rewrite lt_of_Z in Hpos. rewrite le_of_Z in Hle.
  apply Z.ltb_lt in Hpos. apply Z.leb_le in Hle.
  exists (z - 1). split; [apply sub_one_of_Z; lia | lia].
Qed.

(** ** The pieces of a valid range string read as integers *)

Lemma Forall_trimStart (R : N -> Prop) s : Forall R s -> Forall R (trimStart s).
Proof.
  induction 1 as [| c r Hc Hr IH]; cbn; [constructor |].
  destruct (isWhiteSpace c); [exact IH | now constructor].
Qed.

Lemma Forall_trim (R : N -> Prop) s : Forall R s -> Forall R (trim s).
Proof.
  intros H. unfold trim, trimEnd.
  apply Forall_rev, Forall_trimStart, Forall_rev, Forall_trimStart, H.
Qed.

(** The pieces of a split hold the characters of the string other than the
    separator. *)
Lemma Forall_split (R : N -> Prop) sep s :
  Forall R s ->
  Forall (Forall (fun c => R c /\ (c =? sep)%N = false)) (split sep s).
Proof.
  induction 1 as [| c r Hc Hr IH]; cbn [split].
  - repeat constructor.
  - destruct (c =? sep)%N eqn:E.
    + constructor; [constructor | exact IH].
    + destruct (split sep r) as [| piece pieces].
      * repeat constructor; assumption.
      * inversion IH; subst. constructor; [| assumption].
        constructor; [split |]; assumption.
Qed.

Lemma span_spec p s :
  let (a, b) := span p s in
  s = a ++ b /\ Forall (fun c => p c = true) a
  /\ match b with [] => True | c :: _ => p c = false end.
Proof.
  induction s as [| c r IH]; cbn [span].
  - repeat split; constructor.
  - destruct (p c) eqn:E.
    + destruct (span p r) as [a b]. destruct IH as [-> [Ha Hb]].
      repeat split; [constructor; assumption | exact Hb].
    + repeat split; [constructor | exact E].
Qed.

Lemma digitsValue_digits s :
  Forall (fun c => isDigit c = true) s ->
  forall acc, 0 <= acc -> exists v, 0 <= v /\ digitsValue 10 acc s = Some v.
Proof.
  induction 1 as [| c r Hc _ IH]; intros acc Hacc; cbn [digitsValue].
  - now exists acc.
  - rewrite (digitValue_decimal c Hc). apply IH.
    apply isDigit_spec in Hc. lia.
Qed.

(** A piece made of digits and white space reads as an integer or as NaN. *)
Lemma Number_valid_piece s :
  Forall (fun c => isDigit c = true \/ isWhiteSpace c = true) s ->
  integral (Number s).
Proof.
  intros Hs. apply Forall_trim in Hs. unfold Number.
  destruct (trim s) as [| c r].
  { right; right. exists 0. split; [lia | reflexivity]. }
  assert (Hnot : forall d, In d (c :: r) ->
            forall x, isDigit x = false -> isWhiteSpace x = false ->
                      (d =? x)%N = false).
  { intros d Hd x Hx1 Hx2. rewrite Forall_forall in Hs.
    apply N.eqb_neq. intros ->. destruct (Hs x Hd); congruence. }
  assert (Hradix : radixPrefix (c :: r) = None).
  { unfold radixPrefix. destruct r as [| c1 ds]; [reflexivity |].
    destruct (c =? 48)%N; [| reflexivity].
    rewrite !(Hnot c1) by (first [right; left; reflexivity | reflexivity]).
    reflexivity. }
  rewrite Hradix, !(Hnot c) by (first [left; reflexivity | reflexivity]).
  unfold unsignedDecimal.
  destruct (list_eq_dec N.eq_dec (c :: r) (js "Infinity")) as [E | _].
  { exfalso. cbn in E. injection E as -> _.
    inversion Hs as [| ? ? [Hc | Hc] _]; discriminate. }
  pose proof (span_spec isDigit (c :: r)) as Hspan.
  destruct (span isDigit (c :: r)) as [ip r1].
  destruct Hspan as [Hsplit [Hip Hr1]].
  assert (Hrest : match r1 with
                  | [] => True
                  | w :: _ => (w =? 46)%N = false
                              /\ isExponentIndicator w = false
                  end).
  { destruct r1 as [| w r2]; [exact I |].
    assert (Hw : In w (c :: r))
      by (rewrite Hsplit; apply in_or_app; right; now left).
    unfold isExponentIndicator.
    rewrite !(Hnot w Hw) by reflexivity. now split. }
  destruct (digitsValue_digits ip Hip 0 ltac:(lia)) as [v [Hv Hval]].
  destruct r1 as [| w r2].
  - destruct ip as [| i0 ip']; [now left |].
    unfold exponentPart. rewrite Hval. unfold decimalValue.
    cbn [Z.opp Z.leb Z.compare Z.pow Z.pow_pos]. rewrite Z.mul_1_r.
    destruct (round_integral v Hv) as [-> | [z [Hz ->]]];
      right; [now left | right; now exists z].
  - destruct Hrest as [Hdot Hexp]. rewrite Hdot.
    destruct ip as [| i0 ip']; [now left |].
    unfold exponentPart. rewrite Hval, Hexp. now left.
Qed.

Lemma validRangeString_pieces input :
  validRangeString input = true ->
  Forall (fun part => Forall integral (map Number (split dash (trim part))))
         (split comma input).
Proof.
  intros Hvalid. unfold validRangeString in Hvalid.
  rewrite forallb_forall in Hvalid. apply Forall_forall in Hvalid.
  apply (Forall_split _ comma) in Hvalid.
  eapply Forall_impl; [| exact Hvalid]. intros part Hpart.
  apply Forall_trim in Hpart. apply (Forall_split _ dash) in Hpart.
  apply Forall_map. eapply Forall_impl; [| exact Hpart].
  intros piece Hpiece. apply Number_valid_piece.
  eapply Forall_impl; [| exact Hpiece].
  intros c [[Hc Hcomma] Hdash]. unfold rangeChar in Hc.
  rewrite Hcomma, Hdash, !orb_false_r in Hc.
  now apply orb_prop in Hc.
Qed.

(** C1 (as amended). For every range string and every page count [n] (an
    array length, so at most 2^53), the parsed set has no repeated element,
    and every element [x] is [v - 1] for a Number [v] with [0 < v <= n], so
    [-1 <= x <= n - 1]; for a valid range string (digits, commas, dashes and
    white space) every element is an index in [0, n). *)
Theorem parsed_set_within_pages
  (fuel n : nat) (input : jsstring) (sel : NumberSet) :
  Z.of_nat n <= 2 ^ 53 ->
  parseRange fuel n input = Some sel ->
  NoDup sel
  /\ (forall x, In x sel ->
        exists v,
          pageOrigin n x v
          /\ le (of_Z (-1)) x = true
          /\ le x (of_Z (Z.of_nat n - 1)) = true)
  /\ (validRangeString input = true ->
      forall x, In x sel -> exists z, x = of_Z z /\ 0 <= z < Z.of_nat n).
Proof.
  intros Hn Hparse. unfold parseRange in Hparse.
  assert (Hnil : forall R, goodSet R []).
  { intros R. split; [constructor | intros x []]. }
  assert (Hany : Forall (fun part =>
                   Forall (fun _ : number => True)
                          (map Number (split dash (trim part))))
                 (split comma input)).
  { apply Forall_forall. intros part _. apply Forall_forall.
    intros; exact I. }
  assert (Hguard : forall v, True ->
            lt zero v && le v (of_nat n) = true ->
            exists v0, pageOrigin n (sub v one) v0).
  { intros v _ Hv. apply andb_prop in Hv as [H1 H2]. exists v.
    split; [exact H1 | split; [exact H2 | reflexivity]]. }
  destruct (forEachPart_good (of_nat n) (fun _ => True)
              (fun x => exists v, pageOrigin n x v)
              (fun _ _ => I) (fun _ _ _ _ => I) Hguard
              fuel (split comma input) Hany [] sel Hparse (Hnil _))
    as [Hnd Horigin].
  split; [exact Hnd | split].
  - intros x Hx. destruct (Horigin x Hx) as [v Hv]. exists v.
    destruct (pageOrigin_bounds n x v Hn Hv) as [Hlo [Hhi _]].
    split; [exact Hv | split; [exact Hlo | exact Hhi]].
  - intros Hvalid.
    destruct (forEachPart_good (of_nat n) integral
                (fun x => exists z, x = of_Z z /\ 0 <= z < Z.of_nat n)
                integral_next integral_min
                (fun v Hv Hg => integral_guarded n v Hn Hv Hg)
                fuel (split comma input)
                (validRangeString_pieces input Hvalid) [] sel Hparse
                (Hnil _))
      as [_ Hindex].
    exact Hindex.
Qed.

Lemma parsed_set_within_pages_witness :
  Z.of_nat 10 <= 2 ^ 53
  /\ parseRange 4 10 (js "1-3, 5, 8")
     = Some [of_Z 0; of_Z 1; of_Z 2; of_Z 4; of_Z 7]
  /\ validRangeString (js "1-3, 5, 8") = true
  /\ NoDup [of_Z 0; of_Z 1; of_Z 2; of_Z 4; of_Z 7]
  /\ forall x, In x [of_Z 0; of_Z 1; of_Z 2; of_Z 4; of_Z 7] ->
               exists z, x = of_Z z /\ 0 <= z < Z.of_nat 10.
Proof.
  assert (Hn : Z.of_nat 10 <= 2 ^ 53) by (cbn; lia).
  assert (Hparse : parseRange 4 10 (js "1-3, 5, 8")
                   = Some [of_Z 0; of_Z 1; of_Z 2; of_Z 4; of_Z 7])
    by (vm_compute; reflexivity).
  assert (Hvalid : validRangeString (js "1-3, 5, 8") = true)
    by (vm_compute; reflexivity).
  split; [exact Hn | split; [exact Hparse | split; [exact Hvalid |]]].
  destruct (parsed_set_within_pages 4 10 _ _ Hn Hparse) as [Hnd [_ Hindex]].
  split; [exact Hnd | exact (Hindex Hvalid)].
Defined.

(** C1 as stated fails: over one page, the token "0.5" puts -0.5 in the set,
    which is below 0. *)
Lemma fractional_token_outside_pages :
  exists sel x,
    parseRange 0 1 (js "0.5") = Some sel
    /\ In x sel /\ lt x zero = true.
Proof.
  exists [Fin (- 2 ^ 1073)], (Fin (- 2 ^ 1073)).
  split; [vm_compute; reflexivity |].
  split; [left; reflexivity | vm_compute; reflexivity].
Qed.

(** ** Tokens with an empty side *)

(** C4 at its failing inputs. Over ten pages the token "3-" selects the pages
    1 to 3 and "-5" the pages 1 to 5 (an empty side reads as 0), so "7,3-"
    does not parse as "7" does; "abc" and "1-2-3" are ignored. *)
Theorem open_range_token_selects :
  parseRange 8 10 (js "3-") = Some [of_Z 0; of_Z 1; of_Z 2]
  /\ parseRange 8 10 (js "-5")
     = Some [of_Z 0; of_Z 1; of_Z 2; of_Z 3; of_Z 4]
  /\ parseRange 8 10 (js "7,3-") = Some [of_Z 6; of_Z 0; of_Z 1; of_Z 2]
  /\ parseRange 8 10 (js "7") = Some [of_Z 6]
  /\ parseRange 8 10 (js "7,abc,1-2-3") = Some [of_Z 6].
Proof.
  split; [| split; [| split; [| split]]]; vm_compute; reflexivity.
Qed.

(** ** Ranges between two numbers *)



Lemma min_of_nat a b : min (of_nat a) (of_nat b) = of_nat (Nat.min a b).
Proof.
  unfold of_nat. change (min (of_Z (Z.of_nat a)) (of_Z (Z.of_nat b)))
    with (if le (of_Z (Z.of_nat a)) (of_Z (Z.of_nat b))
          then of_Z (Z.of_nat a) else of_Z (Z.of_nat b)).
  rewrite le_of_Z. destruct (Z.leb_spec (Z.of_nat a) (Z.of_nat b)).
  - now rewrite Nat.min_l by lia.
  - now rewrite Nat.min_r by lia.
Qed.

Lemma max_of_nat a b : max (of_nat a) (of_nat b) = of_nat (Nat.max a b).
Proof.
  unfold of_nat. change (max (of_Z (Z.of_nat a)) (of_Z (Z.of_nat b)))
    with (if le (of_Z (Z.of_nat a)) (of_Z (Z.of_nat b))
          then of_Z (Z.of_nat b) else of_Z (Z.of_nat a)).
  rewrite le_of_Z. destruct (Z.leb_spec (Z.of_nat a) (Z.of_nat b)).
  - now rewrite Nat.max_r by lia.
  - now rewrite Nat.max_l by lia.
Qed.

Lemma has_map_of_nat x l : has (of_nat x) (map of_nat l) = false <-> ~ In x l.
Proof.
  rewrite has_false_notin, in_map_iff. split.
  - intros H Hx. apply H. now exists x.
  - intros H [y [E Hy]]. apply of_nat_injective in E. now subst.
Qed.

Lemma rangeLoop_step fuel len i e s :
  rangeLoop (S fuel) len i e s
  = if le i e
    then rangeLoop fuel len (add i one) e
           (if lt zero i && le i len then add_elem (sub i one) s else s)
    else Some s.
Proof. reflexivity. Qed.

(** The loop from an integer [lo] to an integer [hi] below 2^53: having
    walked the numbers below [i], it holds the indices of the pages among
    them, and ends with those of the pages up to [hi]. *)
Lemma rangeLoop_integers n lo hi :
  Z.of_nat hi < 2 ^ 53 ->
  let first := (Nat.max 1 lo - 1)%nat in
  let upto i := map of_nat (seq first (Nat.min n (i - 1) - first)) in
  forall cnt i,
    (i + cnt = hi + 1)%nat -> (lo <= i)%nat ->
    rangeLoop (S cnt) (of_nat n) (of_nat i) (of_nat hi) (upto i)
    = Some (upto (hi + 1)%nat).
Proof.
  intros Hhi first upto.
  induction cnt as [| cnt IH]; intros i Hi Hlo.
  - rewrite rangeLoop_step, le_of_nat.
    replace (i <=? hi)%nat with false by (symmetry; apply Nat.leb_gt; lia).
    replace i with (hi + 1)%nat by lia. reflexivity.
  - rewrite rangeLoop_step, !le_of_nat, lt_zero_of_nat.
    replace (i <=? hi)%nat with true by (symmetry; apply Nat.leb_le; lia).
    rewrite add_one_of_nat by lia.
    destruct (Nat.ltb_spec 0 i) as [Hpos | Hzero];
      [destruct (Nat.leb_spec i n) as [Hle | Hgt] |]; cbn [andb].
    + rewrite sub_one_of_nat by lia.
      unfold add_elem.
      replace (has (of_nat (i - 1)) (upto i)) with false
        by (symmetry; apply has_map_of_nat; rewrite in_seq; lia).
      replace (upto i ++ [of_nat (i - 1)]) with (upto (S i)).
      * apply IH; lia.
      * unfold upto.
        replace (Nat.min n (S i - 1) - first)%nat
          with (S (Nat.min n (i - 1) - first)) by lia.
        rewrite seq_S, map_app. cbn [map].
        replace (first + (Nat.min n (i - 1) - first))%nat with (i - 1)%nat
          by lia.
        reflexivity.
    + replace (upto i) with (upto (S i)); [apply IH; lia |].
      unfold upto.
      replace (Nat.min n (S i - 1) - first)%nat
        with (Nat.min n (i - 1) - first)%nat by lia.
      reflexivity.
    + replace (upto i) with (upto (S i)); [apply IH; lia |].
      unfold upto.
      replace (Nat.min n (S i - 1) - first)%nat
        with (Nat.min n (i - 1) - first)%nat by lia.
      reflexivity.
Qed.

(** Parsing the token [a-b], for numbers below 2^53, ends and yields the
    indices of the pages from [min a b] to [max a b] that exist. *)
Lemma parseRange_rangeToken a b n :
  Z.of_nat a < 2 ^ 53 -> Z.of_nat b < 2 ^ 53 ->
  parseRange (S (Nat.max a b + 1 - Nat.min a b)) n (rangeToken a b)
  = Some (indexRange (Nat.min a b) (Nat.max a b) n).
Proof.
  intros Ha Hb. unfold parseRange.
  destruct (split_rangeToken a b) as [-> Hpieces].
  cbn [forEachPart]. unfold applyPart. rewrite Hpieces. cbn [map].
  rewrite !Number_decimal by lia.
  change (isNaN (of_nat a)) with false. change (isNaN (of_nat b)) with false.
  cbn [negb andb]. rewrite min_of_nat, max_of_nat.
  pose proof (rangeLoop_integers n (Nat.min a b) (Nat.max a b) ltac:(lia)
                (Nat.max a b + 1 - Nat.min a b) (Nat.min a b)
                ltac:(lia) ltac:(lia)) as Hloop.
  cbv beta zeta in Hloop.
  assert (Hnone : (Nat.min n (Nat.min a b - 1)
                   - (Nat.max 1 (Nat.min a b) - 1))%nat = 0%nat) by lia.
  rewrite Hnone in Hloop. cbn [seq map] in Hloop. rewrite Hloop. unfold indexRange.
  replace (Nat.max a b + 1 - 1)%nat with (Nat.max a b) by lia.
  reflexivity.
Qed.

(** At 2^53 the increment [i++] gives 2^53 again: a range that reaches it
    never ends. *)
Lemma rangeLoop_stalls len fuel :
  forall i s,
    0 <= i <= 2 ^ 53 ->
    rangeLoop fuel len (of_Z i) (of_Z (2 ^ 53)) s = None.
Proof.
  induction fuel as [| fuel IH]; intros i s Hi; [reflexivity |].
  rewrite rangeLoop_step, le_of_Z.
  replace (i <=? 2 ^ 53) with true by (symmetry; apply Z.leb_le; lia).
  destruct (Z.eq_dec i (2 ^ 53)) as [-> | Hne].
  - replace (add (of_Z (2 ^ 53)) one) with (of_Z (2 ^ 53))
      by (vm_compute; reflexivity).
    apply IH. lia.
  - rewrite add_one_of_Z by lia. apply IH. lia.
Qed.

(** So the range "1-9007199254740992" keeps [applyRange] in its loop. *)
Lemma range_to_2_53_never_ends fuel n :
  parseRange fuel n (js "1-9007199254740992") = None.
Proof.
  assert (Hpieces : map Number (split dash (trim (js "1-9007199254740992")))
                    = [of_Z 1; of_Z (2 ^ 53)]) by (vm_compute; reflexivity).
  assert (Hparts : split comma (js "1-9007199254740992")
                   = [js "1-9007199254740992"]) by (vm_compute; reflexivity).
  assert (Hmin : min (of_Z 1) (of_Z (2 ^ 53)) = of_Z 1)
    by (vm_compute; reflexivity).
  assert (Hmax : max (of_Z 1) (of_Z (2 ^ 53)) = of_Z (2 ^ 53))
    by (vm_compute; reflexivity).
  unfold parseRange. rewrite Hparts. cbn [forEachPart]. unfold applyPart.
  rewrite Hpieces. change (isNaN (of_Z 1)) with false.
  change (isNaN (of_Z (2 ^ 53))) with false. cbn [negb andb].
  rewrite Hmin, Hmax, rangeLoop_stalls by lia. reflexivity.
Qed.



(* ================================================================== *)
(** * [applyRange] on the component state *)
(* ================================================================== *)

Lemma pages_setPages f st : pages (setPages f st) = f (pages st).
Proof. reflexivity. Qed.

(** In custom mode and on a non-empty input, [applyRange] is the parse
    followed by the replacement of every flag. *)
Lemma applyRange_custom fuel st :
  mode st = custom -> rangeInput st <> [] ->
  applyRange fuel st
  = match parseRange fuel (length (pages st)) (rangeInput st) with
    | None => None
    | Some sel =>
        Some (setPages (map (fun p =>
                setSelected (has (of_nat (index p)) sel) p)) st)
    end.
Proof.
  intros Hmode Hinput. unfold applyRange.
  destruct (rangeInput st) as [| c r]; [congruence |].
  rewrite Hmode. reflexivity.
Qed.

Lemma map_selected_replaced sel ps :
  map selected (map (fun p => setSelected (has (of_nat (index p)) sel) p) ps)
  = map (fun i => has (of_nat i) sel) (map index ps).
Proof. rewrite !map_map. reflexivity. Qed.

Lemma map_index_replaced sel ps :
  map index (map (fun p => setSelected (has (of_nat (index p)) sel) p) ps)
  = map index ps.
Proof. rewrite map_map. reflexivity. Qed.

(** The selection handlers change flags only: the page list keeps its
    indices. *)
Lemma selection_handlers_keep_indices st :
  (forall i, map index (pages (togglePageSelection i st))
             = map index (pages st))
  /\ (forall b, map index (pages (selectAll b st)) = map index (pages st)).
Proof.
  split.
  - intros i. unfold togglePageSelection.
    destruct (Mode_eqb (mode st) fixed); [reflexivity |].
    rewrite pages_setPages, map_map. apply map_ext. intros p.
    now destruct (Nat.eqb (index p) i).
  - intros b. unfold selectAll. rewrite pages_setPages, map_map.
    reflexivity.
Qed.

(** ** Inputs on which the parser ends *)

Lemma smallIntegerOrNaN_spec v :
  smallIntegerOrNaN v = true ->
  v = NaN \/ exists z : nat, Z.of_nat z < 2 ^ 53 /\ v = of_nat z.
Proof.
  pose proof unit_scale_pos as HU.
  destruct v as [| sgn | k]; cbn [smallIntegerOrNaN]; intros H;
    [now left | discriminate | right].
  apply andb_prop in H as [H Hmod]. apply andb_prop in H as [Hlo Hhi].
  apply Z.leb_le in Hlo. apply Z.ltb_lt in Hhi. apply Z.eqb_eq in Hmod.
  pose proof (Z.div_mod k unit_scale ltac:(lia)) as Hdm.
  assert (Hq : 0 <= k / unit_scale) by (apply Z.div_pos; lia).
  exists (Z.to_nat (k / unit_scale)). rewrite Z2Nat.id by exact Hq. split.
  - apply Z.div_lt_upper_bound; lia.
  - unfold of_nat, of_Z. rewrite Z2Nat.id by exact Hq. f_equal. lia.
Qed.

Lemma rangeLoop_ends len hi :
  Z.of_nat hi < 2 ^ 53 ->
  forall cnt i s,
    (hi + 1 <= i + cnt)%nat ->
    exists r, rangeLoop (S cnt) len (of_nat i) (of_nat hi) s = Some r.
Proof.
  intros Hhi. induction cnt as [| cnt IH]; intros i s Hcnt;
    rewrite rangeLoop_step, le_of_nat.
  - replace (i <=? hi)%nat with false by (symmetry; apply Nat.leb_gt; lia).
    now exists s.
  - destruct (Nat.leb_spec i hi) as [Hle | Hgt]; [| now exists s].
    rewrite add_one_of_nat by lia. apply IH. lia.
Qed.

Lemma applyPart_ends len part :
  forallb smallIntegerOrNaN (map Number (split dash (trim part))) = true ->
  exists fuel0, forall fuel s,
    (fuel0 <= fuel)%nat -> exists r, applyPart fuel len part s = Some r.
Proof.
  unfold applyPart. intros H.
  destruct (map Number (split dash (trim part))) as [| a [| b [| c l]]].
  - exists 0%nat. intros fuel s _. now exists s.
  - exists 0%nat. intros fuel s _.
    destruct (negb (isNaN a)); [| now exists s].
    destruct (lt zero a && le a len); eauto.
  - cbn [forallb] in H. apply andb_prop in H as [Ha H].
    apply andb_prop in H as [Hb _].
    apply smallIntegerOrNaN_spec in Ha, Hb.
    destruct Ha as [-> | [x [Hx ->]]];
      [exists 0%nat; intros fuel s _; now exists s |].
    destruct Hb as [-> | [y [Hy ->]]];
      [exists 0%nat; intros fuel s _; now exists s |].
    exists (S (S (Nat.max x y))). intros fuel s Hfuel.
    destruct fuel as [| cnt]; [lia |].
    change (negb (isNaN (of_nat x)) && negb (isNaN (of_nat y))) with true.
    cbv iota. rewrite min_of_nat, max_of_nat.
    apply rangeLoop_ends; lia.
  - exists 0%nat. intros fuel s _. now exists s.
Qed.

Lemma forEachPart_ends len parts :
  forallb (fun part =>
             forallb smallIntegerOrNaN (map Number (split dash (trim part))))
          parts = true ->
  exists fuel0, forall fuel s,
    (fuel0 <= fuel)%nat -> exists r, forEachPart fuel len parts s = Some r.
Proof.
  induction parts as [| part rest IH]; cbn [forallb forEachPart]; intros H.
  - exists 0%nat. intros fuel s _. now exists s.
  - apply andb_prop in H as [Hpart Hrest].
    destruct (applyPart_ends len part Hpart) as [f1 H1].
    destruct (IH Hrest) as [f2 H2].
    exists (Nat.max f1 f2). intros fuel s Hfuel.
    destruct (H1 fuel s ltac:(lia)) as [s' ->].
    apply H2. lia.
Qed.

(** On a bounded input the parse returns, given enough fuel. *)
Lemma parseRange_ends n input :
  boundedInput input = true ->
  exists fuel0, forall fuel,
    (fuel0 <= fuel)%nat -> exists sel, parseRange fuel n input = Some sel.
Proof.
  intros H. destruct (forEachPart_ends (of_nat n) _ H) as [fuel0 H0].
  exists fuel0. intros fuel Hfuel. apply H0. exact Hfuel.
Qed.

(** C6. Applying a non-empty range string replaces the prior selection.
    [applyRange] returns exactly when the parse of the input does (and more
    fuel then gives the same state), which it does, given enough fuel, for
    every input whose pieces read as NaN or as integers below 2^53; when the
    parse returns the set [sel],
    two states with the same pages (the same indices, whatever the flags) and
    the same input both return, with the same flags: in either result a page
    is selected exactly when its index is in [sel], whatever was selected
    before. *)
Theorem applyRange_replaces_selection (fuel : nat) (st1 st2 : State) :
  mode st1 = custom -> mode st2 = custom ->
  rangeInput st1 <> [] -> rangeInput st2 = rangeInput st1 ->
  map index (pages st1) = map index (pages st2) ->
  (applyRange fuel st1 = None
   <-> parseRange fuel (length (pages st1)) (rangeInput st1) = None)
  /\ (applyRange fuel st1 = None <-> applyRange fuel st2 = None)
  /\ (forall st1' fuel',
        applyRange fuel st1 = Some st1' -> (fuel <= fuel')%nat ->
        applyRange fuel' st1 = Some st1')
  /\ (boundedInput (rangeInput st1) = true ->
      exists fuel0, forall fuel',
        (fuel0 <= fuel')%nat ->
        exists st1' st2',
          applyRange fuel' st1 = Some st1'
          /\ applyRange fuel' st2 = Some st2'
          /\ map selected (pages st1') = map selected (pages st2'))
  /\ forall sel,
       parseRange fuel (length (pages st1)) (rangeInput st1) = Some sel ->
       exists st1' st2',
         applyRange fuel st1 = Some st1'
         /\ applyRange fuel st2 = Some st2'
         /\ map selected (pages st1') = map selected (pages st2')
         /\ map selected (pages st1')
            = map (fun p => has (of_nat (index p)) sel) (pages st1)
         /\ map index (pages st1') = map index (pages st1)
         /\ map index (pages st2') = map index (pages st2)
         /\ (forall p, In p (pages st1') ->
                       selected p = has (of_nat (index p)) sel)
         /\ (forall p, In p (pages st2') ->
                       selected p = has (of_nat (index p)) sel).
Proof.
  intros Hm1 Hm2 Hin1 Hin2 Hidx.
  assert (Hlen : length (pages st1) = length (pages st2)).
  { rewrite <- (length_map index (pages st1)), Hidx. apply length_map. }
  assert (Hin2' : rangeInput st2 <> []) by congruence.
  assert (Hboth : forall fuel' sel,
            parseRange fuel' (length (pages st1)) (rangeInput st1) = Some sel ->
            applyRange fuel' st1
            = Some (setPages (map (fun p =>
                      setSelected (has (of_nat (index p)) sel) p)) st1)
            /\ applyRange fuel' st2
               = Some (setPages (map (fun p =>
                         setSelected (has (of_nat (index p)) sel) p)) st2)).
  { intros fuel' sel Hsel.
    rewrite (applyRange_custom fuel' st1 Hm1 Hin1), Hsel.
    rewrite (applyRange_custom fuel' st2 Hm2 Hin2'), Hin2, <- Hlen, Hsel.
    now split. }
  split; [| split; [| split; [| split]]].
  - rewrite (applyRange_custom fuel st1 Hm1 Hin1).
    destruct (parseRange fuel (length (pages st1)) (rangeInput st1));
      split; congruence.
  - rewrite (applyRange_custom fuel st1 Hm1 Hin1).
    rewrite (applyRange_custom fuel st2 Hm2 Hin2'), Hin2, <- Hlen.
    destruct (parseRange fuel (length (pages st1)) (rangeInput st1));
      split; congruence.
  - intros st1' fuel' H Hle.
    rewrite (applyRange_custom fuel st1 Hm1 Hin1) in H.
    rewrite (applyRange_custom fuel' st1 Hm1 Hin1).
    destruct (parseRange fuel (length (pages st1)) (rangeInput st1))
      as [sel |] eqn:E; [| discriminate].
    now rewrite (parseRange_mono _ _ _ _ _ E Hle).
  - intros Hbounded.
    destruct (parseRange_ends (length (pages st1)) _ Hbounded)
      as [fuel0 Hends].
    exists fuel0. intros fuel' Hfuel.
    destruct (Hends fuel' Hfuel) as [sel Hsel].
    destruct (Hboth fuel' sel Hsel) as [E1 E2].
    eexists. eexists. split; [exact E1 |]. split; [exact E2 |].
    rewrite !pages_setPages, !map_selected_replaced. now rewrite Hidx.
  - intros sel Hsel.
    exists (setPages (map (fun p =>
              setSelected (has (of_nat (index p)) sel) p)) st1),
           (setPages (map (fun p =>
              setSelected (has (of_nat (index p)) sel) p)) st2).
    destruct (Hboth fuel sel Hsel) as [-> ->].
    rewrite !pages_setPages, !map_selected_replaced, !map_index_replaced.
    split; [reflexivity |]. split; [reflexivity |].
    split; [now rewrite Hidx |].
    split; [now rewrite map_map |].
    split; [reflexivity |]. split; [reflexivity |].
    split; intros p Hp; apply in_map_iff in Hp as [q [<- _]]; reflexivity.
Qed.

Lemma applyRange_replaces_selection_witness :
  exists st1' st2',
    applyRange 1 (exampleState None [mkPage 0 "a" true; mkPage 1 "b" false]
                    custom single 1 (js "2")) = Some st1'
    /\ applyRange 1 (exampleState None [mkPage 0 "a" false; mkPage 1 "b" true]
                       custom single 1 (js "2")) = Some st2'
    /\ map selected (pages st1') = [false; true]
    /\ map selected (pages st2') = [false; true].
Proof.
  assert (Hsel : parseRange 1
                   (length (pages (exampleState None
                      [mkPage 0 "a" true; mkPage 1 "b" false]
                      custom single 1 (js "2"))))
                   (rangeInput (exampleState None
                      [mkPage 0 "a" true; mkPage 1 "b" false]
                      custom single 1 (js "2")))
                 = Some [of_nat 1])
    by (vm_compute; reflexivity).
  destruct (applyRange_replaces_selection 1
              (exampleState None [mkPage 0 "a" true; mkPage 1 "b" false]
                 custom single 1 (js "2"))
              (exampleState None [mkPage 0 "a" false; mkPage 1 "b" true]
                 custom single 1 (js "2"))
              eq_refl eq_refl ltac:(discriminate) eq_refl eq_refl)
    as [_ [_ [_ [_ H]]]].
  destruct (H _ Hsel) as [st1' [st2' [E1 [E2 [Hsame [Hflags _]]]]]].
  exists st1', st2'. split; [exact E1 |]. split; [exact E2 |].
  assert (Hv : map selected (pages st1') = [false; true])
    by (rewrite Hflags; vm_compute; reflexivity).
  split; [exact Hv | now rewrite <- Hsame].
Defined.

(** ** Inputs without a valid token *)



Lemma whitespace_not_separator c :
  isWhiteSpace c = true -> (c =? comma)%N = false /\ (c =? dash)%N = false.
Proof.
  unfold isWhiteSpace, comma, dash. intros H.
  split; apply N.eqb_neq; intros ->; discriminate.
Qed.




(* ================================================================== *)
(** * Output assembly *)
(* ================================================================== *)

(** ** Decimal renderings are digits, and distinct for distinct numbers *)

Lemma digitString_string_of_uint d :
  digitString (NilEmpty.string_of_uint d) = true.
Proof. induction d; cbn; auto. Qed.

Lemma digitString_toString n : digitString (toString n) = true.
Proof. apply digitString_string_of_uint. Qed.

Lemma toString_injective n m : toString n = toString m -> n = m.
Proof.
  unfold toString. intros E.
  assert (E' : Some (Nat.to_uint n) = Some (Nat.to_uint m))
    by (rewrite <- !NilEmpty.usu, E; reflexivity).
  injection E' as E'.
  rewrite <- (DecimalNat.Unsigned.of_to n), <- (DecimalNat.Unsigned.of_to m).
  now rewrite E'.
Qed.

(** A run of digits followed by a non-digit determines the run. *)
Lemma digit_prefix_unique sep a :
  isDigitAscii sep = false ->
  forall b x y,
    digitString a = true -> digitString b = true ->
    (a ++ String sep x)%string = (b ++ String sep y)%string -> a = b.
Proof.
  intros Hsep. induction a as [| c a IH]; intros [| c' b] x y Ha Hb E;
    cbn in *.
  - reflexivity.
  - injection E as -> _. apply andb_prop in Hb as [Hb _]. congruence.
  - injection E as -> _. apply andb_prop in Ha as [Ha _]. congruence.
  - injection E as -> E. apply andb_prop in Ha as [_ Ha].
    apply andb_prop in Hb as [_ Hb]. f_equal. eapply IH; eassumption.
Qed.

Lemma partName_injective n k i j : partName n k i = partName n k j -> i = j.
Proof.
  unfold partName. cbn [append]. intros E. injection E as E.
  apply digit_prefix_unique in E;
    [| reflexivity | apply digitString_toString ..].
  apply toString_injective in E. lia.
Qed.

Lemma pageName_injective p q : pageName p = pageName q -> index p = index q.
Proof.
  unfold pageName. cbn [append]. intros E. injection E as E.
  apply digit_prefix_unique in E;
    [| reflexivity | apply digitString_toString ..].
  apply toString_injective in E. lia.
Qed.

(** ** Archives *)

Lemma zipFile_fresh name doc zip :
  ~ In name (map fst zip) -> zipFile name doc zip = zip ++ [(name, doc)].
Proof.
  induction zip as [| [name' doc'] rest IH]; intros Hfresh; [reflexivity |].
  cbn [zipFile map fst In] in *.
  destruct (String.eqb_spec name' name) as [-> | _]; [tauto |].
  cbn [app]. f_equal. apply IH. tauto.
Qed.

(** With distinct entry names, a loop of [zip.file] calls appends one entry
    per call. *)
Lemma fixedLoop_entries srcPages n k :
  forall todo zip,
    (forall i, In i todo -> (chunkEnd n k i <= srcPages)%nat) ->
    NoDup todo ->
    (forall i, In i todo -> ~ In (partName n k i) (map fst zip)) ->
    fixedLoop srcPages n k todo zip
    = Some (zip ++ map (fun i => (partName n k i, chunkIndices n k i)) todo).
Proof.
  induction todo as [| i rest IH]; intros zip Hsrc Hnd Hfresh.
  - cbn. now rewrite app_nil_r.
  - cbn [fixedLoop map]. unfold copyPages.
    assert (Hall : forallb (fun j => Nat.ltb j srcPages) (chunkIndices n k i)
                   = true).
    { apply forallb_forall. intros j Hj. apply Nat.ltb_lt.
      unfold chunkIndices in Hj. apply in_seq in Hj.
      specialize (Hsrc i (or_introl eq_refl)). lia. }
    rewrite Hall, zipFile_fresh by (apply Hfresh; now left).
    inversion Hnd as [| ? ? Hni Hnd']; subst.
    rewrite IH.
    + rewrite <- app_assoc. reflexivity.
    + intros j Hj. apply Hsrc. now right.
    + exact Hnd'.
    + intros j Hj. rewrite map_app, in_app_iff. cbn [map fst In].
      intros [Hin | [E | []]].
      * apply (Hfresh j); [now right | exact Hin].
      * apply partName_injective in E. congruence.
Qed.

Lemma separateLoop_entries srcPages :
  forall selectedPages zip,
    (forall p, In p selectedPages -> (index p < srcPages)%nat) ->
    NoDup (map index selectedPages) ->
    (forall p, In p selectedPages -> ~ In (pageName p) (map fst zip)) ->
    separateLoop srcPages selectedPages zip
    = Some (zip ++ map (fun p => (pageName p, [index p])) selectedPages).
Proof.
  induction selectedPages as [| p rest IH]; intros zip Hsrc Hnd Hfresh.
  - cbn. now rewrite app_nil_r.
  - cbn [separateLoop map]. unfold copyPages. cbn [forallb].
    assert (Hlt : Nat.ltb (index p) srcPages = true)
      by (apply Nat.ltb_lt, Hsrc; now left).
    rewrite Hlt. cbn [andb].
    rewrite zipFile_fresh by (apply Hfresh; now left).
    cbn [map] in Hnd. inversion Hnd as [| ? ? Hni Hnd']; subst.
    rewrite IH.
    + rewrite <- app_assoc. reflexivity.
    + intros q Hq. apply Hsrc. now right.
    + exact Hnd'.
    + intros q Hq. rewrite map_app, in_app_iff. cbn [map fst In].
      intros [Hin | [E | []]].
      * apply (Hfresh q); [now right | exact Hin].
      * apply pageName_injective in E. apply Hni. rewrite E.
        apply in_map. exact Hq.
Qed.

Lemma NoDup_map_injective {A B} (f : A -> B) l :
  (forall x y, f x = f y -> x = y) -> NoDup l -> NoDup (map f l).
Proof.
  intros Hinj. induction 1 as [| a l Hni _ IH]; cbn; constructor; auto.
  intros Hin. apply in_map_iff in Hin as [x [E Hx]].
  apply Hinj in E. congruence.
Qed.

Lemma NoDup_map_injective_on {A B C} (f : A -> B) (g : A -> C) l :
  (forall x y, f x = f y -> g x = g y) -> NoDup (map g l) -> NoDup (map f l).
Proof.
  intros Hinj. induction l as [| a l IH]; cbn; intros H; [constructor |].
  inversion H as [| ? ? Hni Hnd]; subst. constructor; [| apply IH, Hnd].
  intros Hin. apply in_map_iff in Hin as [x [E Hx]].
  apply Hinj in E. apply Hni. rewrite <- E. now apply in_map.
Qed.

Lemma NoDup_map_filter {A B} (f : A -> B) (p : A -> bool) l :
  NoDup (map f l) -> NoDup (map f (filter p l)).
Proof.
  induction l as [| a l IH]; cbn; intros H; [constructor |].
  inversion H as [| ? ? Hni Hnd]; subst.
  destruct (p a); cbn; [constructor |]; auto.
  intros Hin. apply Hni. apply in_map_iff in Hin as [x [E Hx]].
  apply filter_In in Hx as [Hx _]. rewrite <- E. now apply in_map.
Qed.

(** Pages built by [loadPDF] have distinct indices, all below the page count. *)
Lemma loadedPages_indices totalPages render :
  NoDup (map index (loadedPages totalPages render))
  /\ forall p, In p (loadedPages totalPages render) ->
               (index p < totalPages)%nat.
Proof.
  unfold loadedPages.
  assert (H : forall len start, (1 <= start)%nat ->
            let ps := flat_map (fun i => match render i with
                                         | Some url => [mkPage (i - 1) url false]
                                         | None => []
                                         end) (seq start len) in
            NoDup (map index ps)
            /\ forall p, In p ps ->
                 (start - 1 <= index p < start - 1 + len)%nat).
  { induction len as [| len IH]; intros start Hstart; cbn zeta.
    - cbn. split; [constructor | tauto].
    - cbn [seq flat_map]. destruct (IH (S start) ltac:(lia)) as [Hnd Hin].
      cbn zeta in Hnd, Hin.
      destruct (render start) as [url |]; cbn [app map index].
      + split.
        * constructor; [| exact Hnd].
          intros Hc. apply in_map_iff in Hc as [p [E Hp]].
          apply Hin in Hp. lia.
        * intros p [<- | Hp]; [cbn; lia |]. apply Hin in Hp. lia.
      + split; [exact Hnd |]. intros p Hp. apply Hin in Hp. lia. }
  destruct (H totalPages 1%nat ltac:(lia)) as [Hnd Hin]. cbn zeta in *.
  split; [exact Hnd |]. intros p Hp. apply Hin in Hp. lia.
Qed.

(** ** The three output shapes *)

(** On Numbers, the bounds of chunk [i] of the loop, [i * fixedRange] and
    [Math.min(start + fixedRange, pages.length)], and the length [end - start]
    given to [Array.from], are those of [chunkStart], [chunkEnd] and
    [chunkIndices], for a page count below 2^53 and every finite Number in
    the cell (the sum may be rounded, or infinite, only where it exceeds the
    page count). *)
Lemma chunk_bounds_as_Number n p i :
  Z.of_nat n < 2 ^ 53 -> isNumber (Pages p) ->
  (i < chunkCount n (Pos.to_nat p))%nat ->
  let k := Pos.to_nat p in
  mul (of_nat i) (numberOf (Pages p)) = of_nat (chunkStart k i)
  /\ min (add (of_nat (chunkStart k i)) (numberOf (Pages p))) (of_nat n)
     = of_nat (chunkEnd n k i)
  /\ sub (of_nat (chunkEnd n k i)) (of_nat (chunkStart k i))
     = of_nat (length (chunkIndices n k i)).
Proof.
  intros Hn Hc Hi k. pose proof unit_scale_pos as HU.
  assert (Hk : (1 <= k)%nat) by (unfold k; pose proof (Pos2Nat.is_pos p); lia).
  assert (Hkp : Z.of_nat k = Z.pos p) by (unfold k; apply positive_nat_Z).
  pose proof (chunkCount_ceiling n k Hk) as [Hlo Hhi]. fold k in Hi.
  assert (Hstart : (i * k < n)%nat) by nia.
  unfold chunkEnd, chunkStart. cbn [numberOf].
  split; [| split].
  - unfold of_nat at 1. unfold of_Z. cbn [mul].
    replace (Z.of_nat i * unit_scale <? 0) with false
      by (symmetry; apply Z.ltb_ge; nia).
    replace (Z.pos p * unit_scale <? 0) with false
      by (symmetry; apply Z.ltb_ge; nia).
    cbn [xorb]. rewrite !Z.abs_eq by nia.
    replace (Z.of_nat i * unit_scale * (Z.pos p * unit_scale))
      with (Z.of_nat (i * k) * unit_scale * unit_scale)
      by (rewrite Nat2Z.inj_mul, Hkp; ring).
    rewrite round_scale by lia. rewrite round_exact by lia. reflexivity.
  - rewrite <- Hkp. unfold of_nat at 1. unfold of_Z at 1 2. cbn [add].
    replace (Z.of_nat (i * k) * unit_scale + Z.of_nat k * unit_scale)
      with (Z.of_nat (i * k + k) * unit_scale)
      by (rewrite Nat2Z.inj_add; ring).
    destruct (Z.le_gt_cases (Z.of_nat (i * k + k)) (2 ^ 53)) as [Hfit | Hbig].
    + rewrite round_Z_exact by lia.
      change (of_Z (Z.of_nat (i * k + k))) with (of_nat (i * k + k)).
      apply min_of_nat.
    + unfold round_Z.
      replace (Z.of_nat (i * k + k) * unit_scale <? 0) with false
        by (symmetry; apply Z.ltb_ge; nia).
      rewrite Z.abs_eq by nia.
      rewrite (Nat.min_r (i * k + k) n) by lia.
      destruct (round_large (Z.of_nat (i * k + k)) ltac:(lia))
        as [-> | [r [Hr ->]]]; [reflexivity |].
      unfold min, of_nat, of_Z. cbn [le].
      replace (r <=? Z.of_nat n * unit_scale) with false
        by (symmetry; apply Z.leb_gt; nia).
      reflexivity.
  - unfold chunkIndices, chunkEnd, chunkStart. rewrite length_seq.
    apply sub_of_nat; lia.
Qed.

Lemma fixedArchive_entries srcPages n c :
  (n <= srcPages)%nat ->
  fixedArchive srcPages n c
  = Some (match c with
          | Pages p =>
              map (fun i => (partName n (Pos.to_nat p) i,
                             chunkIndices n (Pos.to_nat p) i))
                  (seq 0 (chunkCount n (Pos.to_nat p)))
          | Unbounded => []
          end).
Proof.
  intros Hsrc. destruct c as [p |]; [| reflexivity].
  unfold fixedArchive. rewrite fixedLoop_entries.
  - reflexivity.
  - intros i _. unfold chunkEnd. lia.
  - apply seq_NoDup.
  - intros i _ [].
Qed.

(** C7. In fixed-size split mode, processing a loaded document produces one
    document per chunk and bundles them into an archive, whatever the number
    of chunks, [Math.ceil(pages.length / fixedRange)]: a single chunk too,
    and also none (a chunk size of +Infinity). For a finite chunk size [k]
    the entry of chunk [i + 1], which holds the 1-based pages
    [i * k + 1 .. min (i * k + k) n], is named
    part_<i+1>_pages_<i*k+1>-<min (i*k+k) n> (with the extension .pdf); the
    names are distinct and no notice is shown. *)
Theorem process_fixed_archive
  (timestamp : nat) (st : State) (f : File) (srcPages : nat) :
  file st = Some f -> pageCount f = Some srcPages ->
  (length (pages st) <= srcPages)%nat ->
  mode st = fixed ->
  let n := length (pages st) in
  let entriesOf (k : nat) :=
    map (fun i =>
           (("part_" ++ toString (i + 1) ++ "_pages_" ++ toString (i * k + 1)
             ++ "-" ++ toString (Nat.min (i * k + k) n) ++ ".pdf")%string,
            seq (i * k) (Nat.min (i * k + k) n - i * k)))
        (seq 0 (chunkCount n k)) in
  let entries :=
    match fixedRange st with
    | Pages p => entriesOf (Pos.to_nat p)
    | Unbounded => []
    end in
  processPDF timestamp st
  = (setIsProcessing false
       (setResult (ZipBlob entries)
          ("split_fixed_" ++ toString timestamp ++ ".zip") st), [])
  /\ length entries = chunkCountOf n (fixedRange st)
  /\ (Z.of_nat n < 2 ^ 53 -> isNumber (fixedRange st) ->
      ceil (div (of_nat n) (numberOf (fixedRange st)))
      = of_nat (length entries))
  /\ NoDup (map fst entries)
  /\ (forall p, fixedRange st = Pages p ->
        map snd entries = fixedGroups n (Pos.to_nat p)
        /\ concat (map snd entries) = seq 0 n
        /\ ((1 <= n)%nat -> (n <= Pos.to_nat p)%nat ->
            entries = [(("part_1_pages_1-" ++ toString n ++ ".pdf")%string,
                        seq 0 n)])).
Proof.
  intros Hfile Hload Hsrc Hmode n entriesOf entries.
  assert (HentriesOf : forall k,
    entriesOf k = map (fun i => (partName n k i, chunkIndices n k i))
                      (seq 0 (chunkCount n k))) by reflexivity.
  assert (Hlen : length entries = chunkCountOf n (fixedRange st)).
  { unfold entries, entriesOf. destruct (fixedRange st) as [p |];
      [| reflexivity].
    now rewrite length_map, length_seq. }
  split; [| split; [exact Hlen | split; [| split]]].
  - unfold processPDF. rewrite Hfile. unfold processBody. rewrite Hload.
    cbn [mode setIsProcessing pages fixedRange]. rewrite Hmode.
    fold n. rewrite (fixedArchive_entries srcPages n _ Hsrc).
    unfold entries. destruct (fixedRange st) as [p |];
      [rewrite HentriesOf |]; reflexivity.
  - intros Hn Hc. rewrite Hlen. now apply chunkCountOf_as_Number.
  - unfold entries. destruct (fixedRange st) as [p |]; [| constructor].
    rewrite HentriesOf, map_map. cbn [fst].
    apply NoDup_map_injective; [| apply seq_NoDup].
    intros i j. apply partName_injective.
  - intros p Hp. unfold entries. rewrite Hp.
    pose proof (Pos2Nat.is_pos p) as Hk.
    assert (Hgroups : map snd (entriesOf (Pos.to_nat p))
                      = fixedGroups n (Pos.to_nat p))
      by (unfold entriesOf, fixedGroups; rewrite map_map; reflexivity).
    split; [exact Hgroups |]. split.
    + rewrite Hgroups. apply concat_fixedGroups. lia.
    + intros Hn Hnk. unfold entriesOf.
      assert (Hone : chunkCount n (Pos.to_nat p) = 1%nat).
      { pose proof (chunkCount_ceiling n (Pos.to_nat p) ltac:(lia)). nia. }
      rewrite Hone. cbn [seq map Nat.mul Nat.add].
      rewrite (Nat.min_r (Pos.to_nat p) n) by lia.
      rewrite Nat.sub_0_r. reflexivity.
Qed.

Lemma process_fixed_archive_witness :
  resultUrl (fst (processPDF 0
     (exampleState (Some (mkFile (Some 2%nat)))
        [mkPage 0 "a" false; mkPage 1 "b" false] fixed single 5 [])))
  = Some (ZipBlob [("part_1_pages_1-2.pdf"%string, [0; 1]%nat)]).
Proof.
  destruct (process_fixed_archive 0
              (exampleState (Some (mkFile (Some 2%nat)))
                 [mkPage 0 "a" false; mkPage 1 "b" false] fixed single 5 [])
              (mkFile (Some 2%nat)) 2
              eq_refl eq_refl ltac:(cbn; lia) eq_refl)
    as [E _].
  rewrite E. reflexivity.
Defined.

(** C8. In custom mode with separate output, processing a loaded document
    with a non-empty selection produces an archive with exactly one entry per
    selected page, each a one-page document, the entry of the page of
    zero-based index [i] being named page_<i+1> (with the extension .pdf).
    Page indices are distinct, as [loadPDF] builds them, and are pages of the
    loaded document. *)
Theorem process_separate_archive
  (timestamp : nat) (st : State) (f : File) (srcPages : nat) :
  file st = Some f -> pageCount f = Some srcPages ->
  mode st = custom -> outputMode st = separate ->
  NoDup (map index (pages st)) ->
  (forall p, In p (pages st) -> selected p = true ->
             (index p < srcPages)%nat) ->
  filter selected (pages st) <> [] ->
  let selectedPages := filter selected (pages st) in
  let entries :=
    map (fun p => (("page_" ++ toString (index p + 1) ++ ".pdf")%string,
                   [index p])) selectedPages in
  processPDF timestamp st
  = (setIsProcessing false
       (setResult (ZipBlob entries)
          ("extracted_pages_" ++ toString timestamp ++ ".zip") st), [])
  /\ length entries = length selectedPages
  /\ NoDup (map fst entries).
Proof.
  intros Hfile Hload Hmode Hout Hnd Hsrc Hsel selectedPages entries.
  assert (Hnd' : NoDup (map index selectedPages))
    by (apply NoDup_map_filter, Hnd).
  assert (Hsrc' : forall q, In q selectedPages -> (index q < srcPages)%nat).
  { intros q Hq. apply filter_In in Hq as [Hq Hs]. now apply Hsrc. }
  assert (Hloop : separateLoop srcPages selectedPages []
                  = Some (map (fun p => (pageName p, [index p]))
                              selectedPages)).
  { rewrite separateLoop_entries; [reflexivity | exact Hsrc' | exact Hnd' |].
    intros q _ []. }
  split; [| split].
  - unfold processPDF. rewrite Hfile. unfold processBody. rewrite Hload.
    cbn [mode setIsProcessing pages outputMode]. rewrite Hmode, Hout.
    fold selectedPages. rewrite Hloop.
    unfold entries. change (selectedPages <> []) in Hsel.
    clearbody selectedPages.
    destruct selectedPages; [contradiction | reflexivity].
  - unfold entries. apply length_map.
  - unfold entries. rewrite map_map. cbn [fst].
    apply (NoDup_map_injective_on pageName index); [| exact Hnd'].
    intros p q. apply pageName_injective.
Qed.

Lemma process_separate_archive_witness :
  resultUrl (fst (processPDF 0
     (exampleState (Some (mkFile (Some 3%nat)))
        [mkPage 0 "a" true; mkPage 1 "b" false; mkPage 2 "c" true]
        custom separate 1 [])))
  = Some (ZipBlob [("page_1.pdf"%string, [0%nat]);
                   ("page_3.pdf"%string, [2%nat])]).
Proof.
  set (st := exampleState (Some (mkFile (Some 3%nat)))
        [mkPage 0 "a" true; mkPage 1 "b" false; mkPage 2 "c" true]
        custom separate 1 []).
  assert (Hnd : NoDup (map index (pages st))).
  { cbn. repeat constructor; cbn; intuition discriminate. }
  assert (Hsrc : forall p, In p (pages st) -> selected p = true ->
                           (index p < 3)%nat).
  { cbn. intros p [<- | [<- | [<- | []]]] _; cbn; lia. }
  destruct (process_separate_archive 0 st (mkFile (Some 3%nat)) 3
              eq_refl eq_refl eq_refl eq_refl Hnd Hsrc
              ltac:(cbn; discriminate)) as [E _].
  rewrite E. reflexivity.
Defined.

(** C5 (as amended). In custom mode with no page selected, [processPDF] on a
    document that loads ends silently: no notice is shown, no result is
    produced and the selection is kept; the state is the one before the call
    with the processing flag cleared. A notice appears on this path only when
    the document fails to load, and nothing at all happens without a file.
    The button that calls [processPDF] is disabled in such a state. *)
Theorem process_empty_selection (timestamp : nat) (st : State) :
  mode st = custom -> filter selected (pages st) = [] ->
  processDisabled st = true
  /\ (forall f srcPages,
        file st = Some f -> pageCount f = Some srcPages ->
        processPDF timestamp st = (setIsProcessing false st, []))
  /\ (forall f,
        file st = Some f -> pageCount f = None ->
        processPDF timestamp st
        = (setIsProcessing false st,
           [ConsoleError "Error splitting PDF";
            Alert "Failed to process pages."]))
  /\ (file st = None -> processPDF timestamp st = (st, []))
  /\ resultUrl (fst (processPDF timestamp st)) = resultUrl st
  /\ pages (fst (processPDF timestamp st)) = pages st
  /\ (isProcessing st = false ->
      fst (processPDF timestamp st) = st).
Proof.
  intros Hmode Hsel.
  assert (Hok : forall f srcPages,
            file st = Some f -> pageCount f = Some srcPages ->
            processPDF timestamp st = (setIsProcessing false st, [])).
  { intros f srcPages Hfile Hload. unfold processPDF. rewrite Hfile.
    unfold processBody. rewrite Hload.
    cbn [mode setIsProcessing pages]. rewrite Hmode, Hsel. reflexivity. }
  assert (Hfail : forall f,
            file st = Some f -> pageCount f = None ->
            processPDF timestamp st
            = (setIsProcessing false st,
               [ConsoleError "Error splitting PDF";
                Alert "Failed to process pages."])).
  { intros f Hfile Hload. unfold processPDF. rewrite Hfile.
    unfold processBody. rewrite Hload. reflexivity. }
  assert (Hnone : file st = None -> processPDF timestamp st = (st, [])).
  { intros Hfile. unfold processPDF. rewrite Hfile. reflexivity. }
  assert (Hfst : fst (processPDF timestamp st) = setIsProcessing false st
                 \/ fst (processPDF timestamp st) = st).
  { destruct (file st) as [f |] eqn:Hfile.
    - left. destruct (pageCount f) as [srcPages |] eqn:Hload.
      + now rewrite (Hok f srcPages).
      + now rewrite (Hfail f).
    - right. now rewrite Hnone. }
  split; [| split; [| split; [| split; [| split; [| split]]]]];
    try assumption.
  - unfold processDisabled. rewrite Hmode, Hsel. cbn. apply orb_true_r.
  - destruct Hfst as [-> | ->]; reflexivity.
  - destruct Hfst as [-> | ->]; reflexivity.
  - intros Hflag. destruct Hfst as [-> | ->]; [| reflexivity].
    destruct st; cbn in *. now subst.
Qed.

Lemma process_empty_selection_witness :
  processPDF 0 (exampleState (Some (mkFile (Some 1%nat)))
                  [mkPage 0 "a" false] custom single 1 [])
  = (exampleState (Some (mkFile (Some 1%nat)))
       [mkPage 0 "a" false] custom single 1 [], []).
Proof.
  destruct (process_empty_selection 0
              (exampleState (Some (mkFile (Some 1%nat)))
                 [mkPage 0 "a" false] custom single 1 [])
              eq_refl eq_refl) as [_ [H _]].
  exact (H (mkFile (Some 1%nat)) 1%nat eq_refl eq_refl).
Defined.

(** C5 as stated fails: with a one-page document that loads and nothing
    selected, [processPDF] shows no notice. *)
Lemma process_empty_selection_no_notice :
  mode (exampleState (Some (mkFile (Some 1%nat)))
          [mkPage 0 "a" false] custom single 1 []) = custom
  /\ filter selected (pages (exampleState (Some (mkFile (Some 1%nat)))
                               [mkPage 0 "a" false] custom single 1 [])) = []
  /\ ~ (exists msg,
          In (Alert msg)
             (snd (processPDF 0
                     (exampleState (Some (mkFile (Some 1%nat)))
                        [mkPage 0 "a" false] custom single 1 [])))).
Proof.
  split; [reflexivity | split; [reflexivity |]]. intros [msg H]. exact H.
Qed.

(* ================================================================== *)
(** * Selection handlers *)
(* ================================================================== *)

Lemma setPages_same f st : f (pages st) = pages st -> setPages f st = st.
Proof. unfold setPages. intros ->. destruct st; reflexivity. Qed.

Lemma setPages_setPages f g st :
  setPages f (setPages g st) = setPages (fun ps => f (g ps)) st.
Proof. reflexivity. Qed.

Lemma setPages_ext f g st :
  f (pages st) = g (pages st) -> setPages f st = setPages g st.
Proof. unfold setPages. intros ->. reflexivity. Qed.

Lemma togglePageSelection_custom i st :
  mode st = custom ->
  togglePageSelection i st = setPages (map (toggled i)) st.
Proof. intros H. unfold togglePageSelection. rewrite H. reflexivity. Qed.

Lemma togglePageSelection_fixed i st :
  mode st = fixed -> togglePageSelection i st = st.
Proof. intros H. unfold togglePageSelection. rewrite H. reflexivity. Qed.

Lemma toggled_toggled i p : toggled i (toggled i p) = p.
Proof.
  unfold toggled. destruct (Nat.eqb (index p) i) eqn:E.
  - cbn [setSelected index]. rewrite E. destruct p as [ix url b].
    cbn. now rewrite negb_involutive.
  - now rewrite E.
Qed.

Lemma toggled_comm i j p : toggled i (toggled j p) = toggled j (toggled i p).
Proof.
  unfold toggled.
  destruct (Nat.eqb (index p) i) eqn:Ei, (Nat.eqb (index p) j) eqn:Ej;
    cbn [setSelected index selected]; rewrite ?Ei, ?Ej;
    cbn [setSelected index selected]; reflexivity.
Qed.

Lemma resetResult_setPages f st :
  resetResult (setPages f st) = setPages f (resetResult st).
Proof. reflexivity. Qed.

Lemma togglePageSelection_resetResult i st :
  togglePageSelection i (resetResult st)
  = resetResult (togglePageSelection i st).
Proof.
  unfold togglePageSelection. cbn [mode resetResult].
  destruct (Mode_eqb (mode st) fixed); reflexivity.
Qed.

Lemma resetResult_twice st : resetResult (resetResult st) = resetResult st.
Proof. reflexivity. Qed.

(** X1. A click on a page is followed, in custom mode, by the effect that
    discards the result. Two clicks on the same page restore every cell but
    the result: the state is the one before with the result cleared; one
    click flips the flag of the pages of that index, leaves every other
    flag, the indices and the thumbnails as they were, and already clears
    the result. In fixed mode a click changes nothing, the result
    included. *)
Theorem clickPage_twice (i : nat) (st : State) :
  clickPage i (clickPage i st)
  = (if Mode_eqb (mode st) fixed then st else resetResult st)
  /\ (mode st = custom ->
      resultUrl (clickPage i st) = None
      /\ map index (pages (clickPage i st)) = map index (pages st)
      /\ map imageUrl (pages (clickPage i st)) = map imageUrl (pages st)
      /\ map selected (pages (clickPage i st))
         = map (fun p => if Nat.eqb (index p) i
                         then negb (selected p) else selected p)
               (pages st))
  /\ (mode st = fixed -> clickPage i st = st).
Proof.
  split; [| split].
  - unfold clickPage. destruct (mode st) eqn:Hmode; cbn [Mode_eqb].
    + assert (Hmode' : mode (resetResult (togglePageSelection i st)) = custom).
      { rewrite (togglePageSelection_custom i st Hmode). exact Hmode. }
      rewrite Hmode'. cbn [Mode_eqb].
      rewrite togglePageSelection_resetResult, resetResult_twice.
      f_equal. rewrite (togglePageSelection_custom i st Hmode).
      rewrite togglePageSelection_custom by exact Hmode.
      rewrite setPages_setPages. apply setPages_same.
      rewrite map_map. rewrite <- (map_id (pages st)) at 2.
      apply map_ext. apply toggled_toggled.
    + rewrite Hmode. reflexivity.
  - intros Hmode. unfold clickPage. rewrite Hmode. cbn [Mode_eqb].
    rewrite (togglePageSelection_custom i st Hmode).
    cbn [resetResult resultUrl pages]. rewrite pages_setPages, !map_map.
    split; [reflexivity |].
    repeat split; apply map_ext; intros p; unfold toggled;
      destruct (Nat.eqb (index p) i); reflexivity.
  - intros Hmode. unfold clickPage. now rewrite Hmode.
Qed.

(** X2. Clicks commute: the state after clicking two pages does not depend
    on the order of the clicks. *)
Theorem togglePageSelection_commute (i j : nat) (st : State) :
  togglePageSelection i (togglePageSelection j st)
  = togglePageSelection j (togglePageSelection i st).
Proof.
  destruct (mode st) eqn:Hmode.
  - rewrite (togglePageSelection_custom j st Hmode).
    rewrite (togglePageSelection_custom i st Hmode).
    rewrite !togglePageSelection_custom by exact Hmode.
    rewrite !setPages_setPages. apply setPages_ext.
    rewrite !map_map. apply map_ext. apply toggled_comm.
  - rewrite (togglePageSelection_fixed j st Hmode).
    rewrite (togglePageSelection_fixed i st Hmode).
    now rewrite (togglePageSelection_fixed j st Hmode).
Qed.

Lemma filter_selected_all b ps :
  filter selected (map (setSelected b) ps)
  = if b then map (setSelected true) ps else [].
Proof.
  induction ps as [| p ps IH]; [now destruct b |].
  cbn [map filter setSelected selected]. rewrite IH. now destruct b.
Qed.

(** X3. "Select all" and "deselect all" override whatever was selected: after
    any click or any earlier select-all the result is the same; every page,
    respectively no page, is then selected, so that after "deselect all" the
    button that starts the processing is disabled in custom mode. *)
Theorem selectAll_overrides (b : bool) (st : State) :
  (forall i, selectAll b (togglePageSelection i st) = selectAll b st)
  /\ (forall b', selectAll b (selectAll b' st) = selectAll b st)
  /\ (forall fuel st', applyRange fuel st = Some st' ->
                       selectAll b st' = selectAll b st)
  /\ selectedCount (selectAll b st)
     = (if b then length (pages st) else 0%nat)
  /\ map index (pages (selectAll b st)) = map index (pages st)
  /\ (mode st = custom -> processDisabled (selectAll false st) = true).
Proof.
  assert (Hset : forall f,
            (forall p, setSelected b (f p) = setSelected b p) ->
            selectAll b (setPages (map f) st) = selectAll b st).
  { intros f Hf. unfold selectAll. rewrite setPages_setPages.
    apply setPages_ext. rewrite map_map. apply map_ext. exact Hf. }
  split; [| split; [| split; [| split; [| split]]]].
  - intros i. unfold togglePageSelection.
    destruct (Mode_eqb (mode st) fixed); [reflexivity |].
    apply Hset. intros p. destruct (Nat.eqb (index p) i); reflexivity.
  - intros b'. apply (Hset (setSelected b')). reflexivity.
  - intros fuel st' H. unfold applyRange in H.
    destruct (rangeInput st); [now injection H as <- |].
    destruct (Mode_eqb (mode st) fixed); [now injection H as <- |].
    destruct (parseRange fuel (length (pages st)) (n :: j)) as [sel |];
      [| discriminate].
    injection H as <-. apply Hset. reflexivity.
  - unfold selectedCount, selectAll. rewrite pages_setPages.
    rewrite filter_selected_all. destruct b; [apply length_map | reflexivity].
  - unfold selectAll. rewrite pages_setPages, map_map. reflexivity.
  - intros Hmode. unfold processDisabled, selectAll.
    rewrite pages_setPages, filter_selected_all.
    cbn [mode setPages]. rewrite Hmode. apply orb_true_r.
Qed.

Lemma selectAll_overrides_witness :
  mode (exampleState None [mkPage 0 "a" true] custom single 1 []) = custom
  /\ processDisabled
       (selectAll false
          (exampleState None [mkPage 0 "a" true] custom single 1 []))
     = true.
Proof.
  split; [reflexivity |].
  apply (selectAll_overrides false
           (exampleState None [mkPage 0 "a" true] custom single 1 [])).
  reflexivity.
Defined.

Lemma clickPage_twice_witness :
  mode (mkState None [mkPage 0 "a" true; mkPage 1 "b" false] custom single
          (Pages 1) false false [] 100 (Some (PdfBlob [0%nat])) "x.pdf")
  = custom
  /\ map selected
       (pages (clickPage 1
                 (mkState None [mkPage 0 "a" true; mkPage 1 "b" false]
                    custom single (Pages 1) false false [] 100
                    (Some (PdfBlob [0%nat])) "x.pdf")))
     = [true; true]
  /\ resultUrl
       (clickPage 1
          (mkState None [mkPage 0 "a" true; mkPage 1 "b" false]
             custom single (Pages 1) false false [] 100
             (Some (PdfBlob [0%nat])) "x.pdf"))
     = None.
Proof.
  destruct (clickPage_twice 1
              (mkState None [mkPage 0 "a" true; mkPage 1 "b" false]
                 custom single (Pages 1) false false [] 100
                 (Some (PdfBlob [0%nat])) "x.pdf"))
    as [_ [H _]].
  destruct (H eq_refl) as [Hres [_ [_ Hsel]]].
  split; [reflexivity |]. split; [rewrite Hsel; reflexivity | exact Hres].
Defined.

(* ================================================================== *)
(** * More on [applyRange] *)
(* ================================================================== *)

(** X4. Applying the same range again changes nothing: a state that
    [applyRange] returned is returned again as it is. *)
Theorem applyRange_idempotent (fuel : nat) (st st' : State) :
  applyRange fuel st = Some st' -> applyRange fuel st' = Some st'.
Proof.
  unfold applyRange. intros H.
  destruct (rangeInput st) as [| c r] eqn:Hinput.
  { injection H as <-. now rewrite Hinput. }
  destruct (Mode_eqb (mode st) fixed) eqn:Hmode.
  { injection H as <-. now rewrite Hinput, Hmode. }
  destruct (parseRange fuel (length (pages st)) (c :: r)) as [sel |] eqn:Hsel;
    [| discriminate].
  injection H as <-.
  cbn [rangeInput mode pages setPages]. rewrite Hinput, Hmode.
  rewrite length_map, Hsel. f_equal.
  rewrite setPages_setPages. apply setPages_ext.
  rewrite map_map. apply map_ext. reflexivity.
Qed.

Lemma applyRange_idempotent_witness :
  exists st',
    applyRange 10 (exampleState None [mkPage 0 "a" true; mkPage 1 "b" false]
                     custom single 1 (js "2-9")) = Some st'
    /\ map selected (pages st') = [false; true]
    /\ applyRange 10 st' = Some st'.
Proof.
  eexists. split; [vm_compute; reflexivity |].
  split; [reflexivity |].
  apply (applyRange_idempotent 10
           (exampleState None [mkPage 0 "a" true; mkPage 1 "b" false]
              custom single 1 (js "2-9"))).
  vm_compute. reflexivity.
Defined.

(** Every element of the parsed set has an origin that passed the guard. *)
Lemma parseRange_origin fuel n input sel :
  parseRange fuel n input = Some sel ->
  forall x, In x sel -> exists v, pageOrigin n x v.
Proof.
  intros Hparse. unfold parseRange in Hparse.
  assert (Hany : Forall (fun part =>
                   Forall (fun _ : number => True)
                          (map Number (split dash (trim part))))
                 (split comma input)).
  { apply Forall_forall. intros part _. apply Forall_forall.
    intros; exact I. }
  assert (Hguard : forall v, True ->
            lt zero v && le v (of_nat n) = true ->
            exists v0, pageOrigin n (sub v one) v0).
  { intros v _ Hv. apply andb_prop in Hv as [H1 H2]. exists v.
    split; [exact H1 | split; [exact H2 | reflexivity]]. }
  assert (Hnil : goodSet (fun x => exists v, pageOrigin n x v) []).
  { split; [constructor | intros x []]. }
  exact (proj2 (forEachPart_good (of_nat n) (fun _ => True)
                  (fun x => exists v, pageOrigin n x v)
                  (fun _ _ => I) (fun _ _ _ _ => I) Hguard
                  fuel (split comma input) Hany [] sel Hparse Hnil)).
Qed.

(** X5. [applyRange] compares page numbers with the number of previews, not
    with the page indices: a preview whose index is not below the number of
    previews (there are such when [loadPDF] skipped a thumbnail) is never
    selected by a range, whatever the input. *)
Theorem applyRange_beyond_count
  (fuel : nat) (st st' : State) (p : PagePreview) :
  mode st = custom -> rangeInput st <> [] ->
  Z.of_nat (length (pages st)) <= 2 ^ 53 ->
  applyRange fuel st = Some st' ->
  In p (pages st') -> (length (pages st) <= index p)%nat ->
  selected p = false.
Proof.
  intros Hmode Hinput Hn Happly Hp Hbeyond.
  rewrite (applyRange_custom fuel st Hmode Hinput) in Happly.
  destruct (parseRange fuel (length (pages st)) (rangeInput st))
    as [sel |] eqn:Hsel; [| discriminate].
  injection Happly as <-. rewrite pages_setPages in Hp.
  apply in_map_iff in Hp as [q [<- Hq]]. cbn [setSelected selected index] in *.
  apply has_false_notin. intros Hin.
  destruct (parseRange_origin _ _ _ _ Hsel _ Hin) as [v Hv].
  destruct (pageOrigin_bounds _ _ _ Hn Hv) as [_ [Hup _]].
  unfold of_nat in Hup. rewrite le_of_Z in Hup. apply Z.leb_le in Hup. lia.
Qed.

Lemma applyRange_beyond_count_witness :
  pages (fst (loadPDF (mkFile (Some 2%nat))
                (Some (mkPdfJs 2 (fun i => match i with
                                           | 1%nat => Skipped
                                           | _ => Rendered "u"
                                           end)))
                (exampleState None [] custom single 1 [])))
  = [mkPage 1 "u" false]
  /\ forall fuel st',
       applyRange fuel (exampleState None [mkPage 1 "u" false] custom single 1
                          (js "1-2")) = Some st' ->
       forall p, In p (pages st') -> selected p = false.
Proof.
  split; [reflexivity |]. intros fuel st' H p Hp.
  assert (Hne : rangeInput (exampleState None [mkPage 1 "u" false] custom
                              single 1 (js "1-2")) <> [])
    by discriminate.
  apply (applyRange_beyond_count fuel
           (exampleState None [mkPage 1 "u" false] custom single 1
              (js "1-2"))
           st' p eq_refl Hne ltac:(cbn; lia) H Hp).
  rewrite (applyRange_custom fuel
             (exampleState None [mkPage 1 "u" false] custom single 1
                (js "1-2")) eq_refl Hne) in H.
  destruct (parseRange fuel _ _); [| discriminate]. injection H as <-.
  destruct Hp as [<- | []]. cbn. lia.
Defined.

(** ** What a range token selects *)

Lemma has_indexRange lo hi n j :
  has (of_nat j) (indexRange lo hi n) = true
  <-> (lo <= j + 1 <= hi /\ j + 1 <= n)%nat.
Proof.
  unfold indexRange. rewrite has_In, in_map_iff. split.
  - intros [i [E Hi]]. apply of_nat_injective in E. subst i.
    apply in_seq in Hi. lia.
  - intros H. exists j. split; [reflexivity |]. apply in_seq. lia.
Qed.

(** X6. The token [a-b] (numbers below 2^53, in either order) selects
    exactly the previews whose page number [index + 1] lies between the two
    numbers and does not exceed the number of previews; [applyRange] returns.
    So on a document whose [n] pages all have a preview, "1-n" does what
    "select all" does. *)
Theorem applyRange_rangeToken (a b : nat) (st : State) :
  mode st = custom -> rangeInput st = rangeToken a b ->
  Z.of_nat a < 2 ^ 53 -> Z.of_nat b < 2 ^ 53 ->
  exists fuel st',
    applyRange fuel st = Some st'
    /\ map index (pages st') = map index (pages st)
    /\ (forall p, In p (pages st') ->
          (selected p = true <->
           (Nat.min a b <= index p + 1 <= Nat.max a b
            /\ index p + 1 <= length (pages st))%nat))
    /\ (a = 1%nat -> b = length (pages st) ->
        map index (pages st) = seq 0 (length (pages st)) ->
        st' = selectAll true st).
Proof.
  intros Hmode Hinput Ha Hb.
  assert (Hne : rangeInput st <> []).
  { rewrite Hinput. unfold rangeToken. intros E.
    apply (f_equal (@length N)) in E. rewrite length_app in E.
    cbn in E. lia. }
  exists (S (Nat.max a b + 1 - Nat.min a b)). eexists.
  rewrite (applyRange_custom _ st Hmode Hne), Hinput.
  rewrite parseRange_rangeToken by assumption.
  split; [reflexivity |]. rewrite pages_setPages.
  split; [apply map_index_replaced | split].
  - intros p Hp. apply in_map_iff in Hp as [q [<- Hq]].
    cbn [setSelected selected index]. apply has_indexRange.
  - intros -> -> Hidx. unfold selectAll. apply setPages_ext.
    apply map_ext_in. intros p Hp. f_equal.
    apply has_indexRange.
    assert (Hin : In (index p) (map index (pages st)))
      by now apply in_map.
    rewrite Hidx in Hin. apply in_seq in Hin. lia.
Qed.

Lemma applyRange_rangeToken_witness :
  exists fuel,
    applyRange fuel (exampleState None
                       [mkPage 0 "a" false; mkPage 1 "b" false]
                       custom single 1 (rangeToken 1 2))
    = Some (selectAll true
              (exampleState None [mkPage 0 "a" false; mkPage 1 "b" false]
                 custom single 1 (rangeToken 1 2))).
Proof.
  destruct (applyRange_rangeToken 1 2
              (exampleState None [mkPage 0 "a" false; mkPage 1 "b" false]
                 custom single 1 (rangeToken 1 2))
              eq_refl eq_refl ltac:(cbn; lia) ltac:(cbn; lia))
    as [fuel [st' [H [_ [_ Hall]]]]].
  exists fuel. rewrite H. f_equal. apply Hall; reflexivity.
Defined.

(** ** Several tokens *)

Lemma In_addAll x ys :
  forall s, In x (addAll ys s) <-> In x s \/ In x ys.
Proof.
  induction ys as [| y ys IH]; intros s; cbn [addAll fold_left].
  - cbn. tauto.
  - fold (addAll ys (add_elem y s)). rewrite IH, In_add_elem. cbn.
    intuition congruence.
Qed.

Lemma addAll_app ys zs s : addAll (ys ++ zs) s = addAll zs (addAll ys s).
Proof. unfold addAll. apply fold_left_app. Qed.

(** What a loop adds does not depend on the set it adds to, nor does whether
    it ends. *)
Lemma rangeLoop_adds fuel len e :
  forall i,
    (exists ys, forall s, rangeLoop fuel len i e s = Some (addAll ys s))
    \/ (forall s, rangeLoop fuel len i e s = None).
Proof.
  induction fuel as [| fuel IH]; intros i; [right; reflexivity |].
  destruct (le i e) eqn:Hle.
  - destruct (IH (add i one)) as [[ys Hys] | Hnone].
    + left. destruct (lt zero i && le i len) eqn:G.
      * exists (sub i one :: ys). intros s.
        rewrite rangeLoop_step, Hle, G. apply Hys.
      * exists ys. intros s. rewrite rangeLoop_step, Hle, G. apply Hys.
    + right. intros s. rewrite rangeLoop_step, Hle. apply Hnone.
  - left. exists []. intros s. now rewrite rangeLoop_step, Hle.
Qed.

Lemma applyPart_adds fuel len part :
  (exists ys, forall s, applyPart fuel len part s = Some (addAll ys s))
  \/ (forall s, applyPart fuel len part s = None).
Proof.
  unfold applyPart.
  destruct (map Number (split dash (trim part))) as [| a [| b [| c l]]].
  - left. now exists [].
  - left. destruct (negb (isNaN a)); [| now exists []].
    destruct (lt zero a && le a len); [now exists [sub a one] | now exists []].
  - destruct (negb (isNaN a) && negb (isNaN b));
      [apply rangeLoop_adds | left; now exists []].
  - left. now exists [].
Qed.

Lemma forEachPart_adds fuel len parts :
  (exists ys, forall s, forEachPart fuel len parts s = Some (addAll ys s))
  \/ (forall s, forEachPart fuel len parts s = None).
Proof.
  induction parts as [| part rest IH]; [left; now exists [] |].
  cbn [forEachPart].
  destruct (applyPart_adds fuel len part) as [[ys Hys] | Hnone].
  - destruct IH as [[zs Hzs] | Hnone].
    + left. exists (ys ++ zs). intros s. rewrite Hys, Hzs.
      now rewrite addAll_app.
    + right. intros s. rewrite Hys. apply Hnone.
  - right. intros s. now rewrite Hnone.
Qed.

Lemma forEachPart_app fuel len parts1 parts2 :
  forall s,
    forEachPart fuel len (parts1 ++ parts2) s
    = match forEachPart fuel len parts1 s with
      | Some s1 => forEachPart fuel len parts2 s1
      | None => None
      end.
Proof.
  induction parts1 as [| part rest IH]; intros s; [reflexivity |].
  cbn [app forEachPart].
  destruct (applyPart fuel len part s); [apply IH | reflexivity].
Qed.

Lemma split_nonempty sep s : split sep s <> [].
Proof.
  destruct s as [| c r]; cbn; [discriminate |].
  destruct (c =? sep)%N; [discriminate |].
  destruct (split sep r); discriminate.
Qed.

(** Splitting a string at one of its separators. *)
Lemma split_app_separator sep a b :
  split sep (a ++ sep :: b) = split sep a ++ split sep b.
Proof.
  induction a as [| c r IH]; cbn [app split].
  - now rewrite N.eqb_refl.
  - destruct (c =? sep)%N; [now rewrite IH |].
    rewrite IH. pose proof (split_nonempty sep r) as Hne.
    destruct (split sep r); [contradiction | reflexivity].
Qed.

(** X7. A list of tokens selects the union of what its tokens select: the
    parse of [s1,s2] returns exactly when the parses of [s1] and of [s2] do,
    and then holds the elements of both and no other; so the order of the
    tokens does not matter for what is selected. *)
Theorem parseRange_union (fuel n : nat) (s1 s2 : jsstring) :
  (parseRange fuel n (s1 ++ comma :: s2) = None
   <-> parseRange fuel n s1 = None \/ parseRange fuel n s2 = None)
  /\ forall r,
       parseRange fuel n (s1 ++ comma :: s2) = Some r ->
       exists r1 r2 r',
         parseRange fuel n s1 = Some r1
         /\ parseRange fuel n s2 = Some r2
         /\ (forall x, In x r <-> In x r1 \/ In x r2)
         /\ parseRange fuel n (s2 ++ comma :: s1) = Some r'
         /\ (forall x, In x r' <-> In x r).
Proof.
  unfold parseRange. rewrite !split_app_separator, !forEachPart_app.
  destruct (forEachPart_adds fuel (of_nat n) (split comma s1))
    as [[ys Hys] | H1];
    destruct (forEachPart_adds fuel (of_nat n) (split comma s2))
      as [[zs Hzs] | H2];
    rewrite ?Hys, ?Hzs, ?H1, ?H2, ?Hys, ?Hzs, ?H1, ?H2.
  - split; [split; [discriminate | intros [H | H]; discriminate] |].
    intros r H. injection H as <-.
    exists (addAll ys []), (addAll zs []), (addAll ys (addAll zs [])).
    split; [reflexivity | split; [reflexivity |]].
    split; [| split; [reflexivity |]].
    + intros x. rewrite !In_addAll. cbn [In]. tauto.
    + intros x. rewrite !In_addAll. cbn [In]. tauto.
  - split; [split; [intros _; now right | reflexivity] | discriminate].
  - split; [split; [intros _; now left | reflexivity] | discriminate].
  - split; [split; [intros _; now left | reflexivity] | discriminate].
Qed.

Lemma parseRange_union_witness :
  exists r r',
    parseRange 4 10 (js "5,1-2") = Some r
    /\ parseRange 4 10 (js "1-2,5") = Some r'
    /\ forall x, In x r' <-> In x r.
Proof.
  assert (H : parseRange 4 10 (js "5" ++ comma :: js "1-2")
              = Some [of_Z 4; of_Z 0; of_Z 1]) by (vm_compute; reflexivity).
  destruct (parseRange_union 4 10 (js "5") (js "1-2")) as [_ Hunion].
  destruct (Hunion _ H) as [r1 [r2 [r' [_ [_ [_ [Hswap Hsame]]]]]]].
  exists [of_Z 4; of_Z 0; of_Z 1], r'.
  split; [exact H | split; [exact Hswap | exact Hsame]].
Defined.

(* ================================================================== *)
(** * White space in the range input *)
(* ================================================================== *)

Lemma trimStart_app_whitespace w s :
  Forall (fun c => isWhiteSpace c = true) w -> trimStart (w ++ s) = trimStart s.
Proof.
  induction 1 as [| c w Hc _ IH]; [reflexivity |].
  cbn [app trimStart]. now rewrite Hc.
Qed.

(** White space around a string that neither starts nor ends with white
    space is what [trim] removes. *)
Lemma trim_padded w1 w2 c s c' s' :
  Forall (fun d => isWhiteSpace d = true) w1 ->
  Forall (fun d => isWhiteSpace d = true) w2 ->
  isWhiteSpace c = false -> rev (c :: s) = c' :: s' ->
  isWhiteSpace c' = false ->
  trim (w1 ++ (c :: s) ++ w2) = c :: s.
Proof.
  intros H1 H2 Hc Hrev Hc'. unfold trim, trimEnd.
  rewrite (trimStart_app_whitespace w1 _ H1).
  change ((c :: s) ++ w2)%list with (c :: (s ++ w2))%list.
  rewrite (trimStart_head c _ Hc).
  change (c :: (s ++ w2))%list with ((c :: s) ++ w2)%list.
  rewrite rev_app_distr, Hrev.
  rewrite trimStart_app_whitespace by now apply Forall_rev.
  rewrite (trimStart_head c' _ Hc'), <- Hrev. apply rev_involutive.
Qed.

Lemma decimal_nonempty n : decimal n <> [].
Proof.
  intros E. pose proof (digitsValue_decimal n) as H. rewrite E in H.
  cbn in H. injection H as H.
  assert (Hn : n = 0%nat) by lia. subst n. vm_compute in E. discriminate E.
Qed.

(** A string that starts with the digits of a number and ends with the
    digits of a number: its first and last characters are no white space. *)
Lemma digits_at_ends a b middle :
  exists c s c' s',
    (decimal a ++ middle ++ decimal b)%list = c :: s
    /\ rev (c :: s) = c' :: s'
    /\ isWhiteSpace c = false /\ isWhiteSpace c' = false.
Proof.
  pose proof (digits_decimal a) as Ha. pose proof (digits_decimal b) as Hb.
  pose proof (decimal_nonempty a) as Hna.
  pose proof (decimal_nonempty b) as Hnb.
  destruct (decimal a) as [| c s]; [contradiction |].
  assert (Hrb : Forall (fun d => isDigit d = true) (rev (decimal b)))
    by now apply Forall_rev.
  destruct (rev (decimal b)) as [| c' s'] eqn:Erev.
  { apply (f_equal (@rev N)) in Erev. rewrite rev_involutive in Erev.
    contradiction. }
  exists c, (s ++ middle ++ decimal b)%list, c',
    (s' ++ rev middle ++ rev (c :: s))%list.
  split; [reflexivity |]. split.
  - change (c :: (s ++ middle ++ decimal b))%list
      with ((c :: s) ++ middle ++ decimal b)%list.
    rewrite !rev_app_distr, Erev, <- app_assoc. reflexivity.
  - split.
    + apply (digit_not_whitespace c (Forall_inv Ha)).
    + apply (digit_not_whitespace c' (Forall_inv Hrb)).
Qed.

Lemma trim_padded_decimal w1 w2 n :
  Forall (fun d => isWhiteSpace d = true) w1 ->
  Forall (fun d => isWhiteSpace d = true) w2 ->
  trim (w1 ++ decimal n ++ w2) = decimal n.
Proof.
  intros H1 H2.
  pose proof (digits_decimal n) as Hd. pose proof (decimal_nonempty n) as Hne.
  destruct (decimal n) as [| d ds] eqn:Ed; [contradiction |].
  assert (Hrd : Forall (fun x => isDigit x = true) (rev (d :: ds)))
    by now apply Forall_rev.
  destruct (rev (d :: ds)) as [| e es] eqn:Erev.
  { apply (f_equal (@rev N)) in Erev. rewrite rev_involutive in Erev.
    discriminate. }
  apply (trim_padded w1 w2 d ds e es H1 H2);
    [apply (digit_not_whitespace d (Forall_inv Hd)) | exact Erev
     | apply (digit_not_whitespace e (Forall_inv Hrd))].
Qed.

Lemma trim_decimal n : trim (decimal n) = decimal n.
Proof.
  pose proof (trim_padded_decimal [] [] n (Forall_nil _) (Forall_nil _)) as H.
  cbn [app] in H. now rewrite app_nil_r in H.
Qed.

Lemma Number_padded w1 w2 n :
  Forall (fun d => isWhiteSpace d = true) w1 ->
  Forall (fun d => isWhiteSpace d = true) w2 ->
  Number (w1 ++ decimal n ++ w2) = Number (decimal n).
Proof.
  intros H1 H2. unfold Number.
  rewrite (trim_padded_decimal w1 w2 n H1 H2), (trim_decimal n).
  reflexivity.
Qed.

Lemma Forall_no_dash_whitespace w :
  Forall (fun d => isWhiteSpace d = true) w ->
  Forall (fun d => (d =? dash)%N = false) w
  /\ Forall (fun d => (d =? comma)%N = false) w.
Proof.
  intros H. split; (eapply Forall_impl; [| exact H]);
    intros d Hd; now apply whitespace_not_separator.
Qed.

Lemma Forall_no_dash_decimal n :
  Forall (fun d => (d =? dash)%N = false) (decimal n)
  /\ Forall (fun d => (d =? comma)%N = false) (decimal n).
Proof.
  pose proof (digits_decimal n) as H.
  split; (eapply Forall_impl; [| exact H]);
    intros d Hd; now apply digit_not_separator.
Qed.

(** X19. White space around a page number, around a range and around its
    dash is ignored: a padded token adds to the selection exactly what the
    bare token adds, whatever was collected before, and an input that is one
    padded range parses as the bare range does. *)
Theorem padded_token_as_bare
  (fuel : nat) (len : number) (n a b : nat) (w1 w2 w3 w4 : jsstring)
  (selectedIndices : NumberSet) :
  Forall (fun c => isWhiteSpace c = true) w1 ->
  Forall (fun c => isWhiteSpace c = true) w2 ->
  Forall (fun c => isWhiteSpace c = true) w3 ->
  Forall (fun c => isWhiteSpace c = true) w4 ->
  applyPart fuel len (w1 ++ decimal a ++ w2) selectedIndices
  = applyPart fuel len (decimal a) selectedIndices
  /\ applyPart fuel len
       (w1 ++ (decimal a ++ (w2 ++ dash :: w3) ++ decimal b) ++ w4)
       selectedIndices
     = applyPart fuel len (rangeToken a b) selectedIndices
  /\ parseRange fuel n
       (w1 ++ (decimal a ++ (w2 ++ dash :: w3) ++ decimal b) ++ w4)
     = parseRange fuel n (rangeToken a b).
Proof.
  intros H1 H2 H3 H4.
  destruct (Forall_no_dash_whitespace w1 H1) as [D1 C1].
  destruct (Forall_no_dash_whitespace w2 H2) as [D2 C2].
  destruct (Forall_no_dash_whitespace w3 H3) as [D3 C3].
  destruct (Forall_no_dash_whitespace w4 H4) as [D4 C4].
  destruct (Forall_no_dash_decimal a) as [Da Ca].
  destruct (Forall_no_dash_decimal b) as [Db Cb].
  assert (Hrange : forall len' sel,
            applyPart fuel len'
              (w1 ++ (decimal a ++ (w2 ++ dash :: w3) ++ decimal b) ++ w4) sel
            = applyPart fuel len' (rangeToken a b) sel).
  { intros len' sel. unfold applyPart.
    destruct (digits_at_ends a b (w2 ++ dash :: w3))
      as [c [s [c' [s' [E [Hrev [Hc Hc']]]]]]].
    rewrite E, (trim_padded w1 w4 c s c' s' H1 H4 Hc Hrev Hc'), <- E.
    rewrite <- !app_assoc. rewrite (app_assoc (decimal a) w2).
    cbn [app]. rewrite split_at_separator
      by (apply Forall_app; now split).
    rewrite split_without_separator by (apply Forall_app; now split).
    destruct (split_rangeToken a b) as [_ ->]. cbn [map].
    rewrite <- (app_nil_l (decimal a ++ w2)).
    rewrite (Number_padded [] w2 a (Forall_nil _) H2).
    rewrite <- (app_nil_r (w3 ++ decimal b)), <- app_assoc.
    rewrite (Number_padded w3 [] b H3 (Forall_nil _)).
    reflexivity. }
  split; [| split; [apply Hrange |]].
  - unfold applyPart.
    rewrite (trim_padded_decimal w1 w2 a H1 H2), (trim_decimal a).
    reflexivity.
  - unfold parseRange.
    rewrite split_without_separator.
    + destruct (split_rangeToken a b) as [-> _]. cbn [forEachPart].
      now rewrite Hrange.
    + repeat (apply Forall_app; split); try assumption.
      constructor; [reflexivity | assumption].
Qed.

Lemma padded_token_as_bare_witness :
  parseRange 5 10 (js " 2 - 4 ") = parseRange 5 10 (js "2-4").
Proof.
  assert (Hs : Forall (fun c => isWhiteSpace c = true) (js " "))
    by (repeat constructor).
  destruct (padded_token_as_bare 5 (of_nat 10) 10 2 4
              (js " ") (js " ") (js " ") (js " ") [] Hs Hs Hs Hs)
    as [_ [_ H]].
  exact H.
Defined.

(* ================================================================== *)
(** * [loadPDF] *)
(* ================================================================== *)

Lemma loadLoop_renders pdf :
  forall todo newPages progress,
    (forall i, In i todo -> thumbnailOf pdf i <> RenderFails) ->
    loadLoop pdf todo newPages progress
    = (match todo with
       | [] => progress
       | _ :: _ => progressAt (last todo 0%nat) (numPages pdf)
       end,
       Some (newPages
             ++ flat_map (fun i => match renderedUrl pdf i with
                                   | Some url => [mkPage (i - 1) url false]
                                   | None => []
                                   end) todo)).
Proof.
  induction todo as [| i rest IH]; intros newPages progress Hok.
  - cbn. now rewrite app_nil_r.
  - cbn [loadLoop flat_map]. unfold renderedUrl at 1.
    assert (Hrest : forall j, In j rest -> thumbnailOf pdf j <> RenderFails)
      by (intros j Hj; apply Hok; now right).
    assert (Hlast : match rest with
                    | [] => progressAt i (numPages pdf)
                    | _ :: _ => progressAt (last rest 0%nat) (numPages pdf)
                    end
                    = progressAt (last (i :: rest) 0%nat) (numPages pdf))
      by (destruct rest; reflexivity).
    destruct (thumbnailOf pdf i) eqn:E.
    + rewrite IH by exact Hrest. rewrite Hlast, <- app_assoc. reflexivity.
    + rewrite IH by exact Hrest. rewrite Hlast. reflexivity.
    + exfalso. apply (Hok i); [now left | exact E].
Qed.

Lemma loadLoop_fails pdf :
  forall todo newPages progress,
    (exists i, In i todo /\ thumbnailOf pdf i = RenderFails) ->
    snd (loadLoop pdf todo newPages progress) = None.
Proof.
  induction todo as [| i rest IH]; intros newPages progress [j [Hj Hfail]];
    [destruct Hj |].
  cbn [loadLoop]. destruct (thumbnailOf pdf i) eqn:E; [| | reflexivity];
    (apply IH; exists j; split; [| exact Hfail];
     destruct Hj as [-> | Hj]; [congruence | exact Hj]).
Qed.

(** The progress shown after the last page is 100. *)
Lemma progressAt_complete n : (1 <= n)%nat -> progressAt n n = 100%nat.
Proof.
  intros Hn. pose proof unit_scale_pos as HU.
  unfold progressAt, of_nat, of_Z. cbn [div].
  replace (Z.of_nat n * unit_scale =? 0) with false
    by (symmetry; apply Z.eqb_neq; nia).
  replace (Z.of_nat n * unit_scale <? 0) with false
    by (symmetry; apply Z.ltb_ge; nia).
  cbn [xorb]. rewrite Z.abs_eq by nia.
  replace (Z.of_nat n * unit_scale * unit_scale)
    with (1 * unit_scale * (Z.of_nat n * unit_scale)) by lia.
  rewrite round_scale by nia.
  rewrite round_exact by (split; [lia | apply Z.pow_le_mono_r with (b := 0); lia]).
  cbn [mul].
  replace (1 * unit_scale <? 0) with false
    by (symmetry; apply Z.ltb_ge; lia).
  replace (100 * unit_scale <? 0) with false
    by (symmetry; apply Z.ltb_ge; lia).
  cbn [xorb]. rewrite !Z.abs_eq by lia.
  replace (1 * unit_scale * (100 * unit_scale))
    with (100 * unit_scale * unit_scale) by lia.
  rewrite round_scale by lia.
  rewrite round_exact
    by (split; [lia | change 100 with (2 ^ 0 * 100);
                      assert (2 ^ 7 <= 2 ^ 53)
                        by (apply Z.pow_le_mono_r; lia); lia]).
  cbn [Math_round toNat].
  replace (2 * (100 * unit_scale) + unit_scale) with (201 * unit_scale) by lia.
  rewrite Z.div_mul_cancel_r by lia.
  change (201 / 2) with 100. rewrite Z.div_mul by lia. reflexivity.
Qed.

(** X8. A load in which no page throws succeeds silently: the previews are
    the pages that rendered, in page order, unselected, with distinct indices
    below the page count (all of [0 .. n-1] when every page rendered); the
    range input and the previous result are cleared, the loading flag is
    down and, when there is a page, the progress stands at 100; mode, output
    mode and chunk size are kept. *)
Theorem loadPDF_success (f : File) (pdf : PdfJs) (st : State) :
  (forall i, (1 <= i <= numPages pdf)%nat ->
             thumbnailOf pdf i <> RenderFails) ->
  let st' := fst (loadPDF f (Some pdf) st) in
  snd (loadPDF f (Some pdf) st) = []
  /\ pages st' = loadedPages (numPages pdf) (renderedUrl pdf)
  /\ (forall p, In p (pages st') ->
        selected p = false /\ (index p < numPages pdf)%nat
        /\ thumbnailOf pdf (index p + 1) = Rendered (imageUrl p))
  /\ NoDup (map index (pages st'))
  /\ ((forall i, (1 <= i <= numPages pdf)%nat ->
                 exists url, thumbnailOf pdf i = Rendered url) ->
      map index (pages st') = seq 0 (numPages pdf))
  /\ file st' = Some f /\ rangeInput st' = [] /\ resultUrl st' = None
  /\ isLoading st' = false
  /\ ((1 <= numPages pdf)%nat -> loadingProgress st' = 100%nat)
  /\ mode st' = mode st /\ outputMode st' = outputMode st
  /\ fixedRange st' = fixedRange st.
Proof.
  intros Hok st'.
  assert (Hloop : loadLoop pdf (seq 1 (numPages pdf)) [] 0
                  = (match seq 1 (numPages pdf) with
                     | [] => 0%nat
                     | _ :: _ => progressAt (last (seq 1 (numPages pdf)) 0%nat)
                                            (numPages pdf)
                     end,
                     Some (loadedPages (numPages pdf) (renderedUrl pdf)))).
  { rewrite loadLoop_renders; [reflexivity |].
    intros i Hi. apply in_seq in Hi. apply Hok. lia. }
  unfold st', loadPDF. rewrite Hloop. cbn [fst snd pages file rangeInput
    resultUrl isLoading loadingProgress mode outputMode fixedRange].
  destruct (loadedPages_indices (numPages pdf) (renderedUrl pdf))
    as [Hnd Hlt].
  split; [reflexivity | split; [reflexivity |]].
  split; [| split; [exact Hnd |]].
  { intros p Hp. split; [| split; [now apply Hlt |]].
    - unfold loadedPages in Hp. apply in_flat_map in Hp as [i [_ Hi]].
      destruct (renderedUrl pdf i) as [url |]; cbn in Hi;
        [destruct Hi as [<- | []]; reflexivity | destruct Hi].
    - unfold loadedPages in Hp. apply in_flat_map in Hp as [i [Hi Hpi]].
      apply in_seq in Hi. unfold renderedUrl in Hpi.
      destruct (thumbnailOf pdf i) as [url | |] eqn:E; cbn in Hpi;
        [| destruct Hpi | destruct Hpi].
      destruct Hpi as [<- | []]. cbn [index imageUrl].
      replace (i - 1 + 1)%nat with i by lia. exact E. }
  split.
  { intros Hall. unfold loadedPages.
    assert (H : forall len start, (1 <= start)%nat ->
              (forall i, (start <= i < start + len)%nat ->
                         exists url, thumbnailOf pdf i = Rendered url) ->
              map index
                (flat_map (fun i => match renderedUrl pdf i with
                                    | Some url => [mkPage (i - 1) url false]
                                    | None => []
                                    end) (seq start len))
              = seq (start - 1) len).
    { induction len as [| len IH]; intros start Hstart Hr; [reflexivity |].
      cbn [seq flat_map]. destruct (Hr start ltac:(lia)) as [url E].
      unfold renderedUrl at 1. rewrite E. cbn [app map index].
      rewrite IH by (try lia; intros i Hi; apply Hr; lia).
      replace (S start - 1)%nat with (S (start - 1)) by lia. reflexivity. }
    apply (H (numPages pdf) 1%nat); [lia |].
    intros i Hi. apply Hall. lia. }
  repeat (split; [reflexivity |]).
  split; [| repeat split].
  intros Hn. destruct (numPages pdf) as [| n] eqn:En; [lia |].
  change (seq 1 (S n)) with (1%nat :: seq 2 n).
  rewrite <- En. f_equal.
  replace (last (1%nat :: seq 2 n) 0%nat) with (numPages pdf);
    [apply progressAt_complete; lia |].
  rewrite En. change (1%nat :: seq 2 n) with (seq 1 (S n)).
  rewrite seq_S. rewrite last_last. lia.
Qed.

Lemma loadPDF_success_witness :
  pages (fst (loadPDF (mkFile (Some 3%nat)) (Some (examplePdf 3 2 0))
                (exampleState None [mkPage 7 "old" true] custom single 1
                   (js "1-2"))))
  = [mkPage 0 "u" false; mkPage 2 "u" false]
  /\ loadingProgress
       (fst (loadPDF (mkFile (Some 3%nat)) (Some (examplePdf 3 2 0))
               (exampleState None [mkPage 7 "old" true] custom single 1
                  (js "1-2")))) = 100%nat.
Proof.
  assert (Hok : forall i, (1 <= i <= numPages (examplePdf 3 2 0))%nat ->
            thumbnailOf (examplePdf 3 2 0) i <> RenderFails).
  { intros i Hi. cbn in *. destruct i as [| [| [| [| i]]]];
      cbn; try discriminate; lia. }
  destruct (loadPDF_success (mkFile (Some 3%nat)) (examplePdf 3 2 0)
              (exampleState None [mkPage 7 "old" true] custom single 1
                 (js "1-2")) Hok)
    as [_ [Hpages [_ [_ [_ [_ [_ [_ [_ [Hprogress _]]]]]]]]]].
  split; [rewrite Hpages; reflexivity | apply Hprogress; cbn; lia].
Defined.

Lemma loadLoop_None pdf :
  forall todo newPages progress,
    snd (loadLoop pdf todo newPages progress) = None ->
    exists i, In i todo /\ thumbnailOf pdf i = RenderFails.
Proof.
  induction todo as [| i rest IH]; intros newPages progress H;
    [discriminate |].
  cbn [loadLoop] in H. destruct (thumbnailOf pdf i) eqn:E.
  - destruct (IH _ _ H) as [j [Hj Hf]]. exists j. split; [now right | exact Hf].
  - destruct (IH _ _ H) as [j [Hj Hf]]. exists j. split; [now right | exact Hf].
  - exists i. split; [now left | exact E].
Qed.

(** X9. A load fails exactly when reading the document throws or a page
    throws while its thumbnail is made. Then the notice "Failed to load PDF
    pages." is shown and no preview is kept, not even those of the pages
    before the failing one; the file stays chosen, nothing is selected, the
    range input and the previous result are cleared and the loading flag is
    down. *)
Theorem loadPDF_failure (f : File) (doc : option PdfJs) (st : State) :
  let st' := fst (loadPDF f doc st) in
  let failure :=
    doc = None
    \/ exists pdf i, doc = Some pdf /\ (1 <= i <= numPages pdf)%nat
                     /\ thumbnailOf pdf i = RenderFails in
  (failure <-> snd (loadPDF f doc st) <> [])
  /\ (failure ->
      snd (loadPDF f doc st)
      = [ConsoleError "Error loading PDF"; Alert "Failed to load PDF pages."]
      /\ pages st' = [])
  /\ file st' = Some f /\ rangeInput st' = [] /\ resultUrl st' = None
  /\ isLoading st' = false /\ selectedCount st' = 0%nat.
Proof.
  intros st' failure.
  assert (Hcases :
    (failure
     /\ snd (loadPDF f doc st)
        = [ConsoleError "Error loading PDF"; Alert "Failed to load PDF pages."]
     /\ pages st' = [])
    \/ (~ failure /\ snd (loadPDF f doc st) = []
        /\ forall p, In p (pages st') -> selected p = false)).
  { unfold st', failure, loadPDF. destruct doc as [pdf |].
    - destruct (loadLoop pdf (seq 1 (numPages pdf)) [] 0)
        as [progress [newPages |]] eqn:Hloop.
      + right. split; [| split; [reflexivity |]].
        * intros [E | [pdf' [i [E [Hi Hfail]]]]]; [discriminate |].
          injection E as <-.
          assert (Hnone : snd (loadLoop pdf (seq 1 (numPages pdf)) [] 0)
                          = None).
          { apply loadLoop_fails. exists i. split; [| exact Hfail].
            apply in_seq. lia. }
          rewrite Hloop in Hnone. discriminate.
        * cbn [fst pages]. intros p Hp.
          assert (Hok : forall i, In i (seq 1 (numPages pdf)) ->
                                  thumbnailOf pdf i <> RenderFails).
          { intros i Hi Hfail.
            assert (Hnone : snd (loadLoop pdf (seq 1 (numPages pdf)) [] 0)
                            = None)
              by (apply loadLoop_fails; now exists i).
            rewrite Hloop in Hnone. discriminate. }
          rewrite (loadLoop_renders pdf _ [] 0%nat Hok) in Hloop.
          injection Hloop as _ <-. cbn [app] in Hp.
          apply in_flat_map in Hp as [i [_ Hi]].
          destruct (renderedUrl pdf i); cbn in Hi;
            [destruct Hi as [<- | []]; reflexivity | destruct Hi].
      + left. split; [| split; reflexivity].
        right. exists pdf.
        assert (Hnone : snd (loadLoop pdf (seq 1 (numPages pdf)) [] 0) = None)
          by now rewrite Hloop.
        apply loadLoop_None in Hnone as [i [Hi Hfail]].
        exists i. apply in_seq in Hi.
        split; [reflexivity | split; [lia | exact Hfail]].
    - left. split; [now left | split; reflexivity]. }
  assert (Hframe : file st' = Some f /\ rangeInput st' = []
                   /\ resultUrl st' = None /\ isLoading st' = false).
  { unfold st', loadPDF. destruct doc as [pdf |]; [| repeat split].
    destruct (loadLoop pdf (seq 1 (numPages pdf)) [] 0) as [progress [ps |]];
      repeat split. }
  destruct Hframe as [H1 [H2 [H3 H4]]].
  split; [| split; [| repeat (split; [assumption |])]].
  - destruct Hcases as [[Hf [Heff _]] | [Hnf [Heff _]]]; rewrite Heff.
    + split; [discriminate | intros _; exact Hf].
    + split; [intros Hf; contradiction | intros H; now contradiction H].
  - intros Hf. destruct Hcases as [[_ H] | [Hnf _]]; [exact H | contradiction].
  - unfold selectedCount.
    destruct Hcases as [[_ [_ Hnil]] | [_ [_ Hsel]]].
    + now rewrite Hnil.
    + assert (Hfilter : forall ps,
                (forall p, In p ps -> selected p = false) ->
                filter selected ps = []).
      { induction ps as [| p ps IH]; intros Hps; [reflexivity |].
        cbn [filter]. rewrite (Hps p (or_introl eq_refl)).
        apply IH. intros q Hq. apply Hps. now right. }
      now rewrite Hfilter.
Qed.

Lemma loadPDF_failure_witness :
  snd (loadPDF (mkFile None) (Some (examplePdf 2 0 2))
         (exampleState None [] custom single 1 []))
  = [ConsoleError "Error loading PDF"; Alert "Failed to load PDF pages."]
  /\ pages (fst (loadPDF (mkFile None) (Some (examplePdf 2 0 2))
                   (exampleState None [] custom single 1 []))) = [].
Proof.
  pose proof (loadPDF_failure (mkFile None) (Some (examplePdf 2 0 2))
                (exampleState None [] custom single 1 [])) as H.
  cbv zeta in H. destruct H as [_ [H _]].
  apply H. right. exists (examplePdf 2 0 2), 2%nat.
  split; [reflexivity | split; [cbn; lia | reflexivity]].
Defined.

(* ================================================================== *)
(** * More on [processPDF] *)
(* ================================================================== *)

(** The [try] block changes nothing but the result. *)
Lemma processBody_result timestamp f st st2 :
  processBody timestamp f st = Some st2 ->
  st2 = st \/ exists url name, st2 = setResult url name st.
Proof.
  unfold processBody. intros H.
  destruct (pageCount f) as [srcPages |]; [| discriminate].
  destruct (mode st).
  - destruct (filter selected (pages st)) as [| p ps];
      [left; now injection H as <- |].
    destruct (outputMode st).
    + destruct (copyPages srcPages (map index (p :: ps))); [| discriminate].
      right. injection H as <-. eauto.
    + destruct (separateLoop srcPages (p :: ps) []); [| discriminate].
      right. injection H as <-. eauto.
  - destruct (fixedArchive srcPages _ _); [| discriminate].
    right. injection H as <-. eauto.
Qed.

(** X10. [processPDF] touches nothing but the result and the processing
    flag, whatever the chunk size: pages, selection, modes, chunk size,
    range input and file are as before, and with a file chosen the flag
    ends down. Either no notice is
    shown, or the notice "Failed to process pages." is, and then the
    previous result is still there. Without a file nothing happens at
    all. *)
Theorem processPDF_frame (timestamp : nat) (st : State) :
  let st' := fst (processPDF timestamp st) in
  let notices := snd (processPDF timestamp st) in
  (pages st' = pages st /\ mode st' = mode st
   /\ outputMode st' = outputMode st /\ fixedRange st' = fixedRange st
   /\ rangeInput st' = rangeInput st /\ file st' = file st
   /\ isLoading st' = isLoading st)
  /\ (file st <> None -> isProcessing st' = false)
  /\ (file st = None -> st' = st /\ notices = [])
  /\ (notices = []
      \/ (notices = [ConsoleError "Error splitting PDF";
                     Alert "Failed to process pages."]
          /\ resultUrl st' = resultUrl st
          /\ resultFilename st' = resultFilename st)).
Proof.
  intros st' notices. unfold st', notices, processPDF.
  destruct (file st) as [f |] eqn:Hfile.
  - destruct (processBody timestamp f (setIsProcessing true st))
      as [st2 |] eqn:Hbody.
    + apply processBody_result in Hbody as [-> | [url [name ->]]];
        cbn [fst snd]; (split; [repeat split; first [reflexivity | now symmetry] |]);
        (split; [reflexivity |]); (split; [discriminate | now left]).
    + cbn [fst snd]. split; [repeat split; now symmetry |].
      split; [reflexivity |]. split; [discriminate |].
      right. repeat split.
  - cbn [fst snd]. split; [repeat split; now symmetry |].
    split; [intros H; now contradiction H |].
    split; [now split | now left].
Qed.

Lemma processPDF_frame_witness :
  isProcessing
    (fst (processPDF 0
            (mkState (Some (mkFile None)) [mkPage 0 "a" true] custom single
               (Pages 1) false true [] 100 None ""))) = false.
Proof.
  pose proof (processPDF_frame 0
    (mkState (Some (mkFile None)) [mkPage 0 "a" true] custom single
       (Pages 1) false true [] 100 None "")) as H.
  cbv zeta in H. destruct H as [_ [H _]]. apply H. discriminate.
Defined.

(** ** When processing fails *)

Lemma forallb_false_exists {A} (f : A -> bool) l :
  forallb f l = false <-> exists x, In x l /\ f x = false.
Proof.
  induction l as [| a l IH]; cbn.
  - split; [discriminate | intros [x [[] _]]].
  - rewrite andb_false_iff, IH. split.
    + intros [H | [x [Hx Hf]]]; [exists a; split; [now left | exact H] |].
      exists x. split; [now right | exact Hf].
    + intros [x [[-> | Hx] Hf]]; [now left | right; now exists x].
Qed.

Lemma copyPages_None srcPages indices :
  copyPages srcPages indices = None
  <-> exists i, In i indices /\ (srcPages <= i)%nat.
Proof.
  unfold copyPages.
  destruct (forallb (fun i => Nat.ltb i srcPages) indices) eqn:E.
  - split; [discriminate |]. intros [i [Hi Hge]].
    rewrite forallb_forall in E. apply E in Hi. apply Nat.ltb_lt in Hi. lia.
  - split; [intros _ | reflexivity].
    apply forallb_false_exists in E as [i [Hi Hf]].
    exists i. split; [exact Hi |]. apply Nat.ltb_ge in Hf. exact Hf.
Qed.

Lemma separateLoop_None srcPages :
  forall selectedPages zip,
    separateLoop srcPages selectedPages zip = None
    <-> exists p, In p selectedPages /\ (srcPages <= index p)%nat.
Proof.
  induction selectedPages as [| p rest IH]; intros zip; cbn [separateLoop].
  - split; [discriminate | intros [q [[] _]]].
  - destruct (copyPages srcPages [index p]) as [doc |] eqn:E.
    + rewrite IH. split.
      * intros [q [Hq Hge]]. exists q. split; [now right | exact Hge].
      * intros [q [[<- | Hq] Hge]]; [| now exists q].
        assert (Hnone : copyPages srcPages [index p] = None)
          by (apply copyPages_None; exists (index p); split;
              [now left | exact Hge]).
        congruence.
    + split; [intros _ | reflexivity].
      apply copyPages_None in E as [i [[<- | []] Hge]].
      exists p. split; [now left | exact Hge].
Qed.

Lemma fixedLoop_None srcPages n k :
  forall todo zip,
    fixedLoop srcPages n k todo zip = None
    <-> exists i, In i todo /\ copyPages srcPages (chunkIndices n k i) = None.
Proof.
  induction todo as [| i rest IH]; intros zip; cbn [fixedLoop].
  - split; [discriminate | intros [j [[] _]]].
  - destruct (copyPages srcPages (chunkIndices n k i)) as [doc |] eqn:E.
    + rewrite IH. split.
      * intros [j [Hj Hf]]. exists j. split; [now right | exact Hf].
      * intros [j [[<- | Hj] Hf]]; [congruence | now exists j].
    + split; [intros _ | reflexivity]. exists i. split; [now left | exact E].
Qed.

(** X11. With a file chosen, [processPDF] shows its notice exactly when the
    document does not load, or, in fixed mode with a finite chunk size, has
    fewer pages than there are previews, or, in custom mode, lacks the page
    of a selected preview; whether the output is merged or separate makes no
    difference. With the chunk size +Infinity the fixed mode copies no page
    and shows no notice for a document that loads, however few pages it
    has. *)
Theorem processPDF_notice_iff (timestamp : nat) (st : State) (f : File) :
  file st = Some f ->
  (snd (processPDF timestamp st) <> []
   <-> match pageCount f with
       | None => True
       | Some srcPages =>
           match mode st with
           | fixed =>
               match fixedRange st with
               | Pages _ => (srcPages < length (pages st))%nat
               | Unbounded => False
               end
           | custom => exists p, In p (pages st) /\ selected p = true
                                 /\ (srcPages <= index p)%nat
           end
       end).
Proof.
  intros Hfile.
  assert (Hnotice : snd (processPDF timestamp st) <> []
                    <-> processBody timestamp f (setIsProcessing true st)
                        = None).
  { unfold processPDF. rewrite Hfile.
    destruct (processBody timestamp f (setIsProcessing true st));
      cbn [snd]; split; congruence. }
  rewrite Hnotice. unfold processBody.
  destruct (pageCount f) as [srcPages |]; [| tauto].
  cbn [mode pages setIsProcessing fixedRange outputMode].
  destruct (mode st).
  - assert (Hsel : (exists p, In p (filter selected (pages st))
                              /\ (srcPages <= index p)%nat)
                   <-> exists p, In p (pages st) /\ selected p = true
                                 /\ (srcPages <= index p)%nat).
    { split; intros [p H]; exists p; rewrite filter_In in *; tauto. }
    rewrite <- Hsel.
    destruct (filter selected (pages st)) as [| p ps] eqn:E.
    { split; [discriminate | intros [q [[] _]]]. }
    destruct (outputMode st).
    + destruct (copyPages srcPages (map index (p :: ps))) eqn:Ec.
      * split; [discriminate |]. intros [q [Hq Hge]].
        assert (Hnone : copyPages srcPages (map index (p :: ps)) = None).
        { apply copyPages_None. exists (index q).
          split; [now apply in_map | exact Hge]. }
        congruence.
      * split; [intros _ | reflexivity].
        apply copyPages_None in Ec as [i [Hi Hge]].
        apply in_map_iff in Hi as [q [<- Hq]]. now exists q.
    + destruct (separateLoop srcPages (p :: ps) []) eqn:Es.
      * split; [discriminate |]. intros Hex.
        apply (separateLoop_None srcPages (p :: ps) []) in Hex. congruence.
      * split; [intros _ | reflexivity].
        now apply (separateLoop_None srcPages (p :: ps) []).
  - destruct (fixedRange st) as [p |];
      cbv beta iota zeta delta [fixedArchive chunkCountOf];
      [| split; [discriminate | intros []]].
    set (n := length (pages st)). set (k := Pos.to_nat p).
    assert (Hk : (1 <= k)%nat) by (unfold k; pose proof (Pos2Nat.is_pos p); lia).
    pose proof (chunkCount_ceiling n k Hk) as [Hlo Hhi].
    destruct (fixedLoop srcPages n k (seq 0 (chunkCount n k)) []) eqn:El.
    + split; [discriminate |]. intros Hlt.
      assert (Hnone : fixedLoop srcPages n k (seq 0 (chunkCount n k)) []
                      = None).
      { apply fixedLoop_None. exists (srcPages / k)%nat.
        pose proof (Nat.div_mod_eq srcPages k) as Hdm.
        pose proof (Nat.mod_upper_bound srcPages k ltac:(lia)) as Hmod.
        split; [apply in_seq; nia |].
        apply copyPages_None. exists srcPages.
        split; [apply In_chunkIndices; nia | lia]. }
      congruence.
    + split; [intros _ | reflexivity].
      apply fixedLoop_None in El as [i [Hi Hc]].
      apply copyPages_None in Hc as [j [Hj Hge]].
      apply In_chunkIndices in Hj. lia.
Qed.

Lemma processPDF_notice_iff_witness :
  snd (processPDF 0
         (exampleState (Some (mkFile (Some 1%nat)))
            [mkPage 0 "a" false; mkPage 1 "b" true] custom separate 1 []))
  <> [].
Proof.
  apply (processPDF_notice_iff 0
           (exampleState (Some (mkFile (Some 1%nat)))
              [mkPage 0 "a" false; mkPage 1 "b" true] custom separate 1 [])
           (mkFile (Some 1%nat)) eq_refl).
  cbn. exists (mkPage 1 "b" true).
  split; [right; now left | split; [reflexivity | cbn; lia]].
Defined.

(** ** The merged document *)

Lemma StronglySorted_map_filter {A} (f : A -> nat) (keep : A -> bool) l :
  StronglySorted Nat.lt (map f l) ->
  StronglySorted Nat.lt (map f (filter keep l)).
Proof.
  induction l as [| a l IH]; cbn [map filter]; intros H; [constructor |].
  apply StronglySorted_inv in H as [Hs Hall].
  destruct (keep a); [| now apply IH].
  cbn [map]. constructor; [now apply IH |].
  rewrite Forall_forall in *. intros x Hx. apply Hall.
  apply in_map_iff in Hx as [y [<- Hy]]. apply filter_In in Hy as [Hy _].
  now apply in_map.
Qed.

Lemma processPDF_single timestamp st f srcPages :
  file st = Some f -> pageCount f = Some srcPages ->
  mode st = custom -> outputMode st = single ->
  filter selected (pages st) <> [] ->
  (forall p, In p (pages st) -> selected p = true ->
             (index p < srcPages)%nat) ->
  processPDF timestamp st
  = (setIsProcessing false
       (setResult (PdfBlob (map index (filter selected (pages st))))
          ("extracted_" ++ toString timestamp ++ ".pdf") st), []).
Proof.
  intros Hfile Hload Hmode Hout Hsel Hsrc.
  assert (Hcopy : copyPages srcPages
                    (map index (filter selected (pages st)))
                  = Some (map index (filter selected (pages st)))).
  { unfold copyPages.
    replace (forallb (fun i => Nat.ltb i srcPages)
               (map index (filter selected (pages st)))) with true;
      [reflexivity |].
    symmetry. apply forallb_forall. intros i Hi.
    apply in_map_iff in Hi as [p [<- Hp]]. apply filter_In in Hp as [Hp Hs].
    apply Nat.ltb_lt. now apply Hsrc. }
  unfold processPDF. rewrite Hfile. unfold processBody. rewrite Hload.
  cbn [mode setIsProcessing pages outputMode]. rewrite Hmode, Hout.
  revert Hcopy Hsel.
  destruct (filter selected (pages st)) as [| p ps];
    intros Hcopy Hsel; [contradiction |].
  rewrite Hcopy. clear. destruct st; reflexivity.
Qed.

(** X12. In custom mode with merged output, processing a loaded document
    that has the pages of the selected previews yields one document, named
    extracted_<timestamp>.pdf, that holds exactly the selected pages, in the
    order of the page list (not the order of the clicks): without repetition
    when the indices are distinct, ascending when they ascend. *)
Theorem process_merge_document
  (timestamp : nat) (st : State) (f : File) (srcPages : nat) :
  file st = Some f -> pageCount f = Some srcPages ->
  mode st = custom -> outputMode st = single ->
  filter selected (pages st) <> [] ->
  (forall p, In p (pages st) -> selected p = true ->
             (index p < srcPages)%nat) ->
  let doc := map index (filter selected (pages st)) in
  processPDF timestamp st
  = (setIsProcessing false
       (setResult (PdfBlob doc)
          ("extracted_" ++ toString timestamp ++ ".pdf") st), [])
  /\ (forall i, In i doc
                <-> exists p, In p (pages st) /\ selected p = true
                              /\ index p = i)
  /\ (NoDup (map index (pages st)) -> NoDup doc)
  /\ (StronglySorted Nat.lt (map index (pages st)) ->
      StronglySorted Nat.lt doc).
Proof.
  intros Hfile Hload Hmode Hout Hsel Hsrc doc.
  split; [| split; [| split]].
  - subst doc. now apply (processPDF_single timestamp st f srcPages).
  - intros i. unfold doc. rewrite in_map_iff. split.
    + intros [p [<- Hp]]. apply filter_In in Hp as [Hp Hs]. now exists p.
    + intros [p [Hp [Hs <-]]]. exists p. split; [reflexivity |].
      now apply filter_In.
  - apply NoDup_map_filter.
  - apply StronglySorted_map_filter.
Qed.

Lemma process_merge_document_witness :
  resultUrl (fst (processPDF 0
     (exampleState (Some (mkFile (Some 3%nat)))
        [mkPage 0 "a" true; mkPage 1 "b" false; mkPage 2 "c" true]
        custom single 1 [])))
  = Some (PdfBlob [0; 2]%nat).
Proof.
  assert (Hsrc : forall p,
            In p (pages (exampleState (Some (mkFile (Some 3%nat)))
                           [mkPage 0 "a" true; mkPage 1 "b" false;
                            mkPage 2 "c" true] custom single 1 [])) ->
            selected p = true -> (index p < 3)%nat).
  { cbn. intros p [<- | [<- | [<- | []]]] _; cbn; lia. }
  destruct (process_merge_document 0
              (exampleState (Some (mkFile (Some 3%nat)))
                 [mkPage 0 "a" true; mkPage 1 "b" false; mkPage 2 "c" true]
                 custom single 1 [])
              (mkFile (Some 3%nat)) 3 eq_refl eq_refl eq_refl eq_refl
              ltac:(cbn; discriminate) Hsrc) as [E _].
  rewrite E. reflexivity.
Defined.

(** ** The sizes of the chunks *)

Lemma length_chunkIndices n k i :
  (1 <= k)%nat -> (i < chunkCount n k)%nat ->
  length (chunkIndices n k i)
  = (if Nat.ltb (i + 1) (chunkCount n k) then k else n - i * k)%nat
  /\ (1 <= length (chunkIndices n k i) <= k)%nat.
Proof.
  intros Hk Hi. pose proof (chunkCount_ceiling n k Hk) as [Hlo Hhi].
  unfold chunkIndices, chunkEnd, chunkStart. rewrite length_seq.
  destruct (Nat.ltb_spec (i + 1) (chunkCount n k)); split; nia.
Qed.

Lemma processPDF_fixed_entries timestamp st f srcPages :
  file st = Some f -> pageCount f = Some srcPages ->
  (length (pages st) <= srcPages)%nat -> mode st = fixed ->
  resultUrl (fst (processPDF timestamp st))
  = Some (ZipBlob
            (match fixedRange st with
             | Pages p =>
                 map (fun i => (partName (length (pages st)) (Pos.to_nat p) i,
                                chunkIndices (length (pages st))
                                             (Pos.to_nat p) i))
                     (seq 0 (chunkCount (length (pages st)) (Pos.to_nat p)))
             | Unbounded => []
             end))
  /\ snd (processPDF timestamp st) = [].
Proof.
  intros Hfile Hload Hsrc Hmode.
  unfold processPDF. rewrite Hfile. unfold processBody. rewrite Hload.
  cbn [mode setIsProcessing pages fixedRange]. rewrite Hmode.
  rewrite (fixedArchive_entries srcPages _ _ Hsrc).
  split; reflexivity.
Qed.

(** X13. In fixed mode with a finite chunk size [k] the archive cuts the
    first [n] pages of the document ([n] the number of previews) into
    ceil(n / k) consecutive runs: entry [i] holds the pages from [i * k] up
    to, not including, [min (i * k + k) n]; every entry but the last holds
    exactly [k] pages, the last holds the [n - (c-1)*k] that remain, at
    least one and at most [k]; no page is in two entries, and laid end to
    end the entries are the pages 0 to [n - 1], each once. With the chunk
    size +Infinity the archive has no entry. *)
Theorem process_fixed_chunk_sizes
  (timestamp : nat) (st : State) (f : File) (srcPages : nat) :
  file st = Some f -> pageCount f = Some srcPages ->
  (length (pages st) <= srcPages)%nat ->
  mode st = fixed ->
  let n := length (pages st) in
  exists entries,
    resultUrl (fst (processPDF timestamp st)) = Some (ZipBlob entries)
    /\ match fixedRange st with
       | Unbounded => entries = []
       | Pages p =>
           let k := Pos.to_nat p in
           length entries = chunkCount n k
           /\ (n <= length entries * k < n + k)%nat
           /\ concat (map snd entries) = seq 0 n
           /\ (forall i name doc,
                 nth_error entries i = Some (name, doc) ->
                 doc = seq (i * k) (Nat.min (i * k + k) n - i * k)
                 /\ (1 <= length doc <= k)%nat
                 /\ ((i + 1 < length entries)%nat -> length doc = k)
                 /\ ((i + 1 = length entries)%nat ->
                     length doc = (n - i * k)%nat))
           /\ (forall i i' name name' doc doc' j,
                 nth_error entries i = Some (name, doc) ->
                 nth_error entries i' = Some (name', doc') ->
                 In j doc -> In j doc' -> i = i')
       end.
Proof.
  intros Hfile Hload Hsrc Hmode n.
  destruct (processPDF_fixed_entries timestamp st f srcPages
              Hfile Hload Hsrc Hmode) as [Hres _].
  fold n in Hres. eexists. split; [exact Hres |].
  destruct (fixedRange st) as [p |]; [| reflexivity].
  cbv zeta. set (k := Pos.to_nat p).
  assert (Hk : (1 <= k)%nat) by (unfold k; pose proof (Pos2Nat.is_pos p); lia).
  pose proof (chunkCount_ceiling n k Hk) as [Hlo Hhi].
  assert (Hnth : forall i name doc,
            nth_error (map (fun i => (partName n k i, chunkIndices n k i))
                           (seq 0 (chunkCount n k))) i = Some (name, doc) ->
            (i < chunkCount n k)%nat /\ doc = chunkIndices n k i).
  { intros i name doc H.
    assert (Hi : (i < chunkCount n k)%nat).
    { destruct (Nat.lt_ge_cases i (chunkCount n k)) as [Hlt | Hge];
        [exact Hlt |].
      rewrite (proj2 (nth_error_None _ _)) in H; [discriminate |].
      now rewrite length_map, length_seq. }
    split; [exact Hi |].
    rewrite nth_error_map, nth_error_seq in H.
    destruct (Nat.ltb_spec i (chunkCount n k)) as [_ | Hge]; [| lia].
    cbn [option_map Nat.add] in H. now injection H as _ <-. }
  rewrite length_map, length_seq.
  split; [reflexivity |]. split; [lia |]. split; [| split].
  - rewrite map_map. cbn [snd]. apply (concat_fixedGroups n k Hk).
  - intros i name doc H. destruct (Hnth i name doc H) as [Hi ->].
    destruct (length_chunkIndices n k i Hk Hi) as [Hlen Hrange].
    split; [reflexivity |]. split; [exact Hrange |]. revert Hlen.
    destruct (Nat.ltb_spec (i + 1) (chunkCount n k)); intros Hlen; split; lia.
  - intros i i' name name' doc doc' j H H' Hj Hj'.
    destruct (Hnth i name doc H) as [Hi ->].
    destruct (Hnth i' name' doc' H') as [Hi' ->].
    apply In_chunkIndices in Hj, Hj'. nia.
Qed.

Lemma process_fixed_chunk_sizes_witness :
  exists entries,
    resultUrl (fst (processPDF 0
       (exampleState (Some (mkFile (Some 12%nat)))
          (map (fun i => mkPage i "u" false) (seq 0 10))
          fixed single 3 [])))
    = Some (ZipBlob entries)
    /\ length entries = 4%nat
    /\ concat (map snd entries) = seq 0 10.
Proof.
  destruct (process_fixed_chunk_sizes 0
              (exampleState (Some (mkFile (Some 12%nat)))
                 (map (fun i => mkPage i "u" false) (seq 0 10))
                 fixed single 3 [])
              (mkFile (Some 12%nat)) 12 eq_refl eq_refl ltac:(cbn; lia)
              eq_refl) as [entries [H1 H2]].
  cbn [fixedRange exampleState] in H2.
  change (Pos.of_nat 3) with 3%positive in H2. cbv zeta in H2.
  destruct H2 as [Hlen [_ [Hcat _]]].
  exists entries. split; [exact H1 |]. split; [exact Hlen | exact Hcat].
Defined.

(* ================================================================== *)
(** * From the load to the download *)
(* ================================================================== *)

Lemma loadPDF_ok f pdf st :
  (forall i, (1 <= i <= numPages pdf)%nat ->
             thumbnailOf pdf i <> RenderFails) ->
  exists progress,
    loadPDF f (Some pdf) st
    = (mkState (Some f) (loadedPages (numPages pdf) (renderedUrl pdf))
         (mode st) (outputMode st) (fixedRange st) false (isProcessing st)
         [] progress None (resultFilename st), []).
Proof.
  intros Hok. unfold loadPDF. rewrite loadLoop_renders.
  - eexists. reflexivity.
  - intros i Hi. apply in_seq in Hi. apply Hok. lia.
Qed.

Lemma loadedPages_unselected n render :
  filter selected (loadedPages n render) = [].
Proof.
  unfold loadedPages. induction (seq 1 n) as [| i l IH]; [reflexivity |].
  cbn [flat_map]. rewrite filter_app, IH, app_nil_r.
  now destruct (render i).
Qed.

Lemma loadedPages_full pdf :
  (forall i, (1 <= i <= numPages pdf)%nat ->
             exists url, thumbnailOf pdf i = Rendered url) ->
  map index (loadedPages (numPages pdf) (renderedUrl pdf))
  = seq 0 (numPages pdf).
Proof.
  intros Hall. unfold loadedPages.
  assert (H : forall len start, (1 <= start)%nat ->
            (forall i, (start <= i < start + len)%nat ->
                       exists url, thumbnailOf pdf i = Rendered url) ->
            map index
              (flat_map (fun i => match renderedUrl pdf i with
                                  | Some url => [mkPage (i - 1) url false]
                                  | None => []
                                  end) (seq start len))
            = seq (start - 1) len).
  { induction len as [| len IH]; intros start Hstart Hr; [reflexivity |].
    cbn [seq flat_map]. destruct (Hr start ltac:(lia)) as [url E].
    unfold renderedUrl at 1. rewrite E. cbn [app map index].
    rewrite IH by (try lia; intros i Hi; apply Hr; lia).
    replace (S start - 1)%nat with (S (start - 1)) by lia. reflexivity. }
  apply (H (numPages pdf) 1%nat); [lia |].
  intros i Hi. apply Hall. lia.
Qed.

Lemma processPDF_separate timestamp st f srcPages :
  file st = Some f -> pageCount f = Some srcPages ->
  mode st = custom -> outputMode st = separate ->
  filter selected (pages st) <> [] ->
  (forall p, In p (pages st) -> selected p = true ->
             (index p < srcPages)%nat) ->
  NoDup (map index (pages st)) ->
  processPDF timestamp st
  = (setIsProcessing false
       (setResult
          (ZipBlob (map (fun p => (pageName p, [index p]))
                        (filter selected (pages st))))
          ("extracted_pages_" ++ toString timestamp ++ ".zip") st), []).
Proof.
  intros Hfile Hload Hmode Hout Hsel Hsrc Hnd.
  assert (Hloop : separateLoop srcPages (filter selected (pages st)) []
                  = Some (map (fun p => (pageName p, [index p]))
                              (filter selected (pages st)))).
  { rewrite separateLoop_entries; [reflexivity | | | ].
    - intros p Hp. apply filter_In in Hp as [Hp Hs]. now apply Hsrc.
    - now apply NoDup_map_filter.
    - intros p _ []. }
  unfold processPDF. rewrite Hfile. unfold processBody. rewrite Hload.
  cbn [mode setIsProcessing pages outputMode]. rewrite Hmode, Hout.
  revert Hloop Hsel.
  destruct (filter selected (pages st)) as [| p ps];
    intros Hloop Hsel; [contradiction |].
  rewrite Hloop. clear. destruct st; reflexivity.
Qed.

Lemma map_index_setSelected b ps :
  map index (map (setSelected b) ps) = map index ps.
Proof. rewrite map_map. reflexivity. Qed.

(** X14. A document of [n] pages that pdf.js renders in full and pdf-lib
    reads with the same page count, taken from the load to the download.
    In custom mode the fresh page list has nothing selected: the button is
    disabled and a call of [processPDF] produces nothing and shows nothing.
    After "select all", merged output is the whole document, pages 0 to
    [n - 1] in order, and separate output is the archive of page_1.pdf to
    page_n.pdf, entry [i] holding page [i - 1]. In fixed mode the
    archive is made of the ceil(n / k) parts of the document right after the
    load when the chunk size [k] is finite, and has no entry when it is
    +Infinity. *)
Theorem load_then_process
  (timestamp : nat) (f : File) (pdf : PdfJs) (st : State) :
  let n := numPages pdf in
  let loaded := fst (loadPDF f (Some pdf) st) in
  (forall i, (1 <= i <= n)%nat -> exists url, thumbnailOf pdf i = Rendered url) ->
  pageCount f = Some n ->
  snd (loadPDF f (Some pdf) st) = []
  /\ (mode st = custom ->
      processDisabled loaded = true
      /\ snd (processPDF timestamp loaded) = []
      /\ resultUrl (fst (processPDF timestamp loaded)) = None)
  /\ (mode st = custom -> outputMode st = single -> (1 <= n)%nat ->
      processPDF timestamp (selectAll true loaded)
      = (setIsProcessing false
           (setResult (PdfBlob (seq 0 n))
              ("extracted_" ++ toString timestamp ++ ".pdf")
              (selectAll true loaded)), []))
  /\ (mode st = custom -> outputMode st = separate -> (1 <= n)%nat ->
      processPDF timestamp (selectAll true loaded)
      = (setIsProcessing false
           (setResult
              (ZipBlob (map (fun i => (("page_" ++ toString (i + 1)
                                        ++ ".pdf")%string, [i]))
                            (seq 0 n)))
              ("extracted_pages_" ++ toString timestamp ++ ".zip")
              (selectAll true loaded)), []))
  /\ (mode st = fixed ->
      resultUrl (fst (processPDF timestamp loaded))
      = Some (ZipBlob
                (match fixedRange st with
                 | Pages p =>
                     map (fun i => (partName n (Pos.to_nat p) i,
                                    chunkIndices n (Pos.to_nat p) i))
                         (seq 0 (chunkCount n (Pos.to_nat p)))
                 | Unbounded => []
                 end))
      /\ snd (processPDF timestamp loaded) = []).
Proof.
  intros n loaded Hall Hload.
  assert (Hok : forall i, (1 <= i <= numPages pdf)%nat ->
                          thumbnailOf pdf i <> RenderFails).
  { intros i Hi. destruct (Hall i Hi) as [url ->]. discriminate. }
  destruct (loadPDF_ok f pdf st Hok) as [progress Eload].
  pose proof (loadedPages_full pdf Hall) as Hidx. fold n in Hidx.
  pose proof (loadedPages_unselected n (renderedUrl pdf)) as Hnone.
  assert (Hlen : length (loadedPages n (renderedUrl pdf)) = n).
  { rewrite <- (length_map index), Hidx. apply length_seq. }
  subst loaded. rewrite Eload. cbn [fst snd]. fold n.
  set (loaded := mkState (Some f) (loadedPages n (renderedUrl pdf)) (mode st)
                   (outputMode st) (fixedRange st) false (isProcessing st)
                   [] progress None (resultFilename st)).
  assert (Hall_sel : filter selected (pages (selectAll true loaded))
                     = map (setSelected true) (loadedPages n (renderedUrl pdf)))
    by (unfold loaded; cbn [selectAll setPages pages];
        now rewrite filter_selected_all).
  assert (Hsel_idx : map index (pages (selectAll true loaded)) = seq 0 n)
    by (unfold loaded; cbn [selectAll setPages pages];
        now rewrite map_index_setSelected).
  assert (Hsrc : forall p, In p (pages (selectAll true loaded)) ->
                           selected p = true -> (index p < n)%nat).
  { intros p Hp _. apply (in_map index) in Hp. rewrite Hsel_idx in Hp.
    apply in_seq in Hp. lia. }
  assert (Hne : (1 <= n)%nat ->
                filter selected (pages (selectAll true loaded)) <> []).
  { intros Hn E. apply (f_equal (@length _)) in E.
    rewrite Hall_sel, length_map, Hlen in E. cbn in E. lia. }
  split; [reflexivity |].
  split; [| split; [| split]].
  - intros Hmode. split; [| split].
    + unfold processDisabled, loaded. cbn [mode pages isProcessing].
      rewrite Hmode, Hnone. cbn. apply orb_true_r.
    + unfold processPDF, processBody, loaded. cbn [file]. rewrite Hload.
      cbn [setIsProcessing mode pages]. rewrite Hmode, Hnone. reflexivity.
    + unfold processPDF, processBody, loaded. cbn [file]. rewrite Hload.
      cbn [setIsProcessing mode pages]. rewrite Hmode, Hnone. reflexivity.
  - intros Hmode Hout Hn.
    rewrite (processPDF_single timestamp (selectAll true loaded) f n
               eq_refl Hload Hmode Hout (Hne Hn) Hsrc).
    rewrite Hall_sel, map_index_setSelected, Hidx. reflexivity.
  - intros Hmode Hout Hn.
    rewrite (processPDF_separate timestamp (selectAll true loaded) f n
               eq_refl Hload Hmode Hout (Hne Hn) Hsrc).
    + rewrite Hall_sel.
      replace (map (fun p => (pageName p, [index p]))
                   (map (setSelected true) (loadedPages n (renderedUrl pdf))))
        with (map (fun i => (("page_" ++ toString (i + 1) ++ ".pdf")%string,
                             [i]))
                  (map index (loadedPages n (renderedUrl pdf))))
        by (rewrite !map_map; reflexivity).
      rewrite Hidx. reflexivity.
    + rewrite Hsel_idx. apply seq_NoDup.
  - intros Hmode.
    assert (Hle : (length (pages loaded) <= n)%nat)
      by (unfold loaded; cbn [pages]; lia).
    destruct (processPDF_fixed_entries timestamp loaded f n
                eq_refl Hload Hle Hmode) as [H1 H2].
    split; [| exact H2]. rewrite H1. unfold loaded. cbn [pages fixedRange].
    rewrite Hlen. reflexivity.
Qed.

Lemma load_then_process_witness :
  processDisabled
    (fst (loadPDF (mkFile (Some 3%nat)) (Some (examplePdf 3 0 0))
            (exampleState None [] custom single 1 []))) = true
  /\ resultUrl
       (fst (processPDF 0
          (selectAll true
             (fst (loadPDF (mkFile (Some 3%nat)) (Some (examplePdf 3 0 0))
                     (exampleState None [] custom single 1 []))))))
     = Some (PdfBlob [0; 1; 2]%nat).
Proof.
  assert (Hall : forall i, (1 <= i <= numPages (examplePdf 3 0 0))%nat ->
            exists url, thumbnailOf (examplePdf 3 0 0) i = Rendered url).
  { intros i Hi. exists "u"%string. cbn in *.
    destruct i as [| [| [| [| i]]]]; cbn; try reflexivity; lia. }
  pose proof (load_then_process 0 (mkFile (Some 3%nat)) (examplePdf 3 0 0)
                (exampleState None [] custom single 1 [])) as H.
  cbv zeta in H. destruct (H Hall eq_refl) as [_ [Ha [Hb _]]].
  split; [apply (Ha eq_refl) |].
  rewrite (Hb eq_refl eq_refl ltac:(cbn; lia)). reflexivity.
Defined.

(* ================================================================== *)
(** * The group badge of the fixed mode *)
(* ================================================================== *)

Lemma round_half_even_below a d b :
  0 < d -> 2 * a < (2 * b + 1) * d -> round_half_even a d <= b.
Proof.
  intros Hd Hab.
  pose proof (Z.div_mod a d ltac:(lia)) as Hdm.
  pose proof (Z.mod_pos_bound a d Hd) as Hm.
  pose proof (round_half_even_range a d Hd) as [_ Hup].
  destruct (Z.lt_trichotomy (a / d) b) as [Hlt | [Heq | Hgt]]; [lia | | nia].
  unfold round_half_even.
  replace (2 * (a mod d) ?= d) with Lt
    by (symmetry; apply Z.compare_lt_iff; nia).
  lia.
Qed.

(** The quotient of two integers below 2^53 is rounded to a Number that has
    the floor of the exact quotient. *)
Lemma round_quotient_floor n k :
  0 < k < 2 ^ 53 -> 0 <= n < 2 ^ 53 ->
  exists r, round false (n * unit_scale * unit_scale) (k * unit_scale) = Fin r
            /\ n / k * unit_scale <= r < (n / k + 1) * unit_scale.
Proof.
  intros Hk Hn. pose proof unit_scale_pos as HU.
  pose proof (Z.div_mod n k ltac:(lia)) as Hdm.
  pose proof (Z.mod_pos_bound n k ltac:(lia)) as Hmod.
  set (m := n / k) in *. set (rem := n mod k) in *.
  assert (Hm : 0 <= m) by (apply Z.div_pos; lia).
  assert (Hmn : m <= n) by nia.
  unfold round.
  replace (n * unit_scale * unit_scale / (k * unit_scale))
    with (n * unit_scale / k)
    by (symmetry; apply Z.div_mul_cancel_r; lia).
  set (q := n * unit_scale / k).
  assert (Hq : 0 <= q) by (apply Z.div_pos; nia).
  assert (Hqk : q * k <= n * unit_scale).
  { pose proof (Z.mul_div_le (n * unit_scale) k ltac:(lia)). unfold q. lia. }
  assert (Hqlt : q < 2 ^ 53 * unit_scale).
  { apply Z.le_lt_trans with (n * unit_scale); nia. }
  pose proof (last_place_bound q ltac:(lia)) as Hs.
  remember (Z.max 0 (Z.log2 q - 52)) as s eqn:Es.
  assert (Hp : 0 < 2 ^ s) by (apply Z.pow_pos_nonneg; lia).
  pose proof (unit_scale_split s Hs) as Hsplit.
  remember (2 ^ (1074 - s)) as t eqn:Et.
  assert (Ht : 0 < t) by (subst t; apply Z.pow_pos_nonneg; lia).
  assert (Hsmall : k * 2 ^ s < 2 * unit_scale).
  { destruct (Z.eq_dec s 0) as [Hs0 | Hs0].
    - rewrite Hs0, Z.pow_0_r. pose proof pow_53_lt_unit_scale. lia.
    - assert (Hlarge : 52 < Z.log2 q) by lia.
      assert (Hqpos : 0 < q).
      { destruct (Z.lt_ge_cases 0 q) as [Hpos | Hnonpos]; [exact Hpos |].
        rewrite (Z.log2_nonpos q) in Hlarge by lia. lia. }
      pose proof (Z.log2_spec q Hqpos) as [Hlog _].
      assert (H52 : 2 ^ Z.log2 q = 2 ^ 52 * 2 ^ s).
      { rewrite <- Z.pow_add_r by lia. f_equal. lia. }
      assert (Hpow : 2 ^ 53 = 2 * 2 ^ 52) by reflexivity.
      assert (H52pos : 0 < 2 ^ 52) by (apply Z.pow_pos_nonneg; lia).
      nia. }
  set (d := k * unit_scale * 2 ^ s).
  assert (Hd : 0 < d) by (unfold d; nia).
  set (a := n * unit_scale * unit_scale).
  assert (Ha : a = m * t * d + rem * unit_scale * unit_scale).
  { unfold a, d. rewrite Hsplit at 1. nia. }
  (* the rounding stays below the next integer: the last place is less than
     twice the distance [1 / k] to it *)
  assert (Hup : round_half_even a d <= (m + 1) * t - 1).
  { apply round_half_even_below; [exact Hd |].
    assert (Hrem : rem * (unit_scale * unit_scale)
                   <= (k - 1) * (unit_scale * unit_scale))
      by (apply Z.mul_le_mono_nonneg_r; nia).
    assert (Hgap : k * 2 ^ s * unit_scale < 2 * unit_scale * unit_scale)
      by (apply Z.mul_lt_mono_pos_r; lia).
    assert (Htd : t * d = k * unit_scale * unit_scale)
      by (unfold d; rewrite Hsplit at 2; lia).
    rewrite Ha.
    replace ((2 * ((m + 1) * t - 1) + 1) * d)
      with (2 * (m * t * d) + 2 * (t * d) - d) by lia.
    rewrite Htd. unfold d. lia. }
  assert (Hlow : m * t <= round_half_even a d).
  { pose proof (round_half_even_range a d Hd) as [Hfloor _].
    assert (Hdiv : m * t <= a / d)
      by (apply Z.div_le_lower_bound; [exact Hd | nia]).
    lia. }
  set (r := round_half_even a d * 2 ^ s).
  assert (Hr : m * unit_scale <= r < (m + 1) * unit_scale).
  { unfold r. rewrite Hsplit. nia. }
  pose proof (below_overflow (m + 1) ltac:(lia)) as Hov.
  replace (2 ^ 2098 <=? r) with false by (symmetry; apply Z.leb_gt; lia).
  exists r. split; [reflexivity | exact Hr].
Qed.

(** On Numbers, [Math.floor(j / k) + 1] for a page index and a chunk size
    below 2^53 is the quotient of the natural numbers plus one. *)
Lemma floor_quotient_as_Number j k :
  (1 <= k)%nat -> Z.of_nat j < 2 ^ 53 -> Z.of_nat k < 2 ^ 53 ->
  add (Math_floor (div (of_nat j) (of_nat k))) one = of_nat (j / k + 1).
Proof.
  intros Hk Hj Hk53. pose proof unit_scale_pos as HU.
  unfold of_nat at 1 2. unfold of_Z. cbn [div].
  replace (Z.of_nat k * unit_scale =? 0) with false
    by (symmetry; apply Z.eqb_neq; nia).
  replace (Z.of_nat j * unit_scale <? 0) with false
    by (symmetry; apply Z.ltb_ge; nia).
  replace (Z.of_nat k * unit_scale <? 0) with false
    by (symmetry; apply Z.ltb_ge; nia).
  cbn [xorb]. rewrite !Z.abs_eq by nia.
  destruct (round_quotient_floor (Z.of_nat j) (Z.of_nat k))
    as [r [-> Hr]]; [lia | lia |].
  rewrite <- Nat2Z.inj_div in Hr. cbn [Math_floor].
  assert (Hq : r / unit_scale = Z.of_nat (j / k)).
  { symmetry. apply Z.div_unique with
      (r := r - Z.of_nat (j / k) * unit_scale); lia. }
  rewrite Hq. fold (of_Z (Z.of_nat (j / k))).
  assert (Hle : (j / k <= j)%nat) by (apply Nat.Div0.div_le_upper_bound; nia).
  rewrite add_one_of_Z by lia.
  unfold of_nat. f_equal. lia.
Qed.

Lemma add_zero_one : add (Fin 0) one = of_nat 1.
Proof.
  replace (Fin 0) with (of_Z 0) by (unfold of_Z; f_equal).
  rewrite add_one_of_Z; [reflexivity |].
  split; [| apply Z.pow_pos_nonneg; lia].
  assert (0 < 2 ^ 53) by (apply Z.pow_pos_nonneg; lia). lia.
Qed.

(** On Numbers, [Math.floor(index / fixedRange) + 1] for a page index below
    2^53 is [groupLabel c p], whatever Number the cell holds. *)
Lemma groupLabel_as_Number c p :
  Z.of_nat (index p) < 2 ^ 53 -> isNumber c ->
  add (Math_floor (div (of_nat (index p)) (numberOf c))) one
  = of_nat (groupLabel c p).
Proof.
  intros Hj Hc. pose proof unit_scale_pos as HU.
  destruct c as [k |]; cbn [numberOf groupLabel isNumber] in *.
  - destruct (Z.lt_ge_cases (Z.pos k) (2 ^ 53)) as [Hsmall | Hbig].
    + rewrite <- (positive_nat_Z k) in *.
      apply floor_quotient_as_Number; [| exact Hj | exact Hsmall].
      pose proof (Pos2Nat.is_pos k). lia.
    + unfold of_nat at 1. unfold of_Z. cbn [div].
      replace (Z.pos k * unit_scale =? 0) with false
        by (symmetry; apply Z.eqb_neq; nia).
      replace (Z.of_nat (index p) * unit_scale <? 0) with false
        by (symmetry; apply Z.ltb_ge; nia).
      replace (Z.pos k * unit_scale <? 0) with false
        by (symmetry; apply Z.ltb_ge; nia).
      cbn [xorb]. rewrite !Z.abs_eq by nia.
      destruct (round_quotient_small (Z.of_nat (index p)) (Z.pos k))
        as [r [-> [Hr _]]]; [lia | lia |].
      cbn [Math_floor]. rewrite (Z.div_small r unit_scale Hr).
      rewrite Z.mul_0_l.
      assert (Hlt : (index p < Pos.to_nat k)%nat) by lia.
      rewrite (Nat.div_small _ _ Hlt). apply add_zero_one.
  - unfold of_nat at 1. unfold of_Z. cbn [div Math_floor].
    rewrite Z.div_0_l by lia. rewrite Z.mul_0_l. apply add_zero_one.
Qed.

(** X15. In fixed mode with a finite chunk size the badge "Group g" of a
    page is the number of the archive part that will hold the page: page
    [j] lies in chunk [i] exactly when its badge is [i + 1], and the badges
    run from 1 to the number of files announced. With the chunk size
    +Infinity every badge is 1, although no file will be made. On Numbers
    [Math.floor(index / fixedRange) + 1] is the badge stated here for every
    index below 2^53 and every Number in the cell. *)
Theorem groupLabel_is_part (n : nat) (c : ChunkSize) (p : PagePreview) :
  (index p < n)%nat ->
  match c with
  | Pages q =>
      (forall i, In (index p) (chunkIndices n (Pos.to_nat q) i)
                 <-> groupLabel c p = (i + 1)%nat)
      /\ (1 <= groupLabel c p <= chunkCountOf n c)%nat
  | Unbounded => groupLabel c p = 1%nat /\ chunkCountOf n c = 0%nat
  end
  /\ (Z.of_nat (index p) < 2 ^ 53 -> isNumber c ->
      add (Math_floor (div (of_nat (index p)) (numberOf c))) one
      = of_nat (groupLabel c p)).
Proof.
  intros Hp. split; [| now apply groupLabel_as_Number].
  destruct c as [q |]; [| now split].
  cbn [groupLabel chunkCountOf]. set (k := Pos.to_nat q).
  assert (Hk : (1 <= k)%nat) by (unfold k; pose proof (Pos2Nat.is_pos q); lia).
  pose proof (Nat.div_mod_eq (index p) k) as Hdm.
  pose proof (Nat.mod_upper_bound (index p) k ltac:(lia)) as Hmod.
  pose proof (chunkCount_ceiling n k Hk) as [Hlo Hhi].
  split.
  - intros i. rewrite In_chunkIndices. split.
    + intros [H1 H2]. f_equal. symmetry.
      apply (Nat.div_unique (index p) k i (index p - i * k)); lia.
    + intros E. assert (Ei : (index p / k = i)%nat) by lia. subst i. nia.
  - split; [lia |].
    destruct (Nat.le_gt_cases (index p / k + 1) (chunkCount n k)) as [H | H];
      [exact H | nia].
Qed.

Lemma groupLabel_is_part_witness :
  groupLabel (Pages 3) (mkPage 7 "u" false) = 3%nat
  /\ In 7%nat (chunkIndices 10 3 2).
Proof.
  destruct (groupLabel_is_part 10 (Pages 3) (mkPage 7 "u" false)
              ltac:(cbn; lia)) as [[H _] _].
  split; [reflexivity | apply (H 2%nat); reflexivity].
Defined.

(* ================================================================== *)
(** * The chunk size typed in fixed mode *)
(* ================================================================== *)

Lemma digit_is_plain c :
  isDigit c = true ->
  isWhiteSpace c = false /\ (c =? 43)%N = false /\ (c =? 45)%N = false
  /\ (c =? 120)%N = false /\ (c =? 88)%N = false.
Proof.
  intros H. apply isDigit_spec in H.
  assert (Hc : (c = 48 \/ c = 49 \/ c = 50 \/ c = 51 \/ c = 52 \/ c = 53
                \/ c = 54 \/ c = 55 \/ c = 56 \/ c = 57)%N) by lia.
  destruct Hc as [-> | [-> | [-> | [-> | [-> | [-> | [-> | [-> | [-> | ->]]]]]]]]];
    split; try reflexivity; split; try reflexivity; split; try reflexivity;
    split; reflexivity.
Qed.

Lemma digitValue_nonneg radix c v : digitValue radix c = Some v -> 0 <= v.
Proof.
  unfold digitValue.
  destruct ((48 <=? c) && (c <=? 57))%N eqn:E1.
  - apply andb_prop in E1 as [E1 _]. apply N.leb_le in E1.
    destruct (Z.of_N c - 48 <? radix); [| discriminate].
    intros E. injection E as <-. lia.
  - destruct ((97 <=? c) && (c <=? 102))%N eqn:E2.
    + apply andb_prop in E2 as [E2 _]. apply N.leb_le in E2.
      destruct (Z.of_N c - 87 <? radix); [| discriminate].
      intros E. injection E as <-. lia.
    + destruct ((65 <=? c) && (c <=? 70))%N eqn:E3.
      * apply andb_prop in E3 as [E3 _]. apply N.leb_le in E3.
        destruct (Z.of_N c - 55 <? radix); [| discriminate].
        intros E. injection E as <-. lia.
      * destruct (16 <? radix); [| discriminate].
        intros E. injection E as <-. lia.
Qed.

Lemma digitsValue_nonneg radix s :
  0 <= radix ->
  forall acc v, 0 <= acc -> digitsValue radix acc s = Some v -> 0 <= v.
Proof.
  intros Hr. induction s as [| c s IH]; intros acc v Hacc H.
  - cbn in H. injection H as <-. exact Hacc.
  - cbn [digitsValue] in H. destruct (digitValue radix c) as [d |] eqn:E;
      [| discriminate].
    apply digitValue_nonneg in E. apply (IH (acc * radix + d)); [nia | exact H].
Qed.

Lemma hexPrefix_radix t : 0 <= fst (hexPrefix t).
Proof.
  unfold hexPrefix. destruct t as [| c0 [| c1 r]]; cbn [fst]; try lia.
  destruct ((c0 =? 48) && ((c1 =? 120) || (c1 =? 88)))%N; cbn [fst]; lia.
Qed.

Lemma round_nonpos a :
  0 <= a ->
  round true a 1 = Inf true
  \/ exists k, 0 <= k /\ round true a 1 = Fin (- k).
Proof.
  intros Ha. unfold round.
  set (s := Z.max 0 (Z.log2 (a / 1) - 52)).
  assert (Hp : 0 < 1 * 2 ^ s) by (apply Z.mul_pos_pos;
    [lia | apply Z.pow_pos_nonneg; unfold s; lia]).
  pose proof (round_half_even_nonneg a (1 * 2 ^ s) Ha Hp) as Hk.
  destruct (2 ^ 2098 <=? round_half_even a (1 * 2 ^ s) * 2 ^ s);
    [now left | right].
  eexists. split; [| reflexivity]. nia.
Qed.

Lemma max_one_Fin k :
  max one (Fin k) = if unit_scale <=? k then Fin k else one.
Proof. unfold max, one, of_Z, le. rewrite Z.mul_1_l. reflexivity. Qed.

Lemma max_one_one : max one one = one.
Proof.
  unfold one at 2. unfold of_Z. rewrite max_one_Fin, Z.mul_1_l, Z.leb_refl.
  unfold one, of_Z. now rewrite Z.mul_1_l.
Qed.

Lemma span_radix_digits s :
  Forall (fun c => isDigit c = true) s -> span (isRadixDigit 10) s = (s, []).
Proof.
  induction 1 as [| c s Hc _ IH]; [reflexivity |].
  cbn [span]. unfold isRadixDigit at 1. rewrite (digitValue_decimal c Hc).
  now rewrite IH.
Qed.

(** On a string of decimal digits [parseInt] reads the whole string. *)
Lemma parseInt_digits c s v :
  Forall (fun d => isDigit d = true) (c :: s) ->
  digitsValue 10 0 (c :: s) = Some v ->
  parseInt (c :: s) = round false (v * unit_scale) 1.
Proof.
  intros Hall Hv. pose proof (Forall_inv Hall) as Hc.
  destruct (digit_is_plain c Hc) as [Hw [Hplus [Hminus _]]].
  unfold parseInt. cbn [trimStart]. rewrite Hw.
  cbn [signedPart]. rewrite Hplus, Hminus.
  assert (Hhex : hexPrefix (c :: s) = (10, c :: s)).
  { unfold hexPrefix. destruct s as [| c1 r]; [reflexivity |].
    pose proof (Forall_inv (Forall_inv_tail Hall)) as Hc1.
    destruct (digit_is_plain c1 Hc1) as [_ [_ [_ [Hx HX]]]].
    rewrite Hx, HX. cbn [orb]. now rewrite andb_false_r. }
  rewrite Hhex, (span_radix_digits _ Hall). cbn [fst]. now rewrite Hv.
Qed.

(** X16. Whatever text the chunk size input holds, the chunk size stored
    from it, [Math.max(1, parseInt(text) || 1)], is an integer of at least 1
    or +Infinity: never NaN, zero, negative or fractional. A text without a
    leading number (an emptied input) and a text with a minus sign give 1;
    the decimal digits of [n] from 1 to 2^53 give [n]. *)
Theorem nextFixedRange_at_least_one (value : jsstring) :
  (nextFixedRange value = Inf false
   \/ exists z, 1 <= z /\ nextFixedRange value = of_Z z)
  /\ (parseInt value = NaN -> nextFixedRange value = one)
  /\ (forall r, trimStart value = 45%N :: r -> nextFixedRange value = one)
  /\ (forall n, value = decimal n -> (1 <= n)%nat -> Z.of_nat n <= 2 ^ 53 ->
                nextFixedRange value = of_nat n).
Proof.
  pose proof unit_scale_pos as HU.
  assert (Hone : exists z, 1 <= z /\ one = of_Z z)
    by (exists 1; split; [lia | reflexivity]).
  split; [| split; [| split]].
  - unfold nextFixedRange, parseInt.
    destruct (signedPart (trimStart value)) as [negative t].
    pose proof (hexPrefix_radix t) as Hradix.
    destruct (hexPrefix t) as [radix digits]. cbn [fst] in Hradix.
    destruct (fst (span (isRadixDigit radix) digits)) as [| c z];
      [right; cbn [orElse]; rewrite max_one_one; exact Hone |].
    destruct (digitsValue radix 0 (c :: z)) as [v |] eqn:Ev;
      [| right; cbn [orElse]; rewrite max_one_one; exact Hone].
    assert (Hv : 0 <= v)
      by (apply (digitsValue_nonneg radix (c :: z) Hradix 0 v); [lia | exact Ev]).
    destruct negative.
    + right. destruct (round_nonpos (v * unit_scale) ltac:(nia))
        as [-> | [k [Hk ->]]]; [exact Hone |].
      cbn [orElse]. destruct (- k =? 0); [rewrite max_one_one; exact Hone |].
      rewrite max_one_Fin.
      replace (unit_scale <=? - k) with false
        by (symmetry; apply Z.leb_gt; lia).
      exact Hone.
    + destruct (round_integral v Hv) as [-> | [m [Hm ->]]]; [now left | right].
      unfold of_Z at 1. cbn [orElse].
      destruct (Z.eqb_spec (m * unit_scale) 0) as [E | E];
        [rewrite max_one_one; exact Hone |].
      assert (Hm1 : 1 <= m)
        by (destruct (Z.eq_dec m 0) as [-> | Hne]; [lia | lia]).
      unfold of_Z at 1. rewrite max_one_Fin.
      replace (unit_scale <=? m * unit_scale) with true
        by (symmetry; apply Z.leb_le; nia).
      exists m. split; [exact Hm1 | reflexivity].
  - intros E. unfold nextFixedRange. rewrite E. cbn [orElse].
    apply max_one_one.
  - intros r E. unfold nextFixedRange, parseInt. rewrite E.
    cbn [signedPart]. change (45 =? 43)%N with false.
    change (45 =? 45)%N with true. cbn match.
    pose proof (hexPrefix_radix r) as Hradix.
    destruct (hexPrefix r) as [radix digits]. cbn [fst] in Hradix.
    destruct (fst (span (isRadixDigit radix) digits)) as [| c z];
      [cbn [orElse]; apply max_one_one |].
    destruct (digitsValue radix 0 (c :: z)) as [v |] eqn:Ev;
      [| cbn [orElse]; apply max_one_one].
    assert (Hv : 0 <= v)
      by (apply (digitsValue_nonneg radix (c :: z) Hradix 0 v); [lia | exact Ev]).
    destruct (round_nonpos (v * unit_scale) ltac:(nia))
      as [-> | [k [Hk ->]]]; [reflexivity |].
    cbn [orElse]. destruct (- k =? 0); [apply max_one_one |].
    rewrite max_one_Fin.
    replace (unit_scale <=? - k) with false
      by (symmetry; apply Z.leb_gt; lia).
    reflexivity.
  - intros n -> Hn Hn53. unfold nextFixedRange.
    pose proof (digits_decimal n) as Hdigits.
    pose proof (digitsValue_decimal n) as Hvalue.
    destruct (decimal n) as [| c s] eqn:Ed.
    { cbn in Hvalue. injection Hvalue as Hvalue. lia. }
    rewrite (parseInt_digits c s (Z.of_nat n) Hdigits Hvalue).
    rewrite round_exact by lia. cbn [orElse].
    replace (Z.of_nat n * unit_scale =? 0) with false
      by (symmetry; apply Z.eqb_neq; nia).
    rewrite max_one_Fin.
    replace (unit_scale <=? Z.of_nat n * unit_scale) with true
      by (symmetry; apply Z.leb_le; nia).
    reflexivity.
Qed.

Lemma nextFixedRange_at_least_one_witness :
  nextFixedRange (js "-3") = one /\ nextFixedRange (js "12") = of_nat 12.
Proof.
  destruct (nextFixedRange_at_least_one (js "-3")) as [_ [_ [Hminus _]]].
  destruct (nextFixedRange_at_least_one (js "12")) as [_ [_ [_ Hdigits]]].
  split.
  - apply (Hminus (js "3")). reflexivity.
  - apply (Hdigits 12%nat); [reflexivity | lia |].
    apply Z.le_trans with (2 ^ 4); [cbn; lia |].
    apply Z.pow_le_mono_r; lia.
Defined.

(** ** What the cell holds *)

Lemma round_of_Z_bound a m : round false a 1 = of_Z m -> m < 2 ^ 1024.
Proof.
  pose proof unit_scale_pos as HU. unfold round.
  set (k := round_half_even a (1 * 2 ^ Z.max 0 (Z.log2 (a / 1) - 52))
            * 2 ^ Z.max 0 (Z.log2 (a / 1) - 52)).
  destruct (2 ^ 2098 <=? k) eqn:Eb; intros E; [discriminate E |].
  unfold of_Z in E. injection E as E. apply Z.leb_gt in Eb.
  assert (Hpow : 2 ^ 2098 = 2 ^ 1024 * unit_scale)
    by (rewrite unit_scale_eq, <- Z.pow_add_r by lia; reflexivity).
  nia.
Qed.

(** The handler stores an integer from 1 below 2^1024, or +Infinity. *)
Lemma nextFixedRange_cell (value : jsstring) :
  nextFixedRange value = Inf false
  \/ exists z, 1 <= z < 2 ^ 1024 /\ nextFixedRange value = of_Z z.
Proof.
  pose proof unit_scale_pos as HU.
  assert (Hone : exists z, 1 <= z < 2 ^ 1024 /\ one = of_Z z).
  { exists 1. split; [| reflexivity]. split; [lia |].
    apply Z.pow_gt_1; lia. }
  unfold nextFixedRange, parseInt.
  destruct (signedPart (trimStart value)) as [negative t].
  pose proof (hexPrefix_radix t) as Hradix.
  destruct (hexPrefix t) as [radix digits]. cbn [fst] in Hradix.
  destruct (fst (span (isRadixDigit radix) digits)) as [| c z];
    [right; cbn [orElse]; rewrite max_one_one; exact Hone |].
  destruct (digitsValue radix 0 (c :: z)) as [v |] eqn:Ev;
    [| right; cbn [orElse]; rewrite max_one_one; exact Hone].
  assert (Hv : 0 <= v)
    by (apply (digitsValue_nonneg radix (c :: z) Hradix 0 v); [lia | exact Ev]).
  destruct negative.
  - right. destruct (round_nonpos (v * unit_scale) ltac:(nia))
      as [-> | [k [Hk ->]]]; [exact Hone |].
    cbn [orElse]. destruct (- k =? 0); [rewrite max_one_one; exact Hone |].
    rewrite max_one_Fin.
    replace (unit_scale <=? - k) with false
      by (symmetry; apply Z.leb_gt; lia).
    exact Hone.
  - destruct (round_integral v Hv) as [E | [m [Hm E]]]; rewrite E;
      [now left | right].
    pose proof (round_of_Z_bound _ _ E) as Hbound.
    unfold of_Z at 1. cbn [orElse].
    destruct (Z.eqb_spec (m * unit_scale) 0) as [E0 | E0];
      [rewrite max_one_one; exact Hone |].
    assert (Hm1 : 1 <= m)
      by (destruct (Z.eq_dec m 0) as [-> | Hne]; [lia | lia]).
    unfold of_Z at 1. rewrite max_one_Fin.
    replace (unit_scale <=? m * unit_scale) with true
      by (symmetry; apply Z.leb_le; nia).
    exists m. split; [lia | reflexivity].
Qed.

Lemma numberOf_chunkSizeOf z :
  1 <= z -> numberOf (chunkSizeOf (of_Z z)) = of_Z z.
Proof.
  intros Hz. pose proof unit_scale_pos as HU.
  unfold of_Z at 1. cbn [chunkSizeOf numberOf].
  rewrite Z.div_mul by lia. rewrite Z2Pos.id by lia. reflexivity.
Qed.

(** X20. The cell [fixedRange] after the input of the fixed mode changed
    holds exactly the Number [Math.max(1, parseInt(text) || 1)]: an integer
    from 1 below 2^1024, or +Infinity, and +Infinity exactly when that
    Number is; file, pages, modes and range input are left as they are. The
    digits of [n] from 1 to 2^53 store the chunk size [n]; 1 followed by 309
    zeros stores +Infinity. *)
Theorem changeFixedRange_cell (value : jsstring) (st : State) :
  let st' := changeFixedRange value st in
  numberOf (fixedRange st') = nextFixedRange value
  /\ isNumber (fixedRange st')
  /\ (fixedRange st' = Unbounded <-> nextFixedRange value = Inf false)
  /\ (forall n, value = decimal n -> (1 <= n)%nat -> Z.of_nat n <= 2 ^ 53 ->
                fixedRange st' = Pages (Pos.of_nat n))
  /\ (value = hugeText -> fixedRange st' = Unbounded)
  /\ (file st' = file st /\ pages st' = pages st /\ mode st' = mode st
      /\ outputMode st' = outputMode st /\ rangeInput st' = rangeInput st).
Proof.
  intros st'. unfold st', changeFixedRange.
  cbn [fixedRange file pages mode outputMode rangeInput].
  pose proof unit_scale_pos as HU.
  split; [| split; [| split; [| split; [| split]]]].
  - destruct (nextFixedRange_cell value) as [-> | [z [Hz ->]]];
      [reflexivity | apply numberOf_chunkSizeOf; lia].
  - destruct (nextFixedRange_cell value) as [-> | [z [Hz ->]]];
      [exact I |].
    unfold of_Z. cbn [chunkSizeOf isNumber].
    rewrite Z.div_mul by lia. rewrite Z2Pos.id by lia. lia.
  - destruct (nextFixedRange_cell value) as [-> | [z [Hz ->]]];
      [split; reflexivity |].
    unfold of_Z. cbn [chunkSizeOf]. split; intros H; discriminate H.
  - intros n -> Hn Hn53.
    assert (E : nextFixedRange (decimal n) = of_nat n).
    { unfold nextFixedRange.
      pose proof (digits_decimal n) as Hdigits.
      pose proof (digitsValue_decimal n) as Hvalue.
      destruct (decimal n) as [| c s] eqn:Ed.
      { cbn in Hvalue. injection Hvalue as Hvalue. lia. }
      rewrite (parseInt_digits c s (Z.of_nat n) Hdigits Hvalue).
      rewrite round_exact by lia. cbn [orElse].
      replace (Z.of_nat n * unit_scale =? 0) with false
        by (symmetry; apply Z.eqb_neq; nia).
      rewrite max_one_Fin.
      replace (unit_scale <=? Z.of_nat n * unit_scale) with true
        by (symmetry; apply Z.leb_le; nia).
      reflexivity. }
    rewrite E. unfold of_nat, of_Z. cbn [chunkSizeOf].
    rewrite Z.div_mul by lia. f_equal.
    rewrite <- (Nat2Pos.id n) at 1 by lia.
    rewrite positive_nat_Z. reflexivity.
  - intros ->.
    assert (E : nextFixedRange hugeText = Inf false)
      by (vm_compute; reflexivity).
    now rewrite E.
  - repeat split.
Qed.

Lemma changeFixedRange_cell_witness :
  fixedRange (changeFixedRange (js "12")
                (exampleState None [] fixed single 1 []))
  = Pages 12
  /\ fixedRange (changeFixedRange hugeText
                   (exampleState None [] fixed single 1 []))
     = Unbounded.
Proof.
  destruct (changeFixedRange_cell (js "12")
              (exampleState None [] fixed single 1 []))
    as [_ [_ [_ [Hdigits _]]]].
  destruct (changeFixedRange_cell hugeText
              (exampleState None [] fixed single 1 []))
    as [_ [_ [_ [_ [Hhuge _]]]]].
  split.
  - apply (Hdigits 12%nat); [reflexivity | lia |].
    apply Z.le_trans with (2 ^ 4); [cbn; lia |].
    apply Z.pow_le_mono_r; lia.
  - now apply Hhuge.
Defined.

(* ================================================================== *)
(** * Navigation in [App] *)
(* ================================================================== *)

Lemma View_eqb_eq a b : View_eqb a b = true <-> a = b.
Proof. destruct a, b; cbn; split; congruence. Qed.

Lemma In_firstn_In {A} (x : A) n l : In x (firstn n l) -> In x l.
Proof.
  revert l. induction n as [| n IH]; intros [| a l] H; cbn in *; try tauto.
  destruct H as [-> | H]; [now left | right; now apply IH].
Qed.

Lemma NoDup_firstn_keeps {A} n (l : list A) : NoDup l -> NoDup (firstn n l).
Proof.
  revert l. induction n as [| n IH]; intros [| a l] H; cbn;
    try constructor.
  - intros Hin. apply In_firstn_In in Hin. now inversion H.
  - apply IH. now inversion H.
Qed.

Lemma filter_all {A} (keep : A -> bool) l :
  (forall x, In x l -> keep x = true) -> filter keep l = l.
Proof.
  induction l as [| a l IH]; intros H; [reflexivity |].
  cbn [filter]. rewrite (H a (or_introl eq_refl)). f_equal.
  apply IH. intros x Hx. apply H. now right.
Qed.

Lemma In_others view v l :
  In v (filter (fun w => negb (View_eqb w view)) l) <-> In v l /\ v <> view.
Proof.
  rewrite filter_In. split; intros [H1 H2]; (split; [exact H1 |]).
  - intros ->. destruct (View_eqb view view) eqn:E; [discriminate |].
    assert (View_eqb view view = true) by now apply View_eqb_eq.
    congruence.
  - destruct (View_eqb v view) eqn:E; [| reflexivity].
    apply View_eqb_eq in E. contradiction.
Qed.

Lemma navigateTo_tool view st :
  view <> DASHBOARD ->
  navigateTo view st
  = mkApp view
      (view :: firstn 4 (filter (fun w => negb (View_eqb w view))
                                (recentTools st)))
      (Some (view :: firstn 4 (filter (fun w => negb (View_eqb w view))
                                      (recentTools st)))).
Proof.
  intros Hv. unfold navigateTo.
  destruct (View_eqb view DASHBOARD) eqn:E;
    [apply View_eqb_eq in E; contradiction | reflexivity].
Qed.

(** X17. Opening a tool puts it at the head of the recent tools, in the
    state and in the local storage alike; the tools that follow are the
    former ones in their order, without the tool opened, and at most five
    are kept: none is lost while there were fewer than five, none appears
    that was not there, and none appears twice if none did. Opening the
    same tool again changes nothing. *)
Theorem navigateTo_recent (view : View) (st : AppState) :
  view <> DASHBOARD ->
  let st' := navigateTo view st in
  currentView st' = view
  /\ recentTools st'
     = view :: firstn 4 (filter (fun w => negb (View_eqb w view))
                                (recentTools st))
  /\ storedRecent st' = Some (recentTools st')
  /\ (length (recentTools st') <= 5)%nat
  /\ (forall v, In v (recentTools st') -> v = view \/ In v (recentTools st))
  /\ ((length (recentTools st) <= 4)%nat ->
      forall v, In v (recentTools st) -> In v (recentTools st'))
  /\ (NoDup (recentTools st) -> NoDup (recentTools st'))
  /\ navigateTo view st' = st'.
Proof.
  intros Hv st'. unfold st'. rewrite (navigateTo_tool view st Hv).
  cbn [currentView recentTools storedRecent].
  set (others := filter (fun w => negb (View_eqb w view)) (recentTools st)).
  split; [reflexivity |]. split; [reflexivity |]. split; [reflexivity |].
  split; [| split; [| split; [| split]]].
  - cbn [length]. pose proof (firstn_le_length 4 others). lia.
  - intros v [<- | Hin]; [now left | right].
    apply In_firstn_In in Hin. now apply In_others in Hin.
  - intros Hlen v Hin.
    assert (Hshort : (length others <= 4)%nat).
    { unfold others. pose proof (filter_length_le
        (fun w => negb (View_eqb w view)) (recentTools st)). lia. }
    rewrite firstn_all2 by exact Hshort.
    destruct (View_eqb v view) eqn:E.
    + apply View_eqb_eq in E. now left.
    + right. apply In_others. split; [exact Hin |].
      intros ->. assert (View_eqb view view = true) by now apply View_eqb_eq.
      congruence.
  - intros Hnd. constructor.
    + intros Hin. apply In_firstn_In in Hin. apply In_others in Hin.
      now destruct Hin.
    + apply NoDup_firstn_keeps. now apply NoDup_filter.
  - rewrite (navigateTo_tool view _ Hv). cbn [recentTools].
    cbn [filter].
    replace (negb (View_eqb view view)) with false
      by (symmetry; apply negb_false_iff; now apply View_eqb_eq).
    rewrite (filter_all _ (firstn 4 others)).
    + rewrite firstn_firstn. reflexivity.
    + intros x Hx. apply In_firstn_In in Hx. apply In_others in Hx.
      destruct Hx as [_ Hne]. destruct (View_eqb x view) eqn:E;
        [apply View_eqb_eq in E; contradiction | reflexivity].
Qed.

Lemma navigateTo_recent_witness :
  recentTools
    (navigateTo PDF_SPLIT
       (initApp (Some [QR_CODE; PDF_MERGE; PDF_SPLIT; PDF_COMPRESS;
                       URL_SHORTENER])))
  = [PDF_SPLIT; QR_CODE; PDF_MERGE; PDF_COMPRESS; URL_SHORTENER].
Proof.
  destruct (navigateTo_recent PDF_SPLIT
              (initApp (Some [QR_CODE; PDF_MERGE; PDF_SPLIT; PDF_COMPRESS;
                              URL_SHORTENER]))
              ltac:(discriminate)) as [_ [H _]].
  rewrite H. reflexivity.
Defined.

Lemma last_cons_default {A} (l : list A) :
  forall a d, last (a :: l) d = last l a.
Proof.
  induction l as [| b l IH]; intros a d; [reflexivity |].
  change (last (a :: b :: l) d) with (last (b :: l) d).
  now rewrite !IH.
Qed.

Lemma recentsOk_navigateTo view st :
  recentsOk st -> recentsOk (navigateTo view st).
Proof.
  intros [Hnd [Hlen [Hdash Hstore]]].
  destruct (View_eqb view DASHBOARD) eqn:E.
  - unfold navigateTo. rewrite E. repeat split; assumption.
  - assert (Hv : view <> DASHBOARD)
      by (intros ->; cbn in E; discriminate).
    rewrite (navigateTo_tool view st Hv). unfold recentsOk.
    cbn [recentTools storedRecent].
    split; [| split; [| split; [| now left]]].
    + constructor.
      * intros Hin. apply In_firstn_In in Hin. apply In_others in Hin.
        now destruct Hin.
      * apply NoDup_firstn_keeps. now apply NoDup_filter.
    + cbn [length].
      pose proof (firstn_le_length 4
        (filter (fun w => negb (View_eqb w view)) (recentTools st))). lia.
    + intros [Heq | Hin]; [now apply Hv |].
      apply In_firstn_In in Hin. apply In_others in Hin. now apply Hdash.
Qed.

(** X18. However the user moves between the views, the recent tools stay
    in order: no tool twice, at most five, never the dashboard, and the
    local storage holds the list shown (or nothing, while no tool was ever
    opened). The view shown is the last one asked for, and the first recent
    tool is the last tool opened. *)
Theorem navigation_invariant (views : list View) (st : AppState) :
  recentsOk st ->
  recentsOk (navigateAll views st)
  /\ currentView (navigateAll views st) = last views (currentView st)
  /\ (forall v before after,
         views = before ++ v :: after -> v <> DASHBOARD ->
         Forall (fun w => w = DASHBOARD) after ->
         hd_error (recentTools (navigateAll views st)) = Some v).
Proof.
  intros Hok. split; [| split].
  - revert st Hok. induction views as [| v views IH]; intros st Hok;
      [exact Hok |].
    cbn [navigateAll fold_left]. apply IH. now apply recentsOk_navigateTo.
  - revert st Hok. induction views as [| v views IH]; intros st Hok;
      [reflexivity |].
    cbn [navigateAll fold_left].
    change (fold_left (fun s w => navigateTo w s) views (navigateTo v st))
      with (navigateAll views (navigateTo v st)).
    rewrite IH by now apply recentsOk_navigateTo.
    assert (Hcur : currentView (navigateTo v st) = v)
      by (unfold navigateTo; destruct (View_eqb v DASHBOARD); reflexivity).
    rewrite Hcur. symmetry. apply last_cons_default.
  - intros v before after -> Hv Hafter. unfold navigateAll.
    rewrite fold_left_app. cbn [fold_left].
    set (s0 := fold_left (fun s w => navigateTo w s) before st).
    assert (Hhead : hd_error (recentTools (navigateTo v s0)) = Some v)
      by (rewrite (navigateTo_tool v s0 Hv); reflexivity).
    revert Hhead. generalize (navigateTo v s0). clear s0.
    induction Hafter as [| w after Hw _ IH]; intros s Hhead; [exact Hhead |].
    cbn [fold_left]. apply IH. subst w. exact Hhead.
Qed.

Lemma navigation_invariant_witness :
  recentsOk (navigateAll [PDF_SPLIT; DASHBOARD; QR_CODE; PDF_SPLIT; DASHBOARD]
               (initApp None))
  /\ hd_error (recentTools
       (navigateAll [PDF_SPLIT; DASHBOARD; QR_CODE; PDF_SPLIT; DASHBOARD]
          (initApp None))) = Some PDF_SPLIT.
Proof.
  assert (Hinit : recentsOk (initApp None)).
  { unfold recentsOk, initApp. cbn. split; [constructor |].
    split; [lia |]. split; [intros [] | right; now split]. }
  destruct (navigation_invariant
              [PDF_SPLIT; DASHBOARD; QR_CODE; PDF_SPLIT; DASHBOARD]
              (initApp None) Hinit) as [H1 [_ H3]].
  split; [exact H1 |].
  apply (H3 PDF_SPLIT [PDF_SPLIT; DASHBOARD; QR_CODE] [DASHBOARD]);
    [reflexivity | discriminate | repeat constructor].
Defined.
